(** * mac-mail-mcp: message deduplication and the mail result cache

    A shallow embedding of the class [MessageDeduplicator] (the message
    deduplicator of the mail server, which its callers import as
    mail/message-deduplicator) and of the class [MailCache] (the SQLite
    result cache of the mail server), with the properties of the
    deduplication and caching layer proved about the embedded code. The
    embedding also covers the pure checks of [SecurityManager] (folder
    names, addresses, the rate limit), the hybrid client that feeds the
    deduplicator ([getMessages], [getStatistics], [searchMessages]) and the
    mailbox name taken from a URL by the Mac Mail database.

    Conventions of the embedding
    - A JavaScript string is a sequence of UTF-16 code units; the model keeps
      the code units below 256 (Latin-1), so a string is a Rocq [string] and
      [charCodeAt] is the character's number.
    - A [Date] is its time value, the integer number of milliseconds since the
      epoch ([getTime]); only valid dates are modelled.
    - Counters and identifiers are JavaScript numbers that hold integers: [Z].
    - The private fields of the deduplicator (three sets and a map) are passed
      explicitly as a [DedupState]; [Date.now()] is an argument of the cache
      operations and of the rate limit.
    - What the hybrid client reads from outside (the Mac Mail database, the
      EMLX files) is a parameter of its functions. *)

From Stdlib Require Import ZArith QArith List Ascii String Sorted Lia.
From stdpp Require Import gmap strings list fin_maps pretty.

Open Scope Z_scope.

(* ===================================================================== *)
(** ** The JavaScript primitives the code calls *)
(* ===================================================================== *)

Module JS.

(** [s.charCodeAt(i)] of one character. *)
Definition charCode (c : ascii) : Z := Z.of_N (N_of_ascii c).

(** The class [\s] of regular expressions, which is also what [trim]
    removes: TAB, LF, VT, FF, CR, space and the no-break space. *)
Definition isSpace (c : ascii) : bool :=
  let n := charCode c in
  ((9 <=? n) && (n <=? 13)) || (n =? 32) || (n =? 160).

(** [toLowerCase] on one code unit: A-Z, and the Latin-1 capitals
    (U+00C0-U+00DE without the multiplication sign U+00D7). *)
Definition lowerChar (c : ascii) : ascii :=
  let n := charCode c in
  if ((65 <=? n) && (n <=? 90))
     || ((192 <=? n) && (n <=? 222) && negb (n =? 215))
  then ascii_of_N (Z.to_N (n + 32))
  else c.

Definition chars (s : string) : list ascii := list_ascii_of_string s.
Definition str (l : list ascii) : string := string_of_list_ascii l.

Definition lowerChars (l : list ascii) : list ascii := map lowerChar l.

Fixpoint trimStartChars (l : list ascii) : list ascii :=
  match l with
  | c :: l' => if isSpace c then trimStartChars l' else l
  | [] => []
  end.

Definition trimChars (l : list ascii) : list ascii :=
  rev (trimStartChars (rev (trimStartChars l))).

(** [s.toLowerCase()], [s.trim()], [s.substring(0, n)] and [s.length].
    On the code units below 256 [toLowerCase] maps each character on its own;
    the mappings of Unicode that depend on the neighbouring characters, or
    change the length, concern characters outside this range, which the
    strings of the embedding do not contain. *)
Definition toLowerCase (s : string) : string := str (lowerChars (chars s)).
Definition trim (s : string) : string := str (trimChars (chars s)).
Definition substring0 (n : nat) (s : string) : string := str (firstn n (chars s)).

(** [parts.join(sep)]. *)
Fixpoint join (sep : string) (parts : list string) : string :=
  match parts with
  | [] => EmptyString
  | [p] => p
  | p :: rest => String.append p (String.append sep (join sep rest))
  end.

(** [Boolean(s)] of a string: the empty string is falsy. *)
Definition truthyString (s : string) : bool :=
  match s with EmptyString => false | _ => true end.

(** Truthiness of a number that holds an integer: [0] is falsy. *)
Definition truthyNumber (n : Z) : bool := negb (n =? 0).

(** *** [Date.prototype.toISOString] *)

Definition digitChar (d : Z) : ascii := ascii_of_N (Z.to_N (48 + d)).

(** The last [w] decimal digits of [n], most significant first. *)
Fixpoint digits (w : nat) (n : Z) : list ascii :=
  match w with
  | O => []
  | S w' => digits w' (n / 10) ++ [digitChar (n mod 10)]
  end.

Definition msPerDay : Z := 86400000.

(** Year, month and day of the proleptic Gregorian calendar from the number
    of days since 1970-01-01. *)
Definition civilFromDays (days : Z) : Z * Z * Z :=
  let z := days + 719468 in
  let era := z / 146097 in
  let doe := z - era * 146097 in
  let yoe := (doe - doe / 1460 + doe / 36524 - doe / 146096) / 365 in
  let doy := doe - (365 * yoe + yoe / 4 - yoe / 100) in
  let mp := (5 * doy + 2) / 153 in
  let d := doy - (153 * mp + 2) / 5 + 1 in
  let m := if mp <? 10 then mp + 3 else mp - 9 in
  let y := yoe + era * 400 + (if m <=? 2 then 1 else 0) in
  (y, m, d).

Definition isoYear (y : Z) : list ascii :=
  if (0 <=? y) && (y <=? 9999) then digits 4 y
  else (if y <? 0 then "-"%char else "+"%char) :: digits 6 (Z.abs y).

(** [new Date(t).toISOString()], as [YYYY-MM-DDTHH:mm:ss.sssZ] (with the
    signed six-digit year outside 0..9999). *)
Definition toISOChars (t : Z) : list ascii :=
  let days := t / msPerDay in
  let ms := t mod msPerDay in
  let '(y, m, d) := civilFromDays days in
  isoYear y ++ ["-"%char] ++ digits 2 m ++ ["-"%char] ++ digits 2 d
    ++ ["T"%char] ++ digits 2 (ms / 3600000)
    ++ [":"%char] ++ digits 2 (ms / 60000 mod 60)
    ++ [":"%char] ++ digits 2 (ms / 1000 mod 60)
    ++ ["."%char] ++ digits 3 (ms mod 1000) ++ ["Z"%char].

Definition toISOString (t : Z) : string := str (toISOChars t).

(** [x | 0]: the signed 32-bit integer of a number that holds an integer. *)
Definition toInt32 (x : Z) : Z := (x + 2147483648) mod 4294967296 - 2147483648.

End JS.

(* ===================================================================== *)
(** ** The deduplicator (mail/message-deduplicator.ts) *)
(* ===================================================================== *)

Module Dedup.

Inductive Source := MacMail | Imap.

(** [interface UnifiedMessage]; [originalData] (of type [any], read by no
    function of the deduplicator) is left out. *)
Record UnifiedMessage := {
  id : string;
  globalMessageId : option Z;
  messageIdHeader : option string;
  subject : string;
  from : string;
  to : option (list string);
  cc : option (list string);
  date : Z;
  isRead : bool;
  isFlagged : bool;
  hasAttachments : bool;
  account : string;
  accountType : string;
  mailbox : string;
  source : Source;
  textContent : option string;
  htmlContent : option string;
  remoteId : option string;
  conversationId : option Z
}.

Module Methods.
Record t := {
  globalMessageId : Z;
  messageIdHeader : Z;
  contentHash : Z;
  fuzzyMatch : Z
}.
Definition total (m : t) : Z :=
  globalMessageId m + messageIdHeader m + contentHash m + fuzzyMatch m.
End Methods.

Record BySource := { macMail : Z; imap : Z }.

(** [interface DeduplicationStats]. *)
Record DeduplicationStats := {
  totalMessages : Z;
  uniqueMessages : Z;
  duplicatesRemoved : Z;
  bySource : BySource;
  deduplicationMethods : Methods.t
}.

(** The four private fields of [MessageDeduplicator]. *)
Record DedupState := {
  seenGlobalIds : gset Z;
  seenMessageIds : gset string;
  seenContentHashes : gset string;
  fuzzyMatches : gmap string UnifiedMessage
}.

(** [reset()]: all four indexes cleared. *)
Definition reset : DedupState :=
  {| seenGlobalIds := ∅; seenMessageIds := ∅;
     seenContentHashes := ∅; fuzzyMatches := ∅ |}.

(** *** generateContentHash *)

(** The loop [hash = ((hash << 5) - hash) + char; hash = hash & hash]. *)
Definition hashStep (hash : Z) (c : ascii) : Z :=
  JS.toInt32 ((JS.toInt32 (Z.shiftl hash 5) - hash) + JS.charCode c).

Definition hashString (content : string) : Z :=
  fold_left hashStep (JS.chars content) 0.

Definition contentParts (message : UnifiedMessage) : list string :=
  [ JS.trim (JS.toLowerCase (subject message));
    JS.trim (JS.toLowerCase (from message));
    JS.substring0 16 (JS.toISOString (date message));
    JS.toLowerCase (account message) ].

Definition generateContentHash (message : UnifiedMessage) : string :=
  let content := JS.join "|" (filter (fun s => JS.truthyString s = true) (contentParts message)) in
  pretty (hashString content).

(** *** generateFuzzyKey and normalizeSender *)

Fixpoint stripPrefix (p l : list ascii) : option (list ascii) :=
  match p, l with
  | [], _ => Some l
  | a :: p', b :: l' => if Ascii.eqb a b then stripPrefix p' l' else None
  | _ :: _, [] => None
  end.

(** [.replace(/^(re:|fwd?:|fw:)\s*/g, '')]: one prefix at the very start,
    with the white space that follows it. *)
Definition stripReplyPrefix (l : list ascii) : list ascii :=
  match stripPrefix (JS.chars "re:") l with
  | Some r => JS.trimStartChars r
  | None =>
    match stripPrefix (JS.chars "fwd:") l with
    | Some r => JS.trimStartChars r
    | None =>
      match stripPrefix (JS.chars "fw:") l with
      | Some r => JS.trimStartChars r
      | None => l
      end
    end
  end.

(** [.replace(/\s+/g, ' ')]; [inRun] says that the previous character was
    white space. *)
Fixpoint collapseSpaces (inRun : bool) (l : list ascii) : list ascii :=
  match l with
  | [] => []
  | c :: l' =>
    if JS.isSpace c
    then (if inRun then collapseSpaces true l' else " "%char :: collapseSpaces true l')
    else c :: collapseSpaces false l'
  end.

(** What follows the first [>] of [l], if there is one. *)
Fixpoint afterGt (l : list ascii) : option (list ascii) :=
  match l with
  | [] => None
  | c :: l' => if Ascii.eqb c ">"%char then Some l' else afterGt l'
  end.

(** [.replace(/<[^>]+>/, '')]: the leftmost [<] that is followed by at least
    one character other than [>] and then by a [>] is removed through that
    [>]. *)
Fixpoint removeAngle (l : list ascii) : list ascii :=
  match l with
  | [] => []
  | c :: l' =>
    if Ascii.eqb c "<"%char then
      match l' with
      | x :: l'' =>
        if Ascii.eqb x ">"%char then c :: removeAngle l'
        else match afterGt l'' with
             | Some rest => rest
             | None => c :: removeAngle l'
             end
      | [] => [c]
      end
    else c :: removeAngle l'
  end.

(** The second [replace] of [normalizeSender]: every double quote and every
    white-space character is removed. *)
Definition removeQuotesSpaces (l : list ascii) : list ascii :=
  filter (fun c => (Ascii.eqb c "034"%char || JS.isSpace c) = false) l.

Definition normalizeSender (sender : string) : string :=
  JS.str (JS.trimChars (removeQuotesSpaces (removeAngle (JS.lowerChars (JS.chars sender))))).

Definition normalizeSubject (s : string) : string :=
  JS.str (firstn 50 (JS.trimChars (collapseSpaces false
            (stripReplyPrefix (JS.lowerChars (JS.chars s)))))).

Definition generateFuzzyKey (message : UnifiedMessage) : string :=
  let normalizedSubject := normalizeSubject (subject message) in
  let normalizedSender := normalizeSender (from message) in
  let hourKey := JS.substring0 13 (JS.toISOString (date message)) in
  JS.join "|" [normalizedSubject; normalizedSender; hourKey].

(** *** calculateSimilarity *)

Definition cost (a b : ascii) : Z := if Ascii.eqb a b then 0 else 1.

(** The inner loop [for i = 1 .. s1.length] of one row [j]: [prev] is what
    is left of row [j-1] from column [i-1] on, [left] is [matrix[j][i-1]],
    [c2] is [s2[j-1]]. *)
Fixpoint fillRow (c2 : ascii) (s1 : list ascii) (prev : list Z) (left : Z) : list Z :=
  match s1, prev with
  | c1 :: s1', diag :: ((up :: _) as prev') =>
    let v := Z.min (Z.min (up + 1) (left + 1)) (diag + cost c1 c2) in
    v :: fillRow c2 s1' prev' v
  | _, _ => []
  end.

(** Row 0: [matrix[0][i] = i]. *)
Definition firstRow (s1 : list ascii) : list Z :=
  map Z.of_nat (seq 0 (S (length s1))).

(** The outer loop [for j = 1 .. s2.length]; every row starts with
    [matrix[j][0] = j]. *)
Fixpoint fillMatrix (s1 s2 : list ascii) (j : Z) (prev : list Z) : list (list Z) :=
  match s2 with
  | [] => []
  | c2 :: s2' =>
    let row := j :: fillRow c2 s1 prev j in
    row :: fillMatrix s1 s2' (j + 1) row
  end.

Definition levMatrix (s1 s2 : list ascii) : list (list Z) :=
  firstRow s1 :: fillMatrix s1 s2 1 (firstRow s1).

Definition matrixAt (matrix : list (list Z)) (j i : nat) : Z :=
  nth i (nth j matrix []) 0.

(** The similarity is a quotient of two integers below 2^53, so the double
    the code computes is the correctly rounded rational; it is kept as the
    rational. Comparing it with the literal 0.8 gives the same answer on the
    double and on the rational for every string a JavaScript engine can
    hold (the quotient differs from 4/5 by at least 1/(5 * maxLength) when
    it differs at all). *)
Definition calculateSimilarity (str1 str2 : string) : Q :=
  let s1 := JS.lowerChars (JS.chars str1) in
  let s2 := JS.lowerChars (JS.chars str2) in
  if decide (s1 = s2) then 1%Q
  else if (length s1 =? 0)%nat || (length s2 =? 0)%nat then 0%Q
  else
    let matrix := levMatrix s1 s2 in
    let maxLength := Z.max (Z.of_nat (length s1)) (Z.of_nat (length s2)) in
    (inject_Z (maxLength - matrixAt matrix (length s2) (length s1))
       / inject_Z maxLength)%Q.

Definition Qltb (x y : Q) : bool := negb (Qle_bool y x).

(** The Levenshtein distance the specification names, by its recurrence on
    the first characters; [calculateSimilarity] is compared with it below. *)
Fixpoint levenshtein (a b : list ascii) : Z :=
  match a with
  | [] => Z.of_nat (length b)
  | x :: a' =>
    (fix inner (b : list ascii) : Z :=
       match b with
       | [] => Z.of_nat (length a)
       | y :: b' =>
         Z.min (Z.min (inner b' + 1) (levenshtein a' b + 1))
               (levenshtein a' b' + cost x y)
       end) b
  end.

(** The row the matrix is to hold for the prefix [p2] of [s2], from the
    column of the prefix [p1] of [s1] on, [s1b] being the rest of [s1]; and
    the rows that follow the one of [p2], [s2b] being the rest of [s2]. *)
Fixpoint rowOf (p1 s1b p2 : list ascii) : list Z :=
  levenshtein p1 p2 ::
  match s1b with
  | [] => []
  | c1 :: s1b' => rowOf (p1 ++ [c1]) s1b' p2
  end.

Fixpoint rowsFrom (s1 p2 s2b : list ascii) : list (list Z) :=
  match s2b with
  | [] => []
  | c2 :: s2b' => rowOf [] s1 (p2 ++ [c2]) :: rowsFrom s1 (p2 ++ [c2]) s2b'
  end.

(** *** isFuzzyMatch *)

Definition isFuzzyMatch (message1 message2 : UnifiedMessage) : bool :=
  if negb (String.eqb (normalizeSender (from message1)) (normalizeSender (from message2)))
  then false
  else if Qltb (calculateSimilarity (subject message1) (subject message2)) (8 # 10)
  then false
  else if Z.abs (date message1 - date message2) >? 24 * 60 * 60 * 1000
  then false
  else true.

(** *** isDuplicate and recordMessage *)

Definition bumpGlobalMessageId (stats : DeduplicationStats) : DeduplicationStats :=
  let m := deduplicationMethods stats in
  {| totalMessages := totalMessages stats; uniqueMessages := uniqueMessages stats;
     duplicatesRemoved := duplicatesRemoved stats; bySource := bySource stats;
     deduplicationMethods :=
       {| Methods.globalMessageId := Methods.globalMessageId m + 1;
          Methods.messageIdHeader := Methods.messageIdHeader m;
          Methods.contentHash := Methods.contentHash m;
          Methods.fuzzyMatch := Methods.fuzzyMatch m |} |}.

Definition bumpMessageIdHeader (stats : DeduplicationStats) : DeduplicationStats :=
  let m := deduplicationMethods stats in
  {| totalMessages := totalMessages stats; uniqueMessages := uniqueMessages stats;
     duplicatesRemoved := duplicatesRemoved stats; bySource := bySource stats;
     deduplicationMethods :=
       {| Methods.globalMessageId := Methods.globalMessageId m;
          Methods.messageIdHeader := Methods.messageIdHeader m + 1;
          Methods.contentHash := Methods.contentHash m;
          Methods.fuzzyMatch := Methods.fuzzyMatch m |} |}.

Definition bumpContentHash (stats : DeduplicationStats) : DeduplicationStats :=
  let m := deduplicationMethods stats in
  {| totalMessages := totalMessages stats; uniqueMessages := uniqueMessages stats;
     duplicatesRemoved := duplicatesRemoved stats; bySource := bySource stats;
     deduplicationMethods :=
       {| Methods.globalMessageId := Methods.globalMessageId m;
          Methods.messageIdHeader := Methods.messageIdHeader m;
          Methods.contentHash := Methods.contentHash m + 1;
          Methods.fuzzyMatch := Methods.fuzzyMatch m |} |}.

Definition bumpFuzzyMatch (stats : DeduplicationStats) : DeduplicationStats :=
  let m := deduplicationMethods stats in
  {| totalMessages := totalMessages stats; uniqueMessages := uniqueMessages stats;
     duplicatesRemoved := duplicatesRemoved stats; bySource := bySource stats;
     deduplicationMethods :=
       {| Methods.globalMessageId := Methods.globalMessageId m;
          Methods.messageIdHeader := Methods.messageIdHeader m;
          Methods.contentHash := Methods.contentHash m;
          Methods.fuzzyMatch := Methods.fuzzyMatch m + 1 |} |}.

(** [message.globalMessageId && this.seenGlobalIds.has(message.globalMessageId)] *)
Definition globalIdSeen (st : DedupState) (message : UnifiedMessage) : bool :=
  match globalMessageId message with
  | Some g => JS.truthyNumber g && bool_decide (g ∈ seenGlobalIds st)
  | None => false
  end.

(** [message.messageIdHeader && this.seenMessageIds.has(message.messageIdHeader)] *)
Definition messageIdSeen (st : DedupState) (message : UnifiedMessage) : bool :=
  match messageIdHeader message with
  | Some h => JS.truthyString h && bool_decide (h ∈ seenMessageIds st)
  | None => false
  end.

Definition contentHashSeen (st : DedupState) (message : UnifiedMessage) : bool :=
  bool_decide (generateContentHash message ∈ seenContentHashes st).

(** [existingMessage && this.isFuzzyMatch(message, existingMessage)] *)
Definition fuzzySeen (st : DedupState) (message : UnifiedMessage) : bool :=
  match fuzzyMatches st !! generateFuzzyKey message with
  | Some existingMessage => isFuzzyMatch message existingMessage
  | None => false
  end.

(** [isDuplicate(message, stats)]: the answer and the updated [stats]. *)
Definition isDuplicate (st : DedupState) (message : UnifiedMessage)
    (stats : DeduplicationStats) : bool * DeduplicationStats :=
  if globalIdSeen st message then (true, bumpGlobalMessageId stats)
  else if messageIdSeen st message then (true, bumpMessageIdHeader stats)
  else if contentHashSeen st message then (true, bumpContentHash stats)
  else if fuzzySeen st message then (true, bumpFuzzyMatch stats)
  else (false, stats).

(** Whether any of the four strategies matches: the answer of
    [isDuplicate]. *)
Definition firstMatch (st : DedupState) (m : UnifiedMessage) : bool :=
  globalIdSeen st m || messageIdSeen st m || contentHashSeen st m || fuzzySeen st m.

Definition recordMessage (st : DedupState) (message : UnifiedMessage) : DedupState :=
  {| seenGlobalIds :=
       match globalMessageId message with
       | Some g => if JS.truthyNumber g then {[ g ]} ∪ seenGlobalIds st else seenGlobalIds st
       | None => seenGlobalIds st
       end;
     seenMessageIds :=
       match messageIdHeader message with
       | Some h => if JS.truthyString h then {[ h ]} ∪ seenMessageIds st else seenMessageIds st
       | None => seenMessageIds st
       end;
     seenContentHashes := {[ generateContentHash message ]} ∪ seenContentHashes st;
     fuzzyMatches := <[ generateFuzzyKey message := message ]> (fuzzyMatches st) |}.

(** *** deduplicate *)

(** [[...messages].sort((a, b) => b.date.getTime() - a.date.getTime())].
    [Array.prototype.sort] is stable, and the comparator is a total preorder
    on valid dates, so the result is the one stable arrangement by
    descending date; it is computed here by insertion. *)
Fixpoint insertByDate (m : UnifiedMessage) (l : list UnifiedMessage) : list UnifiedMessage :=
  match l with
  | [] => [m]
  | x :: l' => if date x <=? date m then m :: l else x :: insertByDate m l'
  end.

Fixpoint sortByDateDesc (messages : list UnifiedMessage) : list UnifiedMessage :=
  match messages with
  | [] => []
  | m :: rest => insertByDate m (sortByDateDesc rest)
  end.

Definition bumpSource (message : UnifiedMessage) (stats : DeduplicationStats)
    : DeduplicationStats :=
  {| totalMessages := totalMessages stats; uniqueMessages := uniqueMessages stats;
     duplicatesRemoved := duplicatesRemoved stats;
     bySource :=
       match source message with
       | MacMail => {| macMail := macMail (bySource stats) + 1; imap := imap (bySource stats) |}
       | Imap => {| macMail := macMail (bySource stats); imap := imap (bySource stats) + 1 |}
       end;
     deduplicationMethods := deduplicationMethods stats |}.

(** What the loop of [deduplicate] carries from one message to the next. *)
Record Scan := {
  scanUnique : list UnifiedMessage;
  scanState : DedupState;
  scanStats : DeduplicationStats
}.

(** One iteration of [for (const message of sortedMessages)]. *)
Definition scanStep (sc : Scan) (message : UnifiedMessage) : Scan :=
  let (isDup, stats) := isDuplicate (scanState sc) message (scanStats sc) in
  {| scanUnique := if isDup then scanUnique sc else scanUnique sc ++ [message];
     scanState := if isDup then scanState sc else recordMessage (scanState sc) message;
     scanStats := bumpSource message stats |}.

Definition initialStats (messages : list UnifiedMessage) : DeduplicationStats :=
  {| totalMessages := Z.of_nat (length messages);
     uniqueMessages := 0;
     duplicatesRemoved := 0;
     bySource := {| macMail := 0; imap := 0 |};
     deduplicationMethods :=
       {| Methods.globalMessageId := 0; Methods.messageIdHeader := 0;
          Methods.contentHash := 0; Methods.fuzzyMatch := 0 |} |}.

Module Result.
Record t := { uniqueMessages : list UnifiedMessage; stats : DeduplicationStats }.
End Result.

Definition deduplicate (messages : list UnifiedMessage) : Result.t :=
  let sortedMessages := sortByDateDesc messages in
  let sc := fold_left scanStep sortedMessages
              {| scanUnique := []; scanState := reset;
                 scanStats := initialStats messages |} in
  let stats := scanStats sc in
  let unique := Z.of_nat (length (scanUnique sc)) in
  {| Result.uniqueMessages := scanUnique sc;
     Result.stats :=
       {| totalMessages := totalMessages stats;
          uniqueMessages := unique;
          duplicatesRemoved := totalMessages stats - unique;
          bySource := bySource stats;
          deduplicationMethods := deduplicationMethods stats |} |}.

(** The messages the loop keeps when it scans [l] from the indexes [st]:
    the loop of [deduplicate] read as a recursive function (see
    [scan_unique] below). *)
Fixpoint retained (st : DedupState) (l : list UnifiedMessage) : list UnifiedMessage :=
  match l with
  | [] => []
  | m :: l' =>
    if firstMatch st m then retained st l'
    else m :: retained (recordMessage st m) l'
  end.

(** The indexes after the loop has scanned [l] from [st]. *)
Fixpoint stateAfter (st : DedupState) (l : list UnifiedMessage) : DedupState :=
  match l with
  | [] => st
  | m :: l' =>
    if firstMatch st m then stateAfter st l'
    else stateAfter (recordMessage st m) l'
  end.

(** The global-id counter while the loop runs. *)
Definition globalIdCount (sc : Scan) : Z :=
  Methods.globalMessageId (deduplicationMethods (scanStats sc)).

(** The header-id counter while the loop runs. *)
Definition messageIdCount (sc : Scan) : Z :=
  Methods.messageIdHeader (deduplicationMethods (scanStats sc)).

(** Newest first. *)
Definition descending (l : list UnifiedMessage) : Prop :=
  StronglySorted (fun a b => date b <= date a) l.

(** *** findPotentialDuplicates *)

(** [msg1.globalMessageId && msg2.globalMessageId &&
    msg1.globalMessageId === msg2.globalMessageId] *)
Definition sameGlobalId (msg1 msg2 : UnifiedMessage) : bool :=
  match globalMessageId msg1, globalMessageId msg2 with
  | Some g1, Some g2 => JS.truthyNumber g1 && JS.truthyNumber g2 && (g1 =? g2)
  | _, _ => false
  end.

(** [msg1.messageIdHeader && msg2.messageIdHeader &&
    msg1.messageIdHeader === msg2.messageIdHeader] *)
Definition sameMessageIdHeader (msg1 msg2 : UnifiedMessage) : bool :=
  match messageIdHeader msg1, messageIdHeader msg2 with
  | Some h1, Some h2 => JS.truthyString h1 && JS.truthyString h2 && String.eqb h1 h2
  | _, _ => false
  end.

Definition areRelated (msg1 msg2 : UnifiedMessage) : bool :=
  if sameGlobalId msg1 msg2 then true
  else if sameMessageIdHeader msg1 msg2 then true
  else isFuzzyMatch msg1 msg2.

(** The inner loop [for (const other of messages)] for one [message]. *)
Definition groupStep (message : UnifiedMessage)
    (acc : list UnifiedMessage * gset string) (other : UnifiedMessage)
    : list UnifiedMessage * gset string :=
  let (group, processed) := acc in
  if bool_decide (id other ∈ processed) || String.eqb (id message) (id other) then acc
  else if areRelated message other then (group ++ [other], {[ id other ]} ∪ processed)
  else acc.

(** The outer loop [for (const message of messages)]. *)
Definition groupsStep (messages : list UnifiedMessage)
    (acc : list (list UnifiedMessage) * gset string) (message : UnifiedMessage)
    : list (list UnifiedMessage) * gset string :=
  let (duplicateGroups, processed) := acc in
  if bool_decide (id message ∈ processed) then acc
  else
    let (group, processed') :=
      fold_left (groupStep message) messages ([message], {[ id message ]} ∪ processed) in
    if (1 <? Z.of_nat (length group)) then (duplicateGroups ++ [group], processed')
    else (duplicateGroups, processed').

(** A group as [findPotentialDuplicates] builds it: a first message of the
    input, followed by at least one other message of the input, each with
    another id and related to the first. *)
Definition relatedGroup (messages group : list UnifiedMessage) : Prop :=
  (2 <= length group)%nat
  ∧ exists seed others,
      group = seed :: others
      ∧ seed ∈ messages
      ∧ Forall (fun other => other ∈ messages ∧ id other ≠ id seed
                             ∧ areRelated seed other = true) others.

Module Groups.
Record t := { duplicateGroups : list (list UnifiedMessage); stats : DeduplicationStats }.
End Groups.

Definition findPotentialDuplicates (messages : list UnifiedMessage) : Groups.t :=
  let r := deduplicate messages in
  {| Groups.duplicateGroups := fst (fold_left (groupsStep messages) messages ([], ∅));
     Groups.stats := Result.stats r |}.

End Dedup.

(** ** The scenarios of the specification, run on the embedding *)

Module Scenario.
Import Dedup.

(** A message with only the fields a scenario names; the rest is fixed. *)
Definition msg (i : string) (gid : option Z) (mid : option string)
    (subj frm : string) (d : Z) : UnifiedMessage :=
  {| id := i; globalMessageId := gid; messageIdHeader := mid;
     subject := subj; from := frm; to := None; cc := None; date := d;
     isRead := false; isFlagged := false; hasAttachments := false;
     account := "work"; accountType := "IMAP"; mailbox := "INBOX";
     source := Imap; textContent := None; htmlContent := None;
     remoteId := None; conversationId := None |}.

(** 2024-01-15T10:00:00.000Z *)
Definition T : Z := 1705312800000.
Definition hour : Z := 3600000.
Definition minute : Z := 60000.

(** The two messages with global id 42, one hour apart. *)
Definition hiEarly : UnifiedMessage := msg "1" (Some 42) None "Hi" "a@x.com" T.
Definition hiLate : UnifiedMessage := msg "2" (Some 42) None "Hi" "a@x.com" (T + hour).

(** A third message with the content of [hiLate] and another global id, and
    an earlier message with global id 42 and another content. *)
Definition hiTwin : UnifiedMessage := msg "0" (Some 7) None "Hi" "a@x.com" (T + hour).
Definition lunchEarly : UnifiedMessage := msg "3" (Some 42) None "Lunch" "c@y.com" T.

(** A reply and its original, ten minutes apart, without identifiers; and
    the same with a longer subject. *)
Definition reBudget : UnifiedMessage := msg "a" None None "Re: Budget" "a@x.com" T.
Definition budget : UnifiedMessage :=
  msg "b" None None "Budget" "a@x.com" (T + 10 * minute).

(** Two messages whose subjects differ by a leading space only: the content
    hash trims the subject, the similarity does not. *)
Definition hiPlain : UnifiedMessage := msg "p" None None "hi" "a@x.com" T.
Definition hiSpaced : UnifiedMessage := msg "q" None None " hi" "a@x.com" T.

(** Two unrelated messages that both carry global id 0 and an empty
    Message-ID header. *)
Definition zeroA : UnifiedMessage := msg "z1" (Some 0) (Some "") "Hello" "a@x.com" T.
Definition zeroB : UnifiedMessage :=
  msg "z2" (Some 0) (Some "") "Minutes" "b@y.com" (T + hour).

End Scenario.

(* ===================================================================== *)
(** ** The mail cache (cache/database.ts) *)
(* ===================================================================== *)

Module Cache.

(** Cache TTLs, in milliseconds. *)
Definition FOLDER_TTL : Z := 60 * 60 * 1000.
Definition MESSAGE_LIST_TTL : Z := 5 * 60 * 1000.
Definition MESSAGE_CONTENT_TTL : Z := 24 * 60 * 60 * 1000.
Definition SEARCH_TTL : Z := 2 * 60 * 1000.

(** Modelled from the spec: the interfaces [MailFolder] and [MailMessage] are
    declared in mail/client, which is not among the sources; their fields are
    the ones [cacheFolders] and [cacheMessage] read and [getCachedFolders] and
    [getCachedMessage] build. An optional field is an [option]; the two dates
    are the texts stored in the TEXT columns. *)
Module MailFolder.
Record t := {
  name : string;
  accountName : string;
  messageCount : Z;
  unreadCount : Z
}.
End MailFolder.

Module MailMessage.
Record t := {
  id : string;
  subject : string;
  sender : string;
  senderName : option string;
  recipients : list string;
  dateSent : string;
  dateReceived : string;
  content : option string;
  snippet : option string;
  mailbox : string;
  accountName : string;
  isRead : bool;
  isFlagged : bool;
  hasAttachments : bool
}.
End MailMessage.

(** The rows of the four tables of [initializeTables]. A column that holds a
    JSON array of strings keeps the array: [JSON.parse] gives back what
    [JSON.stringify] was given. *)
Record FolderRow := {
  f_name : string;
  f_account_name : string;
  f_message_count : Z;
  f_unread_count : Z;
  f_cached_at : Z
}.

Record MessageRow := {
  m_id : string;
  m_subject : string;
  m_sender : string;
  m_sender_name : option string;
  m_recipients : list string;
  m_date_sent : string;
  m_date_received : string;
  m_content : option string;
  m_snippet : option string;
  m_mailbox : string;
  m_account_name : string;
  m_is_read : Z;
  m_is_flagged : Z;
  m_has_attachments : Z;
  m_cached_at : Z
}.

Record ListRow := {
  l_cache_key : string;
  l_message_ids : list string;
  l_total_count : Z;
  l_cached_at : Z
}.

Record SearchRow := {
  s_query : string;
  s_search_in : string;
  s_result_ids : list string;
  s_cached_at : Z
}.

(** The database: each table is a finite map from its primary key. *)
Record Tables := {
  folders : gmap (string * string) FolderRow;
  messages : gmap string MessageRow;
  message_lists : gmap string ListRow;
  search_cache : gmap (string * string) SearchRow
}.

Definition emptyTables : Tables :=
  {| folders := ∅; messages := ∅; message_lists := ∅; search_cache := ∅ |}.

(** [x || null] on an optional string. *)
Definition orNull (x : option string) : option string :=
  match x with
  | Some s => if JS.truthyString s then Some s else None
  | None => None
  end.

Definition flag (b : bool) : Z := if b then 1 else 0.

(** *** The prepared INSERT OR REPLACE statements *)

Definition insertFolder (row : FolderRow) (db : Tables) : Tables :=
  {| folders := <[ (f_name row, f_account_name row) := row ]> (folders db);
     messages := messages db; message_lists := message_lists db;
     search_cache := search_cache db |}.

Definition insertMessage (row : MessageRow) (db : Tables) : Tables :=
  {| folders := folders db;
     messages := <[ m_id row := row ]> (messages db);
     message_lists := message_lists db; search_cache := search_cache db |}.

Definition insertMessageList (row : ListRow) (db : Tables) : Tables :=
  {| folders := folders db; messages := messages db;
     message_lists := <[ l_cache_key row := row ]> (message_lists db);
     search_cache := search_cache db |}.

Definition insertSearchCache (row : SearchRow) (db : Tables) : Tables :=
  {| folders := folders db; messages := messages db;
     message_lists := message_lists db;
     search_cache := <[ (s_query row, s_search_in row) := row ]> (search_cache db) |}.

(** The row that [cacheFolders] binds for one folder, [now] being the
    [Date.now()] taken once before the loop. *)
Definition folderRow (now : Z) (folder : MailFolder.t) : FolderRow :=
  {| f_name := MailFolder.name folder;
     f_account_name := MailFolder.accountName folder;
     f_message_count := MailFolder.messageCount folder;
     f_unread_count := MailFolder.unreadCount folder;
     f_cached_at := now |}.

(** The row that [cacheMessage] binds, [now] being its [Date.now()]. *)
Definition messageRow (now : Z) (message : MailMessage.t) : MessageRow :=
  {| m_id := MailMessage.id message;
     m_subject := MailMessage.subject message;
     m_sender := MailMessage.sender message;
     m_sender_name := orNull (MailMessage.senderName message);
     m_recipients := MailMessage.recipients message;
     m_date_sent := MailMessage.dateSent message;
     m_date_received := MailMessage.dateReceived message;
     m_content := orNull (MailMessage.content message);
     m_snippet := orNull (MailMessage.snippet message);
     m_mailbox := MailMessage.mailbox message;
     m_account_name := MailMessage.accountName message;
     m_is_read := flag (MailMessage.isRead message);
     m_is_flagged := flag (MailMessage.isFlagged message);
     m_has_attachments := flag (MailMessage.hasAttachments message);
     m_cached_at := now |}.

(** *** Single writes (each statement commits on its own) *)

Definition cacheMessage (now : Z) (message : MailMessage.t) (db : Tables) : Tables :=
  insertMessage (messageRow now message) db.

Definition cacheMessageList (now : Z) (cacheKey : string) (messageIds : list string)
    (totalCount : Z) (db : Tables) : Tables :=
  insertMessageList
    {| l_cache_key := cacheKey; l_message_ids := messageIds;
       l_total_count := totalCount; l_cached_at := now |} db.

Definition cacheSearchResults (now : Z) (query searchIn : string)
    (messageIds : list string) (db : Tables) : Tables :=
  insertSearchCache
    {| s_query := query; s_search_in := searchIn;
       s_result_ids := messageIds; s_cached_at := now |} db.

(** *** Reads *)

Definition folderOfRow (row : FolderRow) : MailFolder.t :=
  {| MailFolder.name := f_name row;
     MailFolder.accountName := f_account_name row;
     MailFolder.messageCount := f_message_count row;
     MailFolder.unreadCount := f_unread_count row |}.

(** [SELECT * FROM folders WHERE cached_at > ?]; [null] when no row is
    fresh. The order of the rows is the table's. *)
Definition getCachedFolders (now : Z) (db : Tables) : option (list MailFolder.t) :=
  let minTime := now - FOLDER_TTL in
  let rows := filter (fun row => minTime < f_cached_at row)
                     (snd <$> map_to_list (folders db)) in
  match rows with
  | [] => None
  | _ => Some (folderOfRow <$> rows)
  end.

Definition messageOfRow (includeContent : bool) (row : MessageRow) : MailMessage.t :=
  {| MailMessage.id := m_id row;
     MailMessage.subject := m_subject row;
     MailMessage.sender := m_sender row;
     MailMessage.senderName := m_sender_name row;
     MailMessage.recipients := m_recipients row;
     MailMessage.dateSent := m_date_sent row;
     MailMessage.dateReceived := m_date_received row;
     MailMessage.content := if includeContent then m_content row else None;
     MailMessage.snippet := m_snippet row;
     MailMessage.mailbox := m_mailbox row;
     MailMessage.accountName := m_account_name row;
     MailMessage.isRead := m_is_read row =? 1;
     MailMessage.isFlagged := m_is_flagged row =? 1;
     MailMessage.hasAttachments := m_has_attachments row =? 1 |}.

(** [SELECT * FROM messages WHERE id = ? AND cached_at > ?] *)
Definition getCachedMessage (now : Z) (id : string) (includeContent : bool)
    (db : Tables) : option MailMessage.t :=
  let ttl := if includeContent then MESSAGE_CONTENT_TTL else MESSAGE_LIST_TTL in
  let minTime := now - ttl in
  match messages db !! id with
  | Some row =>
    if minTime <? m_cached_at row then Some (messageOfRow includeContent row) else None
  | None => None
  end.

(** [SELECT * FROM message_lists WHERE cache_key = ? AND cached_at > ?] *)
Definition getCachedMessageList (now : Z) (cacheKey : string) (db : Tables)
    : option (list string * Z) :=
  let minTime := now - MESSAGE_LIST_TTL in
  match message_lists db !! cacheKey with
  | Some row =>
    if minTime <? l_cached_at row then Some (l_message_ids row, l_total_count row)
    else None
  | None => None
  end.

(** [SELECT result_ids FROM search_cache WHERE query = ? AND search_in = ?
    AND cached_at > ?] *)
Definition getCachedSearchResults (now : Z) (query searchIn : string) (db : Tables)
    : option (list string) :=
  let minTime := now - SEARCH_TTL in
  match search_cache db !! (query, searchIn) with
  | Some row => if minTime <? s_cached_at row then Some (s_result_ids row) else None
  | None => None
  end.

(** *** cleanup *)

(** The four [DELETE FROM t WHERE cached_at < oneDayAgo]; VACUUM changes no
    row. *)
Definition cleanup (now : Z) (db : Tables) : Tables :=
  let oneDayAgo := now - 24 * 60 * 60 * 1000 in
  {| folders := filter (fun kv => ¬ f_cached_at (snd kv) < oneDayAgo) (folders db);
     messages := filter (fun kv => ¬ m_cached_at (snd kv) < oneDayAgo) (messages db);
     message_lists :=
       filter (fun kv => ¬ l_cached_at (snd kv) < oneDayAgo) (message_lists db);
     search_cache :=
       filter (fun kv => ¬ s_cached_at (snd kv) < oneDayAgo) (search_cache db) |}.

(** *** Batch writes: [db.transaction]

    A connection holds the committed tables, which every reader of the
    database file sees, and, while a transaction is open, the tables as the
    transaction has changed them so far, which only the writing connection
    sees. [db.transaction(fn)] of better-sqlite3 runs BEGIN, then [fn], then
    COMMIT, and runs ROLLBACK and throws again when [fn] or COMMIT throws. *)

Record Conn := {
  committed : Tables;
  pending : option Tables
}.

Inductive Outcome := Returned | Thrown.

Definition idle (db : Tables) : Conn := {| committed := db; pending := None |}.

Definition begin (c : Conn) : Conn :=
  {| committed := committed c; pending := Some (committed c) |}.

Definition commit (c : Conn) : Conn :=
  match pending c with
  | Some w => idle w
  | None => c
  end.

Definition rollback (c : Conn) : Conn := idle (committed c).

(** A statement that changes the tables by [f]: inside a transaction it
    changes the pending tables, outside it commits at once. *)
Definition run (f : Tables -> Tables) (c : Conn) : Conn :=
  match pending c with
  | Some w => {| committed := committed c; pending := Some (f w) |}
  | None => idle (f (committed c))
  end.

(** The result of a call: how it ended, the connection it leaves, and the
    connection after each statement it ran, in order. *)
Record Run := {
  outcome : Outcome;
  final : Conn;
  trace : list Conn
}.

Section Faults.

(** Which statements of a call throw: [fault k] for the [k]-th INSERT of the
    batch (storage full, I/O error, a value that cannot be bound), and
    [commitFault] for COMMIT. *)
Variable fault : nat -> bool.
Variable commitFault : bool.

(** [for (const row of rows) statement.run(row)], from the [k]-th row on. *)
Fixpoint insertAll {R : Type} (ins : R -> Tables -> Tables) (k : nat)
    (rows : list R) (c : Conn) : Run :=
  match rows with
  | [] => {| outcome := Returned; final := c; trace := [] |}
  | row :: rest =>
    if fault k then {| outcome := Thrown; final := c; trace := [] |}
    else
      let c' := run (ins row) c in
      let r := insertAll ins (S k) rest c' in
      {| outcome := outcome r; final := final r; trace := c' :: trace r |}
  end.

(** [db.transaction(fn)(arg)] on an idle connection. *)
Definition transaction (fn : Conn -> Run) (db : Tables) : Run :=
  let c1 := begin (idle db) in
  let r := fn c1 in
  match outcome r with
  | Returned =>
    if commitFault
    then {| outcome := Thrown; final := rollback (final r);
            trace := c1 :: trace r ++ [rollback (final r)] |}
    else {| outcome := Returned; final := commit (final r);
            trace := c1 :: trace r ++ [commit (final r)] |}
  | Thrown =>
    {| outcome := Thrown; final := rollback (final r);
       trace := c1 :: trace r ++ [rollback (final r)] |}
  end.

(** [cacheFolders(folders)]: one [Date.now()] for the whole batch. *)
Definition cacheFolders (now : Z) (folders : list MailFolder.t) (db : Tables) : Run :=
  transaction (insertAll insertFolder 0 (folderRow now <$> folders)) db.

(** [cacheMessages(messages)]: [cacheMessage] takes its own [Date.now()] for
    every message; [clock k] is the one of the [k]-th message. *)
Definition stampedRows (clock : nat -> Z) (messages : list MailMessage.t) : list MessageRow :=
  (fun km => messageRow (clock (fst km)) (snd km)) <$> imap pair messages.

Definition cacheMessages (clock : nat -> Z) (messages : list MailMessage.t)
    (db : Tables) : Run :=
  transaction (insertAll insertMessage 0 (stampedRows clock messages)) db.

End Faults.

(** A message and a folder to run the cache on. *)
Definition sampleMessage : MailMessage.t :=
  {| MailMessage.id := "m1"; MailMessage.subject := "Hi";
     MailMessage.sender := "a@x.com"; MailMessage.senderName := Some "Ann";
     MailMessage.recipients := ["b@y.com"];
     MailMessage.dateSent := "2024-01-15T10:00:00.000Z";
     MailMessage.dateReceived := "2024-01-15T10:00:05.000Z";
     MailMessage.content := Some "Hello"; MailMessage.snippet := None;
     MailMessage.mailbox := "INBOX"; MailMessage.accountName := "work";
     MailMessage.isRead := true; MailMessage.isFlagged := false;
     MailMessage.hasAttachments := false |}.

Definition sampleFolder : MailFolder.t :=
  {| MailFolder.name := "INBOX"; MailFolder.accountName := "work";
     MailFolder.messageCount := 12; MailFolder.unreadCount := 3 |}.

(** The tables once every row of a batch has been written. *)
Definition allWritten {R : Type} (ins : R -> Tables -> Tables) (rows : list R)
    (db : Tables) : Tables :=
  fold_left (fun d row => ins row d) rows db.

End Cache.

(* ===================================================================== *)
(** ** The security manager of the mail server (SecurityManager) *)
(* ===================================================================== *)

Module Security.

(** *** sanitizeFolderName *)

(** [.replace(/\.\./g, '')]: from left to right, every two dots in a row are
    removed; the search goes on after the two dots. *)
Fixpoint removeDotDot (l : list ascii) : list ascii :=
  match l with
  | [] => []
  | c :: l' =>
    match l' with
    | c' :: rest =>
      if Ascii.eqb c "."%char && Ascii.eqb c' "."%char
      then removeDotDot rest
      else c :: removeDotDot l'
    | [] => [c]
    end
  end.

(** The replacement of [.replace(/[\/\\]/g, '_')] for one character
    (92 is the backslash). *)
Definition replaceSlash (c : ascii) : ascii :=
  if Ascii.eqb c "/"%char || Ascii.eqb c "092"%char then "_"%char else c.

Definition sanitizeFolderName (folderName : string) : string :=
  JS.str (map replaceSlash (removeDotDot (JS.chars folderName))).

(** *** validateEmailAddress *)

(** The class [[^\s@]]. *)
Definition addressChar (c : ascii) : bool :=
  negb (JS.isSpace c) && negb (Ascii.eqb c "@"%char).

(** The longest prefix of characters of the class, and what follows it. *)
Fixpoint spanAddressChars (l : list ascii) : list ascii * list ascii :=
  match l with
  | c :: l' =>
    if addressChar c
    then let (word, rest) := spanAddressChars l' in (c :: word, rest)
    else ([], l)
  | [] => ([], [])
  end.

(** [[^\s@]+\.[^\s@]+$] on what follows the [@]: characters of the class
    only, with a dot that is neither the first nor the last of them. *)
Definition domainMatches (l : list ascii) : bool :=
  forallb addressChar l
  && existsb (fun c => Ascii.eqb c "."%char) (removelast (tail l)).

(** [/^[^\s@]+@[^\s@]+\.[^\s@]+$/.test(email)]: the first part of the
    pattern cannot go over an [@], so it ends at the first one. *)
Definition validateEmailAddress (email : string) : bool :=
  let (local, rest) := spanAddressChars (JS.chars email) in
  match local, rest with
  | _ :: _, at_ :: domain => Ascii.eqb at_ "@"%char && domainMatches domain
  | _, _ => false
  end.

(** *** checkRateLimit *)

(** One entry of the static map [requestCounts]. *)
Record Counter := { count : Z; resetTime : Z }.

Inductive Verdict :=
  | Allowed
  | RateLimitExceeded (waitTime : Z).

(** [Math.ceil(x / 1000)] of an integer. *)
Definition ceilSeconds (x : Z) : Z := - ((- x) / 1000).

(** [checkRateLimit(operation, maxRequests, windowMs)] called at time [now]
    ([Date.now()]) with the map [requestCounts]: whether it returns or
    throws, and the map afterwards. *)
Definition checkRateLimit (operation : string) (maxRequests windowMs now : Z)
    (requestCounts : gmap string Counter) : Verdict * gmap string Counter :=
  match requestCounts !! operation with
  | None =>
    (Allowed, <[ operation := {| count := 1; resetTime := now + windowMs |} ]> requestCounts)
  | Some current =>
    if resetTime current <? now then
      (Allowed,
       <[ operation := {| count := 1; resetTime := now + windowMs |} ]> requestCounts)
    else if maxRequests <=? count current then
      (RateLimitExceeded (ceilSeconds (resetTime current - now)), requestCounts)
    else
      (Allowed,
       <[ operation := {| count := count current + 1;
                          resetTime := resetTime current |} ]> requestCounts)
  end.

(** The same operation checked at each of the times [times], one call after
    the other: the verdicts, and the map after the last call. *)
Fixpoint checkAll (operation : string) (maxRequests windowMs : Z) (times : list Z)
    (requestCounts : gmap string Counter) : list Verdict * gmap string Counter :=
  match times with
  | [] => ([], requestCounts)
  | now :: later =>
    let (v, rc) := checkRateLimit operation maxRequests windowMs now requestCounts in
    let (vs, rc') := checkAll operation maxRequests windowMs later rc in
    (v :: vs, rc')
  end.

Definition isAllowed (v : Verdict) : bool :=
  match v with Allowed => true | RateLimitExceeded _ => false end.

(** Whether two dots in a row occur in [l]. *)
Fixpoint hasDotDot (l : list ascii) : bool :=
  match l with
  | [] => false
  | c :: l' =>
    match l' with
    | c' :: _ => (Ascii.eqb c "."%char && Ascii.eqb c' "."%char) || hasDotDot l'
    | [] => false
    end
  end.

End Security.

(* ===================================================================== *)
(** ** The hybrid client (mail/hybrid-email-client.ts) *)
(* ===================================================================== *)

Module Hybrid.
Import Dedup.

(** [interface MacMailMessage] (mail/mac-mail-db.ts); the dates in
    milliseconds. *)
Module MacMailMessage.
Record t := {
  messageId : Z;
  globalMessageId : Z;
  subject : string;
  sender : string;
  dateReceived : Z;
  dateSent : Z;
  isRead : bool;
  isFlagged : bool;
  hasAttachments : bool;
  mailboxName : string;
  accountName : string;
  accountType : string;
  emlxPath : option string;
  messageIdHeader : option string;
  conversationId : option Z;
  remoteId : option string
}.
End MacMailMessage.

(** What [addMessageContent] reads of an [EmlxMessage]. *)
Module EmlxMessage.
Record t := {
  to : list string;
  cc : option (list string);
  textContent : option string;
  htmlContent : option string
}.
End EmlxMessage.

(** [interface HybridQueryOptions]: every field is optional. *)
Module HybridQueryOptions.
Record t := {
  daysBack : option Z;
  limit : option Z;
  includeContent : option bool;
  accounts : option (list string);
  mailboxes : option (list string);
  unreadOnly : option bool;
  flaggedOnly : option bool
}.
End HybridQueryOptions.

(** [MessageDeduplicator.fromMacMail(message)]; the id is
    [`mac-mail-${message.messageId}`]. *)
Definition fromMacMail (message : MacMailMessage.t) : UnifiedMessage :=
  {| id := String.append "mac-mail-" (pretty (MacMailMessage.messageId message));
     globalMessageId := Some (MacMailMessage.globalMessageId message);
     messageIdHeader := MacMailMessage.messageIdHeader message;
     subject := MacMailMessage.subject message;
     from := MacMailMessage.sender message;
     to := None;
     cc := None;
     date := MacMailMessage.dateReceived message;
     isRead := MacMailMessage.isRead message;
     isFlagged := MacMailMessage.isFlagged message;
     hasAttachments := MacMailMessage.hasAttachments message;
     account := MacMailMessage.accountName message;
     accountType := MacMailMessage.accountType message;
     mailbox := MacMailMessage.mailboxName message;
     source := MacMail;
     textContent := None;
     htmlContent := None;
     remoteId := MacMailMessage.remoteId message;
     conversationId := MacMailMessage.conversationId message |}.

(** [text.includes(term)] *)
Fixpoint includesChars (text term : list ascii) : bool :=
  match stripPrefix term text with
  | Some _ => true
  | None =>
    match text with
    | [] => false
    | _ :: text' => includesChars text' term
    end
  end.

Definition includes (text term : string) : bool :=
  includesChars (JS.chars text) (JS.chars term).

(** [array.slice(0, limit)]: a negative [limit] counts from the end. *)
Definition slice0 {A : Type} (limit : Z) (l : list A) : list A :=
  if limit <? 0 then take (Z.to_nat (Z.of_nat (length l) + limit)) l
  else take (Z.to_nat limit) l.

(** [{ ...options, includeContent: b }] *)
Definition withIncludeContent (options : HybridQueryOptions.t) (b : bool)
    : HybridQueryOptions.t :=
  {| HybridQueryOptions.daysBack := HybridQueryOptions.daysBack options;
     HybridQueryOptions.limit := HybridQueryOptions.limit options;
     HybridQueryOptions.includeContent := Some b;
     HybridQueryOptions.accounts := HybridQueryOptions.accounts options;
     HybridQueryOptions.mailboxes := HybridQueryOptions.mailboxes options;
     HybridQueryOptions.unreadOnly := HybridQueryOptions.unreadOnly options;
     HybridQueryOptions.flaggedOnly := HybridQueryOptions.flaggedOnly options |}.

(** The defaults of the destructuring in [getMessages]. *)
Definition daysBackOf (options : HybridQueryOptions.t) : Z :=
  default 2 (HybridQueryOptions.daysBack options).
Definition limitOf (options : HybridQueryOptions.t) : Z :=
  default 1000 (HybridQueryOptions.limit options).
Definition includeContentOf (options : HybridQueryOptions.t) : bool :=
  default false (HybridQueryOptions.includeContent options).
Definition accountsOf (options : HybridQueryOptions.t) : list string :=
  default [] (HybridQueryOptions.accounts options).
Definition unreadOnlyOf (options : HybridQueryOptions.t) : bool :=
  default false (HybridQueryOptions.unreadOnly options).
Definition flaggedOnlyOf (options : HybridQueryOptions.t) : bool :=
  default false (HybridQueryOptions.flaggedOnly options).

(** The three [continue] tests of the loop over the Mac Mail messages. *)
Definition skipped (options : HybridQueryOptions.t) (unifiedMessage : UnifiedMessage)
    : bool :=
  if unreadOnlyOf options && isRead unifiedMessage then true
  else if flaggedOnlyOf options && negb (isFlagged unifiedMessage) then true
  else (0 <? Z.of_nat (length (accountsOf options)))
       && negb (existsb (fun acc => includes (account unifiedMessage) acc)
                        (accountsOf options)).

(** [stats: HybridEmailStats] as [getStatistics] first builds it; [byAccount]
    and [topSenders], which are filled afterwards from the same messages and
    change no other field, are left out. *)
Module HybridEmailStats.
Record t := {
  totalMessages : Z;
  uniqueMessages : Z;
  unreadMessages : Z;
  flaggedMessages : Z;
  bySource : BySource;
  deduplicationStats : DeduplicationStats
}.
End HybridEmailStats.

(** [query.toLowerCase().split(/\s+/)] on the characters: [cur] is the part
    being read, [None] inside a run of white space. A run at the start or at
    the end of the string gives an empty part. *)
Fixpoint splitSpaces (cur : option (list ascii)) (l : list ascii) : list (list ascii) :=
  match l with
  | [] => [default [] cur]
  | c :: rest =>
    if JS.isSpace c then
      match cur with
      | Some part => part :: splitSpaces None rest
      | None => splitSpaces None rest
      end
    else splitSpaces (Some (default [] cur ++ [c])) rest
  end.

Definition searchTerms (query : string) : list (list ascii) :=
  splitSpaces (Some []) (JS.chars (JS.toLowerCase query)).

(** [[subject, from, textContent, htmlContent].join(' ').toLowerCase()];
    [join] writes an undefined element as the empty string. *)
Definition searchableText (message : UnifiedMessage) : list ascii :=
  JS.chars (JS.toLowerCase
    (JS.join " " [subject message; from message;
                  default EmptyString (textContent message);
                  default EmptyString (htmlContent message)])).

(** [searchTerms.every(term => searchableText.includes(term))] *)
Definition matchesTerms (terms : list (list ascii)) (message : UnifiedMessage) : bool :=
  forallb (includesChars (searchableText message)) terms.

Section Sources.

(** What the client reads from outside: [macMailDb.getRecentMessages(daysBack,
    limit)], [None] when it throws, and the EMLX file of a message, found from
    its mailbox name and message id (the account UUID is a constant of
    [extractAccountUuid]), [None] when the file is missing or cannot be
    parsed. *)
Variable getRecentMessages : Z -> Z -> option (list MacMailMessage.t).
Variable emlx : string -> Z -> option EmlxMessage.t.

(** [addMessageContent(unifiedMessage, macMessage)] *)
Definition addMessageContent (unifiedMessage : UnifiedMessage)
    (macMessage : MacMailMessage.t) : UnifiedMessage :=
  match emlx (MacMailMessage.mailboxName macMessage)
             (MacMailMessage.messageId macMessage) with
  | Some emlxMessage =>
    {| id := id unifiedMessage;
       globalMessageId := globalMessageId unifiedMessage;
       messageIdHeader := messageIdHeader unifiedMessage;
       subject := subject unifiedMessage;
       from := from unifiedMessage;
       to := Some (EmlxMessage.to emlxMessage);
       cc := EmlxMessage.cc emlxMessage;
       date := date unifiedMessage;
       isRead := isRead unifiedMessage;
       isFlagged := isFlagged unifiedMessage;
       hasAttachments := hasAttachments unifiedMessage;
       account := account unifiedMessage;
       accountType := accountType unifiedMessage;
       mailbox := mailbox unifiedMessage;
       source := source unifiedMessage;
       textContent := EmlxMessage.textContent emlxMessage;
       htmlContent := EmlxMessage.htmlContent emlxMessage;
       remoteId := remoteId unifiedMessage;
       conversationId := conversationId unifiedMessage |}
  | None => unifiedMessage
  end.

(** One iteration of [for (const macMessage of macMessages)]: what it pushes
    on [allMessages]. *)
Definition macStep (options : HybridQueryOptions.t) (macMessage : MacMailMessage.t)
    : list UnifiedMessage :=
  let unifiedMessage := fromMacMail macMessage in
  if skipped options unifiedMessage then []
  else if includeContentOf options then [addMessageContent unifiedMessage macMessage]
  else [unifiedMessage].

(** [allMessages] after the two steps of [getMessages]. The second step adds
    nothing: [getImapMessages] returns the empty array. *)
Definition allMessages (options : HybridQueryOptions.t) : list UnifiedMessage :=
  match getRecentMessages (daysBackOf options) (limitOf options) with
  | Some macMessages => flat_map (macStep options) macMessages
  | None => []
  end.

Definition getMessages (options : HybridQueryOptions.t) : list UnifiedMessage :=
  let uniqueMessages := Result.uniqueMessages (deduplicate (allMessages options)) in
  slice0 (limitOf options) (sortByDateDesc uniqueMessages).

Definition getStatistics (options : HybridQueryOptions.t) : HybridEmailStats.t :=
  let messages := getMessages (withIncludeContent options false) in
  let deduplicationStats := Result.stats (deduplicate messages) in
  {| HybridEmailStats.totalMessages := Z.of_nat (length messages);
     HybridEmailStats.uniqueMessages := Z.of_nat (length messages);
     HybridEmailStats.unreadMessages :=
       Z.of_nat (length (List.filter (fun m => negb (isRead m)) messages));
     HybridEmailStats.flaggedMessages :=
       Z.of_nat (length (List.filter (fun m => isFlagged m) messages));
     HybridEmailStats.bySource :=
       {| macMail :=
            Z.of_nat (length (List.filter
                                (fun m => match source m with
                                          | MacMail => true | Imap => false end)
                                messages));
          imap :=
            Z.of_nat (length (List.filter
                                (fun m => match source m with
                                          | Imap => true | MacMail => false end)
                                messages)) |};
     HybridEmailStats.deduplicationStats := deduplicationStats |}.

Definition searchMessages (query : string) (options : HybridQueryOptions.t)
    : list UnifiedMessage :=
  let messages := getMessages (withIncludeContent options true) in
  List.filter (matchesTerms (searchTerms query)) messages.

(** [findDuplicates(options)] *)
Definition findDuplicates (options : HybridQueryOptions.t) : Groups.t :=
  findPotentialDuplicates (getMessages options).

End Sources.

(** *** mail/mac-mail-db.ts *)

(** [url.split('/')] on the characters, [cur] being the part that is read. *)
Fixpoint splitSlash (cur l : list ascii) : list (list ascii) :=
  match l with
  | [] => [cur]
  | c :: rest =>
    if Ascii.eqb c "/" then cur :: splitSlash [] rest
    else splitSlash (cur ++ [c]) rest
  end.

(** [parts[parts.length - 1] || 'Unknown'] *)
Definition extractMailboxNameFromUrl (url : string) : string :=
  let parts := splitSlash [] (JS.chars url) in
  let name := JS.str (List.last parts []) in
  if JS.truthyString name then name else "Unknown".

End Hybrid.

(** Notions used to state properties of the hybrid client. *)
Module HybridSpec.
Import Dedup Hybrid.

(** What a message that passed the three tests of the loop of [getMessages]
    looks like. *)
Definition passedFilters (options : HybridQueryOptions.t) (m : UnifiedMessage) : Prop :=
  source m = MacMail
  ∧ (unreadOnlyOf options = true -> isRead m = false)
  ∧ (flaggedOnlyOf options = true -> isFlagged m = true)
  ∧ (accountsOf options ≠ [] ->
     exists acc, acc ∈ accountsOf options ∧ includes (account m) acc = true)
  ∧ (includeContentOf options = false ->
     textContent m = None ∧ htmlContent m = None ∧ to m = None ∧ cc m = None).

(** A mailbox and options to run the client on. *)
Definition sampleMac (n : Z) (subject : string) : MacMailMessage.t :=
  {| MacMailMessage.messageId := n;
     MacMailMessage.globalMessageId := n;
     MacMailMessage.subject := subject;
     MacMailMessage.sender := "a@x.com";
     MacMailMessage.dateReceived := 1705312800000 + n;
     MacMailMessage.dateSent := 1705312800000 + n;
     MacMailMessage.isRead := false;
     MacMailMessage.isFlagged := false;
     MacMailMessage.hasAttachments := false;
     MacMailMessage.mailboxName := "INBOX";
     MacMailMessage.accountName := "work";
     MacMailMessage.accountType := "IMAP";
     MacMailMessage.emlxPath := None;
     MacMailMessage.messageIdHeader := None;
     MacMailMessage.conversationId := None;
     MacMailMessage.remoteId := None |}.

Definition noOptions : HybridQueryOptions.t :=
  {| HybridQueryOptions.daysBack := None;
     HybridQueryOptions.limit := None;
     HybridQueryOptions.includeContent := None;
     HybridQueryOptions.accounts := None;
     HybridQueryOptions.mailboxes := None;
     HybridQueryOptions.unreadOnly := None;
     HybridQueryOptions.flaggedOnly := None |}.

End HybridSpec.

(* ===================================================================== *)
(** ** Notions used to state further properties *)
(* ===================================================================== *)

Module DedupSpec.
Import Dedup.

(** [message.source === 'mac-mail'] *)
Definition isMacMail (m : UnifiedMessage) : bool :=
  match source m with MacMail => true | Imap => false end.

(** The kept message [r] accounts for dropping [m]: one of the four tests of
    [isDuplicate] relates the two. *)
Definition accountsFor (r m : UnifiedMessage) : Prop :=
  (exists g, globalMessageId m = Some g ∧ globalMessageId r = Some g ∧ g ≠ 0)
  ∨ (exists h, messageIdHeader m = Some h ∧ messageIdHeader r = Some h
               ∧ h ≠ EmptyString)
  ∨ generateContentHash m = generateContentHash r
  ∨ (generateFuzzyKey m = generateFuzzyKey r ∧ isFuzzyMatch m r = true).

(** Every entry of the four indexes comes from a message of [kept]. *)
Definition backedBy (st : DedupState) (kept : list UnifiedMessage) : Prop :=
  (forall g, g ∈ seenGlobalIds st ->
     g ≠ 0 ∧ exists r, r ∈ kept ∧ globalMessageId r = Some g)
  ∧ (forall h, h ∈ seenMessageIds st ->
       h ≠ EmptyString ∧ exists r, r ∈ kept ∧ messageIdHeader r = Some h)
  ∧ (forall x, x ∈ seenContentHashes st ->
       exists r, r ∈ kept ∧ generateContentHash r = x)
  ∧ (forall k r, fuzzyMatches st !! k = Some r ->
       r ∈ kept ∧ generateFuzzyKey r = k).

(** What holds of the outer loop of [findPotentialDuplicates] once it has
    visited the messages [done]: the processed ids are ids of visited or
    grouped messages, the groups are made of input messages, every visited
    message is processed, and of a visited message and a message related to
    it, one is in a group. *)
Definition groupingInv (messages done : list UnifiedMessage)
    (groups : list (list UnifiedMessage)) (processed : gset string) : Prop :=
  (forall i, i ∈ processed ->
     (exists x, x ∈ done ∧ id x = i) ∨ (exists x, x ∈ concat groups ∧ id x = i))
  ∧ (forall x, x ∈ concat groups -> x ∈ messages)
  ∧ (forall s y, s ∈ done -> y ∈ messages -> id y ≠ id s ->
       areRelated s y = true -> s ∈ concat groups ∨ y ∈ concat groups)
  ∧ (forall x, x ∈ done -> id x ∈ processed).

(** The polynomial [c0 * 31^(n-1) + ... + c(n-1)] of the character codes. *)
Definition polyHash (l : list ascii) : Z :=
  fold_left (fun h c => h * 31 + JS.charCode c) l 0.

#[global] Instance Source_eq_dec : EqDecision Source.
Proof. solve_decision. Defined.

#[global] Instance UnifiedMessage_eq_dec : EqDecision UnifiedMessage.
Proof. solve_decision. Defined.

(** The groups in words, for an input with pairwise different ids: going
    through the input in order, a message that is in no group yet opens a
    group, made of itself followed by all the messages of the input, in input
    order, that are in no group yet and are related to it; the group is kept
    when it has at least two messages. [groups] are the groups kept so far,
    [todo] the messages still to visit. *)
Fixpoint groupsFrom (messages todo : list UnifiedMessage)
    (groups : list (list UnifiedMessage)) : list (list UnifiedMessage) :=
  match todo with
  | [] => groups
  | seed :: rest =>
    if decide (seed ∈ concat groups) then groupsFrom messages rest groups
    else
      match filter (fun other => (other ∉ concat groups) ∧ other ≠ seed
                                 ∧ areRelated seed other = true) messages with
      | [] => groupsFrom messages rest groups
      | others => groupsFrom messages rest (groups ++ [seed :: others])
      end
  end.

Definition groupsByRelation (messages : list UnifiedMessage)
    : list (list UnifiedMessage) :=
  groupsFrom messages messages [].

(** Three messages with the same global id, two of them with the same id. *)
Definition alpha : UnifiedMessage :=
  Scenario.msg "0" (Some 42) None "Alpha" "a@x.com" Scenario.T.
Definition gamma : UnifiedMessage :=
  Scenario.msg "0" (Some 42) None "Gamma" "c@z.com" Scenario.T.
Definition beta : UnifiedMessage :=
  Scenario.msg "1" (Some 42) None "Beta" "b@y.com" Scenario.T.

End DedupSpec.

(** ** The primitives on known values *)

Example toISOString_epoch : JS.toISOString 0 = "1970-01-01T00:00:00.000Z"%string.
Proof. reflexivity. Qed.

Example toISOString_2024 :
  JS.toISOString 1705314645123 = "2024-01-15T10:30:45.123Z"%string.
Proof. reflexivity. Qed.

Example toISOString_before_epoch :
  JS.toISOString (-1) = "1969-12-31T23:59:59.999Z"%string.
Proof. reflexivity. Qed.

Example normalizeSender_display_name :
  Dedup.normalizeSender "Bob Smith <Bob.Smith@X.com>" = "bobsmith"%string.
Proof. reflexivity. Qed.

Example normalizeSender_bare_address :
  Dedup.normalizeSender " A@X.com " = "a@x.com"%string.
Proof. reflexivity. Qed.

Example normalizeSubject_reply :
  Dedup.normalizeSubject "RE:   Budget  2024 " = "budget 2024"%string.
Proof. reflexivity. Qed.

Example normalizeSubject_one_prefix_only :
  Dedup.normalizeSubject "Fwd: Re: Budget" = "re: budget"%string.
Proof. reflexivity. Qed.

Example generateFuzzyKey_reBudget :
  Dedup.generateFuzzyKey Scenario.reBudget = "budget|a@x.com|2024-01-15T10"%string.
Proof. reflexivity. Qed.

Example hashString_content :
  Dedup.hashString "hi|a@x.com|2024-01-15T10:00|work" = 1070204664.
Proof. reflexivity. Qed.

Example generateContentHash_hiPlain :
  Dedup.generateContentHash Scenario.hiPlain = "1070204664"%string.
Proof. vm_compute. reflexivity. Qed.

Example levMatrix_kitten_sitting :
  Dedup.matrixAt (Dedup.levMatrix (JS.chars "kitten") (JS.chars "sitting")) 7 6 = 3.
Proof. reflexivity. Qed.

(* ===================================================================== *)
(** ** Properties of the deduplicator *)
(* ===================================================================== *)

Module DedupFacts.
Import Dedup.

(** *** The answer of [isDuplicate] and what it does to the counters *)

Lemma isDuplicate_fst st m stats : fst (isDuplicate st m stats) = firstMatch st m.
Proof.
  unfold isDuplicate, firstMatch.
  destruct (globalIdSeen st m), (messageIdSeen st m), (contentHashSeen st m),
    (fuzzySeen st m); reflexivity.
Qed.

Lemma isDuplicate_counters st m stats :
  let stats' := snd (isDuplicate st m stats) in
  let old := deduplicationMethods stats in
  let new := deduplicationMethods stats' in
  Methods.globalMessageId new =
    Methods.globalMessageId old + (if globalIdSeen st m then 1 else 0)
  ∧ Methods.messageIdHeader new =
    Methods.messageIdHeader old
      + (if negb (globalIdSeen st m) && messageIdSeen st m then 1 else 0)
  ∧ Methods.contentHash new =
    Methods.contentHash old
      + (if negb (globalIdSeen st m) && negb (messageIdSeen st m)
            && contentHashSeen st m then 1 else 0)
  ∧ Methods.fuzzyMatch new =
    Methods.fuzzyMatch old
      + (if negb (globalIdSeen st m) && negb (messageIdSeen st m)
            && negb (contentHashSeen st m) && fuzzySeen st m then 1 else 0)
  ∧ totalMessages stats' = totalMessages stats
  ∧ bySource stats' = bySource stats.
Proof.
  unfold isDuplicate.
  destruct (globalIdSeen st m), (messageIdSeen st m), (contentHashSeen st m),
    (fuzzySeen st m); cbn; repeat split; lia.
Qed.

Lemma isDuplicate_total st m stats :
  Methods.total (deduplicationMethods (snd (isDuplicate st m stats))) =
  Methods.total (deduplicationMethods stats) + (if firstMatch st m then 1 else 0).
Proof.
  unfold isDuplicate, firstMatch, Methods.total.
  destruct (globalIdSeen st m), (messageIdSeen st m), (contentHashSeen st m),
    (fuzzySeen st m); cbn; lia.
Qed.

(** *** The loop, one message at a time *)

Lemma scanStep_unique sc m :
  scanUnique (scanStep sc m) =
  if firstMatch (scanState sc) m then scanUnique sc else scanUnique sc ++ [m].
Proof.
  unfold scanStep. rewrite <- (isDuplicate_fst _ _ (scanStats sc)).
  destruct (isDuplicate (scanState sc) m (scanStats sc)); reflexivity.
Qed.

Lemma scanStep_state sc m :
  scanState (scanStep sc m) =
  if firstMatch (scanState sc) m then scanState sc else recordMessage (scanState sc) m.
Proof.
  unfold scanStep. rewrite <- (isDuplicate_fst _ _ (scanStats sc)).
  destruct (isDuplicate (scanState sc) m (scanStats sc)); reflexivity.
Qed.

Lemma scanStep_stats sc m :
  scanStats (scanStep sc m) =
  bumpSource m (snd (isDuplicate (scanState sc) m (scanStats sc))).
Proof.
  unfold scanStep.
  destruct (isDuplicate (scanState sc) m (scanStats sc)); reflexivity.
Qed.

(** The number of messages kept plus the number of duplicates counted grows
    by one with every message scanned. *)
Lemma scan_conservation l sc :
  let sc' := fold_left scanStep l sc in
  Z.of_nat (length (scanUnique sc')) + Methods.total (deduplicationMethods (scanStats sc'))
  = Z.of_nat (length (scanUnique sc)) + Methods.total (deduplicationMethods (scanStats sc))
    + Z.of_nat (length l)
  ∧ totalMessages (scanStats sc') = totalMessages (scanStats sc).
Proof.
  revert sc. induction l as [|m l IH]; intros sc; cbn [fold_left length].
  - split; lia.
  - destruct (IH (scanStep sc m)) as [Hsum Htot]. cbn zeta in *.
    rewrite Hsum, Htot. rewrite scanStep_stats, scanStep_unique. cbn.
    pose proof (isDuplicate_total (scanState sc) m (scanStats sc)) as Ht.
    destruct (isDuplicate_counters (scanState sc) m (scanStats sc))
      as (_ & _ & _ & _ & Htm & _).
    cbn zeta in Htm. rewrite Ht, Htm.
    destruct (firstMatch (scanState sc) m); rewrite ?length_app; cbn; split; lia.
Qed.

Lemma insertByDate_length m l : length (insertByDate m l) = S (length l).
Proof.
  induction l as [|x l IH]; cbn; [reflexivity|].
  destruct (date x <=? date m); cbn; congruence.
Qed.

Lemma sortByDateDesc_length l : length (sortByDateDesc l) = length l.
Proof.
  induction l as [|m l IH]; cbn; [reflexivity|].
  rewrite insertByDate_length. congruence.
Qed.

Lemma deduplicate_counts (messages : list UnifiedMessage) :
  let r := deduplicate messages in
  let s := Result.stats r in
  totalMessages s = Z.of_nat (length messages)
  ∧ uniqueMessages s = Z.of_nat (length (Result.uniqueMessages r))
  ∧ uniqueMessages s + duplicatesRemoved s = totalMessages s
  ∧ Methods.total (deduplicationMethods s) = duplicatesRemoved s.
Proof.
  intros r s.
  pose proof (scan_conservation (sortByDateDesc messages)
    {| scanUnique := []; scanState := reset; scanStats := initialStats messages |})
    as [Hsum Htot].
  cbn zeta in Hsum, Htot. rewrite sortByDateDesc_length in Hsum.
  subst s r. unfold deduplicate.
  set (sc := fold_left scanStep _ _) in *.
  unfold Methods.total in *. cbn in Hsum, Htot |- *.
  rewrite Htot. repeat split; lia.
Qed.


(** *** Sorting *)

Lemma insertByDate_Forall (P : UnifiedMessage -> Prop) m l :
  P m -> Forall P l -> Forall P (insertByDate m l).
Proof.
  intros Hm Hl. induction Hl as [|x l Hx Hl IH]; cbn.
  - repeat constructor; assumption.
  - destruct (date x <=? date m); repeat constructor; assumption.
Qed.

Lemma insertByDate_descending m l : descending l -> descending (insertByDate m l).
Proof.
  unfold descending. intros Hl. induction Hl as [|x l Hl IH Hx]; cbn.
  - repeat constructor.
  - destruct (Z.leb_spec (date x) (date m)) as [Hle|Hlt].
    + constructor; [constructor; assumption|].
      constructor; [assumption|].
      eapply Forall_impl; [exact Hx|]. cbn. intros y Hy. lia.
    + constructor; [assumption|].
      apply insertByDate_Forall; [lia | assumption].
Qed.

Lemma sortByDateDesc_descending l : descending (sortByDateDesc l).
Proof.
  induction l as [|m l IH]; cbn.
  - constructor.
  - apply insertByDate_descending, IH.
Qed.

(** Sorting a list that is already newest-first changes nothing: the sort is
    stable. *)
Lemma sortByDateDesc_fixed l : descending l -> sortByDateDesc l = l.
Proof.
  unfold descending. intros Hl. induction Hl as [|m l Hl IH Hm]; cbn.
  - reflexivity.
  - rewrite IH. destruct l as [|x l']; cbn; [reflexivity|].
    inversion Hm as [|? ? Hx _]; subst.
    destruct (Z.leb_spec (date x) (date m)); [reflexivity | lia].
Qed.

(** *** The loop as a recursive function *)

Lemma scan_unique l sc :
  scanUnique (fold_left scanStep l sc) = scanUnique sc ++ retained (scanState sc) l.
Proof.
  revert sc. induction l as [|m l IH]; intros sc; cbn [fold_left retained].
  - symmetry. apply app_nil_r.
  - rewrite IH, scanStep_unique, scanStep_state.
    destruct (firstMatch (scanState sc) m); [reflexivity|].
    rewrite <- app_assoc. reflexivity.
Qed.

Lemma scan_state l sc :
  scanState (fold_left scanStep l sc) = stateAfter (scanState sc) l.
Proof.
  revert sc. induction l as [|m l IH]; intros sc; cbn [fold_left stateAfter].
  - reflexivity.
  - rewrite IH, scanStep_state.
    destruct (firstMatch (scanState sc) m); reflexivity.
Qed.

Lemma deduplicate_unique messages :
  Result.uniqueMessages (deduplicate messages) = retained reset (sortByDateDesc messages).
Proof. unfold deduplicate. cbn. rewrite scan_unique. reflexivity. Qed.

Lemma retained_Forall (P : UnifiedMessage -> Prop) st l :
  Forall P l -> Forall P (retained st l).
Proof.
  intros Hl. revert st. induction Hl as [|m l Hm Hl IH]; intros st; cbn.
  - constructor.
  - destruct (firstMatch st m); [apply IH|]. constructor; [assumption | apply IH].
Qed.

Lemma retained_descending st l : descending l -> descending (retained st l).
Proof.
  unfold descending. intros Hl. revert st.
  induction Hl as [|m l Hl IH Hm]; intros st; cbn.
  - constructor.
  - destruct (firstMatch st m); [apply IH|].
    constructor; [apply IH | apply retained_Forall, Hm].
Qed.

(** A message that was kept is kept again, and from the same indexes: the
    indexes change only when a message is kept. *)
Lemma retained_idempotent st l : retained st (retained st l) = retained st l.
Proof.
  revert st. induction l as [|m l IH]; intros st; cbn; [reflexivity|].
  destruct (firstMatch st m) eqn:Hm; [apply IH|].
  cbn. rewrite Hm, IH. reflexivity.
Qed.

(** C2. Running [deduplicate] on the unique messages of a first run returns
    the same list, and removes no duplicate: every counter of the second run
    is zero. *)
Theorem deduplicate_idempotent (messages : list UnifiedMessage) :
  let unique := Result.uniqueMessages (deduplicate messages) in
  let again := deduplicate unique in
  Result.uniqueMessages again = unique
  ∧ duplicatesRemoved (Result.stats again) = 0
  ∧ uniqueMessages (Result.stats again) = Z.of_nat (length unique)
  ∧ Methods.total (deduplicationMethods (Result.stats again)) = 0.
Proof.
  intros unique again.
  assert (Hsame : Result.uniqueMessages again = unique).
  { subst again unique. rewrite !deduplicate_unique.
    rewrite (sortByDateDesc_fixed (retained reset _)).
    - apply retained_idempotent.
    - apply retained_descending, sortByDateDesc_descending. }
  destruct (deduplicate_counts unique) as (Htot & Huniq & Hsum & Hmeth).
  cbn zeta in *. fold again in Htot, Huniq, Hsum, Hmeth. rewrite Hsame in Huniq.
  repeat split; try assumption; lia.
Qed.

(** *** The global-id strategy *)

Lemma retained_app st l1 l2 :
  retained st (l1 ++ l2) = retained st l1 ++ retained (stateAfter st l1) l2.
Proof.
  revert st. induction l1 as [|m l1 IH]; intros st; cbn; [reflexivity|].
  destruct (firstMatch st m); [apply IH|]. cbn. rewrite IH. reflexivity.
Qed.

Lemma stateAfter_app st l1 l2 :
  stateAfter st (l1 ++ l2) = stateAfter (stateAfter st l1) l2.
Proof.
  revert st. induction l1 as [|m l1 IH]; intros st; cbn; [reflexivity|].
  destruct (firstMatch st m); apply IH.
Qed.

(** A message of the output was scanned at some place of the list and was
    not a duplicate there. *)
Lemma retained_split st l a :
  a ∈ retained st l ->
  exists pre post, l = pre ++ a :: post ∧ firstMatch (stateAfter st pre) a = false.
Proof.
  revert st. induction l as [|m l IH]; intros st; cbn.
  - intros H. inversion H.
  - destruct (firstMatch st m) eqn:Hm.
    + intros H. destruct (IH _ H) as (pre & post & -> & Hf).
      exists (m :: pre), post. cbn. rewrite Hm. auto.
    + intros H. apply elem_of_cons in H as [->|H].
      * exists [], l. auto.
      * destruct (IH _ H) as (pre & post & -> & Hf).
        exists (m :: pre), post. cbn. rewrite Hm. auto.
Qed.

Lemma retained_subset st l a : a ∈ retained st l -> a ∈ l.
Proof.
  revert st. induction l as [|m l IH]; intros st; cbn; [auto|].
  destruct (firstMatch st m).
  - intros H. right. eauto.
  - intros H. apply elem_of_cons in H as [->|H]; [left | right; eauto].
Qed.

Lemma recordMessage_globalIds st m g :
  g ∈ seenGlobalIds st -> g ∈ seenGlobalIds (recordMessage st m).
Proof.
  intros H. cbn. destruct (globalMessageId m) as [g'|]; [|assumption].
  destruct (JS.truthyNumber g'); [set_solver | assumption].
Qed.

Lemma recordMessage_own_globalId st m g :
  globalMessageId m = Some g -> g ≠ 0 -> g ∈ seenGlobalIds (recordMessage st m).
Proof.
  intros Hg Hnz. cbn. rewrite Hg. unfold JS.truthyNumber.
  destruct (Z.eqb_spec g 0); [contradiction | cbn; set_solver].
Qed.

Lemma stateAfter_globalIds st l g :
  g ∈ seenGlobalIds st -> g ∈ seenGlobalIds (stateAfter st l).
Proof.
  revert st. induction l as [|m l IH]; intros st H; cbn; [assumption|].
  destruct (firstMatch st m); apply IH; [assumption|].
  apply recordMessage_globalIds, H.
Qed.

Lemma globalIdSeen_true st m g :
  globalMessageId m = Some g -> g ≠ 0 -> g ∈ seenGlobalIds st ->
  globalIdSeen st m = true.
Proof.
  intros Hg Hnz Hin. unfold globalIdSeen, JS.truthyNumber. rewrite Hg.
  destruct (Z.eqb_spec g 0); [contradiction|]. cbn.
  apply bool_decide_eq_true_2, Hin.
Qed.

(** Once [g] has been seen, no later message that carries [g] is kept. *)
Lemma retained_no_seen_globalId st l g b :
  g ≠ 0 -> g ∈ seenGlobalIds st -> globalMessageId b = Some g ->
  b ∉ retained st l.
Proof.
  intros Hnz. revert st. induction l as [|m l IH]; intros st Hin Hb; cbn.
  - apply not_elem_of_nil.
  - destruct (firstMatch st m) eqn:Hm; [auto|].
    intros H. apply elem_of_cons in H as [->|H].
    + unfold firstMatch in Hm. rewrite (globalIdSeen_true st m g) in Hm by assumption.
      discriminate.
    + revert H. apply IH; [|assumption]. apply recordMessage_globalIds, Hin.
Qed.

Lemma scanStep_globalIdCount sc m :
  globalIdCount (scanStep sc m) =
  globalIdCount sc + (if globalIdSeen (scanState sc) m then 1 else 0).
Proof.
  unfold globalIdCount. rewrite scanStep_stats. cbn.
  destruct (isDuplicate_counters (scanState sc) m (scanStats sc)) as (H & _).
  exact H.
Qed.

Lemma scan_globalIdCount_mono l sc :
  globalIdCount sc <= globalIdCount (fold_left scanStep l sc).
Proof.
  revert sc. induction l as [|m l IH]; intros sc; cbn [fold_left]; [lia|].
  specialize (IH (scanStep sc m)). rewrite scanStep_globalIdCount in IH.
  destruct (globalIdSeen (scanState sc) m); lia.
Qed.

(** Once [g] has been seen, every later message that carries [g] adds one
    to the global-id counter. *)
Lemma scan_globalIdCount_seen (P : UnifiedMessage -> Prop) `{!∀ m, Decision (P m)}
    g l sc :
  g ≠ 0 -> g ∈ seenGlobalIds (scanState sc) ->
  (forall m, P m -> globalMessageId m = Some g) ->
  globalIdCount sc + Z.of_nat (length (filter P l))
  <= globalIdCount (fold_left scanStep l sc).
Proof.
  intros Hnz Hin HP. revert sc Hin.
  induction l as [|m l IH]; intros sc Hin; cbn [fold_left].
  - cbn. lia.
  - assert (Hin' : g ∈ seenGlobalIds (scanState (scanStep sc m))).
    { rewrite scanStep_state. destruct (firstMatch (scanState sc) m);
        [assumption | apply recordMessage_globalIds, Hin]. }
    specialize (IH _ Hin'). rewrite scanStep_globalIdCount in IH.
    rewrite filter_cons. destruct (decide (P m)) as [Hm|Hm].
    + rewrite (globalIdSeen_true _ m g) in IH by auto. cbn [length]. lia.
    + destruct (globalIdSeen (scanState sc) m); lia.
Qed.

Lemma filter_insertByDate_length (P : UnifiedMessage -> Prop)
    `{!∀ m, Decision (P m)} m l :
  length (filter P (insertByDate m l)) = length (filter P (m :: l)).
Proof.
  induction l as [|x l IH]; cbn [insertByDate]; [reflexivity|].
  destruct (date x <=? date m); [reflexivity|].
  rewrite (filter_cons P x), (filter_cons P m), (filter_cons P x).
  rewrite (filter_cons P m) in IH.
  destruct (decide (P x)), (decide (P m)); cbn [length] in *; lia.
Qed.

Lemma filter_sortByDateDesc_length (P : UnifiedMessage -> Prop)
    `{!∀ m, Decision (P m)} l :
  length (filter P (sortByDateDesc l)) = length (filter P l).
Proof.
  induction l as [|m l IH]; cbn [sortByDateDesc]; [reflexivity|].
  rewrite filter_insertByDate_length, !filter_cons.
  destruct (decide (P m)); cbn [length]; lia.
Qed.

Lemma descending_app_before pre a post m :
  descending (pre ++ a :: post) -> m ∈ pre -> date a <= date m.
Proof.
  unfold descending. induction pre as [|x pre IH]; cbn; intros Hs Hm.
  - inversion Hm.
  - inversion Hs as [|? ? Hs' Hx]; subst.
    apply elem_of_cons in Hm as [->|Hm]; [|auto].
    rewrite Forall_forall in Hx. apply Hx. set_solver.
Qed.

Lemma filter_nil_length (P : UnifiedMessage -> Prop) `{!∀ m, Decision (P m)} l :
  (forall m, m ∈ l -> ¬ P m) -> length (filter P l) = 0%nat.
Proof.
  induction l as [|x l IH]; intros Hall; [reflexivity|].
  rewrite filter_cons. destruct (decide (P x)) as [Hx|Hx].
  - exfalso. apply (Hall x); [left | assumption].
  - apply IH. intros m Hm. apply Hall. right. assumption.
Qed.

Lemma isDuplicate_reset m stats : isDuplicate reset m stats = (false, stats).
Proof.
  unfold isDuplicate, globalIdSeen, messageIdSeen, contentHashSeen, fuzzySeen.
  cbn [reset seenGlobalIds seenMessageIds seenContentHashes fuzzyMatches].
  rewrite lookup_empty.
  destruct (globalMessageId m) as [g|], (messageIdHeader m) as [h|];
    rewrite ?andb_false_r; reflexivity.
Qed.

Lemma isDuplicate_seen_globalId st m g stats :
  globalMessageId m = Some g -> g ≠ 0 -> g ∈ seenGlobalIds st ->
  isDuplicate st m stats = (true, bumpGlobalMessageId stats).
Proof.
  intros Hg Hnz Hin. unfold isDuplicate.
  rewrite (globalIdSeen_true st m g) by assumption. reflexivity.
Qed.

(** The two messages alone, in either order of the input. *)
Lemma deduplicate_pair_globalId a b g input :
  globalMessageId a = Some g -> globalMessageId b = Some g -> g ≠ 0 ->
  date b < date a -> input = [a; b] ∨ input = [b; a] ->
  Result.uniqueMessages (deduplicate input) = [a]
  ∧ deduplicationMethods (Result.stats (deduplicate input)) =
      {| Methods.globalMessageId := 1; Methods.messageIdHeader := 0;
         Methods.contentHash := 0; Methods.fuzzyMatch := 0 |}
  ∧ duplicatesRemoved (Result.stats (deduplicate input)) = 1.
Proof.
  intros Ha Hb Hnz Hlt Hin.
  assert (Hsort : sortByDateDesc input = [a; b]).
  { destruct Hin as [-> | ->]; cbn.
    - destruct (Z.leb_spec (date b) (date a)); [reflexivity | lia].
    - destruct (Z.leb_spec (date a) (date b)); [lia | reflexivity]. }
  assert (Hlen : length input = 2%nat) by (destruct Hin as [-> | ->]; reflexivity).
  unfold deduplicate. rewrite Hsort. cbn [fold_left].
  set (sc0 := {| scanUnique := []; scanState := reset;
                 scanStats := initialStats input |}).
  assert (H1 : scanStep sc0 a =
               {| scanUnique := [a]; scanState := recordMessage reset a;
                  scanStats := bumpSource a (initialStats input) |}).
  { unfold scanStep, sc0. cbn [scanState scanStats scanUnique].
    rewrite isDuplicate_reset. reflexivity. }
  rewrite H1. unfold scanStep. cbn [scanState scanStats scanUnique].
  rewrite (isDuplicate_seen_globalId _ b g)
    by (try assumption; apply recordMessage_own_globalId; assumption).
  unfold initialStats. rewrite Hlen. cbn. auto.
Qed.

(** C3. Two messages [a] and [b] carry the same global id, which is not 0,
    and [a] has the later date. In any input, if [a] is in the unique output
    then [b] is not, and every message of the input that carries that id and
    is older than [a] is counted under [globalMessageId]. When the input is
    these two messages alone, in either order, the output is [a] alone, the
    global-id counter is 1 and the other three are 0. *)
Theorem global_id_tie_break (messages : list UnifiedMessage)
    (a b : UnifiedMessage) (g : Z) :
  globalMessageId a = Some g -> globalMessageId b = Some g -> g ≠ 0 ->
  date b < date a ->
  (a ∈ Result.uniqueMessages (deduplicate messages) ->
   (b ∉ Result.uniqueMessages (deduplicate messages))
   ∧ (Z.of_nat (length (filter
                  (fun m => globalMessageId m = Some g ∧ date m < date a) messages))
      <= Methods.globalMessageId
           (deduplicationMethods (Result.stats (deduplicate messages)))))
  ∧ (forall input, input = [a; b] ∨ input = [b; a] ->
       Result.uniqueMessages (deduplicate input) = [a]
       ∧ deduplicationMethods (Result.stats (deduplicate input)) =
           {| Methods.globalMessageId := 1; Methods.messageIdHeader := 0;
              Methods.contentHash := 0; Methods.fuzzyMatch := 0 |}
       ∧ duplicatesRemoved (Result.stats (deduplicate input)) = 1).
Proof.
  intros Ha Hb Hnz Hlt. split.
  2: { intros input Hin. eapply deduplicate_pair_globalId; eassumption. }
  rewrite deduplicate_unique. intros Hkept.
  destruct (retained_split _ _ _ Hkept) as (pre & post & Hsplit & Hfresh).
  pose proof (sortByDateDesc_descending messages) as Hdesc. rewrite Hsplit in Hdesc.
  set (P := fun m => globalMessageId m = Some g ∧ date m < date a).
  assert (Hseen : g ∈ seenGlobalIds (stateAfter reset (pre ++ [a]))).
  { rewrite stateAfter_app. cbn. rewrite Hfresh.
    apply recordMessage_own_globalId; assumption. }
  split.
  - rewrite Hsplit. change (pre ++ a :: post) with (pre ++ [a] ++ post).
    rewrite app_assoc, retained_app. intros Hb'.
    apply elem_of_app in Hb' as [Hb'|Hb'].
    + apply retained_subset in Hb'. apply elem_of_app in Hb' as [Hb'|Hb'].
      * pose proof (descending_app_before _ _ _ _ Hdesc Hb'). lia.
      * apply list_elem_of_singleton in Hb'. subst b. lia.
    + revert Hb'. eapply retained_no_seen_globalId; eassumption.
  - rewrite <- (filter_sortByDateDesc_length P), Hsplit.
    change (pre ++ a :: post) with (pre ++ [a] ++ post).
    rewrite app_assoc, filter_app, length_app.
    rewrite (filter_nil_length P (pre ++ [a])).
    2: { intros m Hm [_ Hmd]. apply elem_of_app in Hm as [Hm|Hm].
         - pose proof (descending_app_before _ _ _ _ Hdesc Hm). lia.
         - apply list_elem_of_singleton in Hm. subst m. lia. }
    unfold deduplicate. cbn [Result.stats deduplicationMethods].
    rewrite Hsplit. change (pre ++ a :: post) with (pre ++ [a] ++ post).
    rewrite app_assoc, fold_left_app.
    set (sc := fold_left scanStep (pre ++ [a]) _).
    assert (Hsc : g ∈ seenGlobalIds (scanState sc)).
    { subst sc. rewrite scan_state. exact Hseen. }
    pose proof (scan_globalIdCount_seen P g post sc Hnz Hsc
                  (fun m Hm => proj1 Hm)) as Hcount.
    pose proof (scan_globalIdCount_mono (pre ++ [a])
      {| scanUnique := []; scanState := reset; scanStats := initialStats messages |})
      as Hmono.
    fold sc in Hmono. unfold globalIdCount in *. cbn in Hmono. cbn [length]. lia.
Qed.

Lemma global_id_tie_break_witness :
  let input := [Scenario.hiEarly; Scenario.hiLate] in
  (Scenario.hiEarly ∉ Result.uniqueMessages (deduplicate input))
  ∧ Result.uniqueMessages (deduplicate input) = [Scenario.hiLate]
  ∧ Methods.globalMessageId (deduplicationMethods (Result.stats (deduplicate input))) = 1.
Proof.
  pose proof (global_id_tie_break [Scenario.hiEarly; Scenario.hiLate]
                Scenario.hiLate Scenario.hiEarly 42
                eq_refl eq_refl ltac:(lia) eq_refl) as [Hgen Hpair].
  destruct (Hpair [Scenario.hiEarly; Scenario.hiLate] (or_intror eq_refl))
    as (Hu & Hm & _).
  cbn zeta. split; [|split].
  - apply Hgen. vm_compute. apply list_elem_of_here.
  - exact Hu.
  - rewrite Hm. reflexivity.
Defined.

(** A third message can take the later of the two out first: here [hiLate]
    is dropped as a content-hash duplicate of [hiTwin], so global id 42 is
    never recorded and the older [lunchEarly] is the one that stays. *)
Lemma global_id_later_dropped :
  let input := [Scenario.hiTwin; Scenario.hiLate; Scenario.lunchEarly] in
  globalMessageId Scenario.hiLate = globalMessageId Scenario.lunchEarly
  ∧ date Scenario.lunchEarly < date Scenario.hiLate
  ∧ Result.uniqueMessages (deduplicate input) = [Scenario.hiTwin; Scenario.lunchEarly]
  ∧ ¬ (Scenario.hiLate ∈ Result.uniqueMessages (deduplicate input))
  ∧ Methods.globalMessageId (deduplicationMethods (Result.stats (deduplicate input))) = 0.
Proof.
  cbn zeta.
  assert (Hu : Result.uniqueMessages
                 (deduplicate [Scenario.hiTwin; Scenario.hiLate; Scenario.lunchEarly])
               = [Scenario.hiTwin; Scenario.lunchEarly]) by (vm_compute; reflexivity).
  repeat split; try (vm_compute; reflexivity).
  rewrite Hu. intros H.
  apply elem_of_cons in H as [H|H]; [discriminate H|].
  apply elem_of_cons in H as [H|H]; [discriminate H|].
  inversion H.
Qed.

(** *** The reply-prefix scenario *)




(** *** The edit distance *)

(** Two nested minima of the same sums are equal: each is below every sum
    of the other. *)
Ltac min_ac :=
  rewrite <- ?Z.add_min_distr_r;
  apply Z.le_antisymm; repeat apply Z.min_glb; rewrite !Z.min_le_iff; lia.

Section Levenshtein.

Implicit Types (a b : list ascii) (x y : ascii).

Lemma levenshtein_nil_r a : levenshtein a [] = Z.of_nat (length a).
Proof. destruct a; reflexivity. Qed.

Lemma levenshtein_cons x a y b :
  levenshtein (x :: a) (y :: b) =
  Z.min (Z.min (levenshtein (x :: a) b + 1) (levenshtein a (y :: b) + 1))
        (levenshtein a b + cost x y).
Proof. reflexivity. Qed.

Lemma cost_sym x y : cost x y = cost y x.
Proof. unfold cost. rewrite Ascii.eqb_sym. reflexivity. Qed.

Lemma cost_range x y : 0 <= cost x y <= 1.
Proof. unfold cost. destruct (Ascii.eqb x y); lia. Qed.

Lemma cost_refl x : cost x x = 0.
Proof. unfold cost. rewrite Ascii.eqb_refl. reflexivity. Qed.

Lemma levenshtein_sym a b : levenshtein a b = levenshtein b a.
Proof.
  revert b. induction a as [|x a IHa]; intros b.
  - rewrite levenshtein_nil_r. reflexivity.
  - induction b as [|y b IHb].
    + reflexivity.
    + rewrite !levenshtein_cons, IHb, (IHa (y :: b)), (IHa b), (cost_sym x y). lia.
Qed.

Lemma levenshtein_nonneg a b : 0 <= levenshtein a b.
Proof.
  revert b. induction a as [|x a IHa]; intros b.
  - cbn. lia.
  - induction b as [|y b IHb].
    + rewrite levenshtein_nil_r. lia.
    + rewrite levenshtein_cons.
      pose proof (IHa (y :: b)). pose proof (IHa b). pose proof (cost_range x y). lia.
Qed.

Lemma levenshtein_refl a : levenshtein a a = 0.
Proof.
  induction a as [|x a IH]; [reflexivity|].
  rewrite levenshtein_cons, IH, cost_refl.
  pose proof (levenshtein_nonneg (x :: a) a).
  pose proof (levenshtein_nonneg a (x :: a)). lia.
Qed.

(** The recurrence read at the last characters, which is how the matrix is
    filled. *)
Lemma levenshtein_snoc a x b y :
  levenshtein (a ++ [x]) (b ++ [y]) =
  Z.min (Z.min (levenshtein (a ++ [x]) b + 1) (levenshtein a (b ++ [y]) + 1))
        (levenshtein a b + cost x y).
Proof.
  revert b. induction a as [|x' a IHa]; intros b.
  - induction b as [|y' b IHb].
    + reflexivity.
    + cbn [app] in *. rewrite levenshtein_cons, IHb.
      rewrite (levenshtein_cons x [] y' b).
      cbn [levenshtein]. rewrite !length_app. cbn [length].
      min_ac.
  - induction b as [|y' b IHb].
    + cbn [app]. rewrite levenshtein_cons.
      pose proof (IHa []) as H0. cbn [app] in H0. rewrite H0.
      rewrite (levenshtein_cons x' a y []).
      rewrite !levenshtein_nil_r. cbn [length]. rewrite !length_app. cbn [length].
      min_ac.
    + cbn [app] in *. rewrite levenshtein_cons.
      pose proof (IHa (y' :: b)) as H1. cbn [app] in H1. rewrite H1.
      rewrite IHb, (IHa b).
      rewrite (levenshtein_cons x' a y' (b ++ [y])).
      rewrite (levenshtein_cons x' (a ++ [x]) y' b).
      rewrite (levenshtein_cons x' a y' b).
      min_ac.
Qed.

(** *** The matrix of [calculateSimilarity] holds the edit distances *)

Lemma rowOf_cons p1 s1b p2 :
  rowOf p1 s1b p2 = levenshtein p1 p2 :: tail (rowOf p1 s1b p2).
Proof. destruct s1b; reflexivity. Qed.

Lemma fillRow_rowOf c2 s1b p1 p2 :
  fillRow c2 s1b (rowOf p1 s1b p2) (levenshtein p1 (p2 ++ [c2])) =
  tail (rowOf p1 s1b (p2 ++ [c2])).
Proof.
  revert p1. induction s1b as [|c1 s1b IH]; intros p1; [reflexivity|].
  cbn [rowOf tail fillRow].
  rewrite (rowOf_cons (p1 ++ [c1]) s1b p2).
  rewrite <- levenshtein_snoc.
  rewrite <- (rowOf_cons (p1 ++ [c1]) s1b p2), IH.
  symmetry. apply rowOf_cons.
Qed.

Lemma firstRow_rowOf p1 s1b :
  map Z.of_nat (seq (length p1) (S (length s1b))) = rowOf p1 s1b [].
Proof.
  revert p1. induction s1b as [|c1 s1b IH]; intros p1.
  - cbn. rewrite levenshtein_nil_r. reflexivity.
  - cbn [rowOf]. rewrite <- IH, length_app. cbn [length seq map].
    rewrite levenshtein_nil_r. repeat f_equal; lia.
Qed.

Lemma fillMatrix_rowsFrom s1 s2b p2 :
  fillMatrix s1 s2b (Z.of_nat (length p2) + 1) (rowOf [] s1 p2) = rowsFrom s1 p2 s2b.
Proof.
  revert p2. induction s2b as [|c2 s2b IH]; intros p2; [reflexivity|].
  cbn [fillMatrix rowsFrom].
  assert (Hrow : Z.of_nat (length p2) + 1 :: fillRow c2 s1 (rowOf [] s1 p2)
                   (Z.of_nat (length p2) + 1) = rowOf [] s1 (p2 ++ [c2])).
  { replace (Z.of_nat (length p2) + 1) with (levenshtein [] (p2 ++ [c2])).
    - rewrite fillRow_rowOf. symmetry. apply rowOf_cons.
    - cbn. rewrite length_app. cbn. lia. }
  rewrite Hrow. f_equal.
  specialize (IH (p2 ++ [c2])). rewrite length_app in IH. cbn [length] in IH.
  rewrite <- IH. f_equal. lia.
Qed.

Lemma rowOf_last p1 s1b p2 :
  nth (length s1b) (rowOf p1 s1b p2) 0 = levenshtein (p1 ++ s1b) p2.
Proof.
  revert p1. induction s1b as [|c1 s1b IH]; intros p1.
  - cbn. rewrite app_nil_r. reflexivity.
  - cbn [rowOf length nth]. rewrite IH, <- app_assoc. reflexivity.
Qed.

Lemma rowsFrom_last s1 p2 s2b :
  nth (length s2b) (rowOf [] s1 p2 :: rowsFrom s1 p2 s2b) [] = rowOf [] s1 (p2 ++ s2b).
Proof.
  revert p2. induction s2b as [|c2 s2b IH]; intros p2.
  - cbn. rewrite app_nil_r. reflexivity.
  - change (nth (length s2b)
              (rowOf [] s1 (p2 ++ [c2]) :: rowsFrom s1 (p2 ++ [c2]) s2b) []
            = rowOf [] s1 (p2 ++ c2 :: s2b)).
    rewrite IH, <- app_assoc. reflexivity.
Qed.

(** The entry [matrix[s2.length][s1.length]] that [calculateSimilarity]
    reads is the Levenshtein distance of the two strings. *)
Lemma levMatrix_levenshtein s1 s2 :
  matrixAt (levMatrix s1 s2) (length s2) (length s1) = levenshtein s1 s2.
Proof.
  unfold matrixAt, levMatrix.
  rewrite (firstRow_rowOf [] s1 : firstRow s1 = _).
  pose proof (fillMatrix_rowsFrom s1 s2 []) as Hrows.
  change (Z.of_nat (length (@nil ascii)) + 1) with 1 in Hrows.
  rewrite Hrows, rowsFrom_last, rowOf_last. reflexivity.
Qed.

End Levenshtein.

(** *** calculateSimilarity and isFuzzyMatch *)

Lemma calculateSimilarity_sym str1 str2 :
  calculateSimilarity str1 str2 = calculateSimilarity str2 str1.
Proof.
  unfold calculateSimilarity.
  set (s1 := JS.lowerChars (JS.chars str1)).
  set (s2 := JS.lowerChars (JS.chars str2)).
  destruct (decide (s1 = s2)) as [E|N], (decide (s2 = s1)) as [E'|N'];
    try congruence.
  rewrite (orb_comm (length s2 =? 0)%nat).
  rewrite !levMatrix_levenshtein, (levenshtein_sym s2 s1), (Z.max_comm (Z.of_nat (length s2))).
  reflexivity.
Qed.

Lemma calculateSimilarity_same str : calculateSimilarity str str = 1%Q.
Proof. unfold calculateSimilarity. rewrite decide_True by reflexivity. reflexivity. Qed.

Lemma lowerChars_nil str : JS.lowerChars (JS.chars str) = [] <-> str = EmptyString.
Proof.
  destruct str; cbn; split; intros H; try reflexivity; discriminate H.
Qed.

Lemma calculateSimilarity_empty str :
  calculateSimilarity EmptyString str =
  if decide (str = EmptyString) then 1%Q else 0%Q.
Proof.
  unfold calculateSimilarity. cbn [JS.chars list_ascii_of_string JS.lowerChars map].
  destruct (decide (str = EmptyString)) as [->|N].
  - reflexivity.
  - rewrite decide_False; [reflexivity|].
    intros H. apply N, lowerChars_nil. symmetry. exact H.
Qed.

(** The similarity is [1 - levenshtein / maxLength] on the lower-cased
    strings; when both are empty there is no quotient and it is 1. *)
Lemma calculateSimilarity_formula str1 str2 :
  let s1 := JS.lowerChars (JS.chars str1) in
  let s2 := JS.lowerChars (JS.chars str2) in
  let maxLength := Z.max (Z.of_nat (length s1)) (Z.of_nat (length s2)) in
  (maxLength = 0 ∧ calculateSimilarity str1 str2 = 1%Q)
  ∨ (0 < maxLength
     ∧ (calculateSimilarity str1 str2
        == 1 - inject_Z (levenshtein s1 s2) / inject_Z maxLength)%Q).
Proof.
  unfold calculateSimilarity. cbv zeta.
  generalize (JS.lowerChars (JS.chars str1)) as s1.
  generalize (JS.lowerChars (JS.chars str2)) as s2.
  intros s2 s1.
  set (maxLength := Z.max (Z.of_nat (length s1)) (Z.of_nat (length s2))).
  destruct (Z.eq_dec maxLength 0) as [Hz|Hnz].
  - left. split; [assumption|].
    assert (s1 = [] ∧ s2 = []) as [-> ->].
    { subst maxLength. destruct s1, s2; cbn [length] in Hz; try lia. auto. }
    reflexivity.
  - right. assert (Hpos : 0 < maxLength) by (subst maxLength; lia).
    split; [assumption|].
    assert (Hq : ~ (inject_Z maxLength == 0)%Q).
    { unfold Qeq. cbn. lia. }
    destruct (decide (s1 = s2)) as [E|N].
    { rewrite E, levenshtein_refl. field. exact Hq. }
    destruct (length s1 =? 0)%nat eqn:L1.
    { apply Nat.eqb_eq in L1. destruct s1; [|discriminate L1].
      cbn [orb levenshtein].
      replace (Z.of_nat (length s2)) with maxLength by (subst maxLength; cbn; lia).
      field. exact Hq. }
    destruct (length s2 =? 0)%nat eqn:L2.
    { apply Nat.eqb_eq in L2. destruct s2; [|discriminate L2].
      cbn [orb]. rewrite levenshtein_nil_r.
      replace (Z.of_nat (length s1)) with maxLength by (subst maxLength; cbn; lia).
      field. exact Hq. }
    cbn [orb]. rewrite levMatrix_levenshtein.
    unfold Z.sub. rewrite inject_Z_plus, inject_Z_opp. field. exact Hq.
Qed.

Lemma isFuzzyMatch_sym message1 message2 :
  isFuzzyMatch message1 message2 = isFuzzyMatch message2 message1.
Proof.
  unfold isFuzzyMatch.
  rewrite (String.eqb_sym (normalizeSender (from message2))).
  rewrite (calculateSimilarity_sym (subject message2)).
  replace (date message2 - date message1) with (- (date message1 - date message2)) by lia.
  rewrite Z.abs_opp. reflexivity.
Qed.

(** C9. The pairwise fuzzy check gives the same answer in both orders of
    its two messages, and so does each of its three tests: equality of the
    normalized senders, the similarity of the subjects, and the distance of
    the dates. The similarity is 1 for identical strings, 0 when one string
    is empty and the other is not, and otherwise
    [1 - levenshtein / maxLength] on the lower-cased strings, the matrix
    entry the code reads being the Levenshtein distance. *)
Theorem fuzzy_match_symmetric :
  (forall message1 message2 : UnifiedMessage,
     isFuzzyMatch message1 message2 = isFuzzyMatch message2 message1)
  ∧ (forall sender1 sender2 : string,
       String.eqb (normalizeSender sender1) (normalizeSender sender2)
       = String.eqb (normalizeSender sender2) (normalizeSender sender1))
  ∧ (forall str1 str2 : string,
       calculateSimilarity str1 str2 = calculateSimilarity str2 str1)
  ∧ (forall message1 message2 : UnifiedMessage,
       Z.abs (date message1 - date message2) = Z.abs (date message2 - date message1))
  ∧ (forall str : string, calculateSimilarity str str = 1%Q)
  ∧ (forall str : string,
       calculateSimilarity EmptyString str
       = if decide (str = EmptyString) then 1%Q else 0%Q)
  ∧ (forall str1 str2 : string,
       let s1 := JS.lowerChars (JS.chars str1) in
       let s2 := JS.lowerChars (JS.chars str2) in
       let maxLength := Z.max (Z.of_nat (length s1)) (Z.of_nat (length s2)) in
       matrixAt (levMatrix s1 s2) (length s2) (length s1) = levenshtein s1 s2
       ∧ ((maxLength = 0 ∧ calculateSimilarity str1 str2 = 1%Q)
          ∨ (0 < maxLength
             ∧ (calculateSimilarity str1 str2
                == 1 - inject_Z (levenshtein s1 s2) / inject_Z maxLength)%Q))).
Proof.
  split; [exact isFuzzyMatch_sym|].
  split; [intros; apply String.eqb_sym|].
  split; [exact calculateSimilarity_sym|].
  split.
  { intros m1 m2.
    replace (date m2 - date m1) with (- (date m1 - date m2)) by lia.
    symmetry. apply Z.abs_opp. }
  split; [exact calculateSimilarity_same|].
  split; [exact calculateSimilarity_empty|].
  intros str1 str2 s1 s2 maxLength. split.
  - apply levMatrix_levenshtein.
  - apply calculateSimilarity_formula.
Qed.

(** *** Identifiers that are falsy *)

Lemma scanStep_messageIdCount sc m :
  messageIdCount (scanStep sc m) =
  messageIdCount sc
  + (if negb (globalIdSeen (scanState sc) m) && messageIdSeen (scanState sc) m
     then 1 else 0).
Proof.
  unfold messageIdCount. rewrite scanStep_stats. cbn.
  destruct (isDuplicate_counters (scanState sc) m (scanStats sc)) as (_ & H & _).
  exact H.
Qed.

Lemma globalIdSeen_falsy st m :
  globalMessageId m = Some 0 ∨ globalMessageId m = None -> globalIdSeen st m = false.
Proof. unfold globalIdSeen. intros [-> | ->]; reflexivity. Qed.

Lemma messageIdSeen_falsy st m :
  messageIdHeader m = Some EmptyString ∨ messageIdHeader m = None ->
  messageIdSeen st m = false.
Proof. unfold messageIdSeen. intros [-> | ->]; reflexivity. Qed.

Lemma scan_globalIdCount_falsy l sc :
  Forall (fun m => globalMessageId m = Some 0 ∨ globalMessageId m = None) l ->
  globalIdCount (fold_left scanStep l sc) = globalIdCount sc.
Proof.
  intros Hl. revert sc. induction Hl as [|m l Hm Hl IH]; intros sc; cbn [fold_left].
  - reflexivity.
  - rewrite IH, scanStep_globalIdCount, globalIdSeen_falsy by assumption. lia.
Qed.

Lemma scan_messageIdCount_falsy l sc :
  Forall (fun m => messageIdHeader m = Some EmptyString ∨ messageIdHeader m = None) l ->
  messageIdCount (fold_left scanStep l sc) = messageIdCount sc.
Proof.
  intros Hl. revert sc. induction Hl as [|m l Hm Hl IH]; intros sc; cbn [fold_left].
  - reflexivity.
  - rewrite IH, scanStep_messageIdCount, (messageIdSeen_falsy _ m) by assumption.
    rewrite andb_false_r. lia.
Qed.

Lemma sortByDateDesc_Forall (P : UnifiedMessage -> Prop) l :
  Forall P l -> Forall P (sortByDateDesc l).
Proof.
  intros Hl. induction Hl as [|m l Hm Hl IH]; cbn; [constructor|].
  apply insertByDate_Forall; assumption.
Qed.

(** C10. A message whose global id is 0 is never a duplicate by the
    global-id strategy, whatever has been seen, and recording it leaves the
    set of seen global ids as it was; likewise an empty Message-ID header
    and the header strategy. For a message with both, [isDuplicate] is
    decided by the content hash and then the fuzzy match alone. In a whole
    run over messages whose global ids are all 0 or absent the global-id
    counter stays 0, and likewise the header counter for empty or absent
    headers. *)
Theorem falsy_ids_are_absent (st : DedupState) (m : UnifiedMessage)
    (stats : DeduplicationStats) (messages : list UnifiedMessage) :
  (globalMessageId m = Some 0 ->
   globalIdSeen st m = false
   ∧ seenGlobalIds (recordMessage st m) = seenGlobalIds st)
  ∧ (messageIdHeader m = Some EmptyString ->
     messageIdSeen st m = false
     ∧ seenMessageIds (recordMessage st m) = seenMessageIds st)
  ∧ (globalMessageId m = Some 0 -> messageIdHeader m = Some EmptyString ->
     isDuplicate st m stats =
     if contentHashSeen st m then (true, bumpContentHash stats)
     else if fuzzySeen st m then (true, bumpFuzzyMatch stats)
     else (false, stats))
  ∧ (Forall (fun x => globalMessageId x = Some 0 ∨ globalMessageId x = None) messages ->
     Methods.globalMessageId
       (deduplicationMethods (Result.stats (deduplicate messages))) = 0)
  ∧ (Forall (fun x => messageIdHeader x = Some EmptyString ∨ messageIdHeader x = None)
       messages ->
     Methods.messageIdHeader
       (deduplicationMethods (Result.stats (deduplicate messages))) = 0).
Proof.
  split; [|split; [|split; [|split]]].
  - intros Hg. split.
    + apply globalIdSeen_falsy. auto.
    + cbn. rewrite Hg. reflexivity.
  - intros Hh. split.
    + apply messageIdSeen_falsy. auto.
    + cbn. rewrite Hh. reflexivity.
  - intros Hg Hh. unfold isDuplicate.
    rewrite globalIdSeen_falsy, messageIdSeen_falsy by auto. reflexivity.
  - intros Hall. unfold deduplicate. cbn [Result.stats deduplicationMethods].
    apply (scan_globalIdCount_falsy _
             {| scanUnique := []; scanState := reset;
                scanStats := initialStats messages |}).
    apply sortByDateDesc_Forall, Hall.
  - intros Hall. unfold deduplicate. cbn [Result.stats deduplicationMethods].
    apply (scan_messageIdCount_falsy _
             {| scanUnique := []; scanState := reset;
                scanStats := initialStats messages |}).
    apply sortByDateDesc_Forall, Hall.
Qed.

Lemma falsy_ids_are_absent_witness :
  let st := recordMessage reset Scenario.zeroA in
  globalIdSeen st Scenario.zeroB = false
  ∧ seenGlobalIds st = ∅
  ∧ messageIdSeen st Scenario.zeroB = false
  ∧ seenMessageIds st = ∅
  ∧ Methods.globalMessageId (deduplicationMethods
      (Result.stats (deduplicate [Scenario.zeroA; Scenario.zeroB]))) = 0
  ∧ Methods.messageIdHeader (deduplicationMethods
      (Result.stats (deduplicate [Scenario.zeroA; Scenario.zeroB]))) = 0.
Proof.
  cbn zeta.
  pose proof (falsy_ids_are_absent (recordMessage reset Scenario.zeroA) Scenario.zeroB
                (initialStats []) [Scenario.zeroA; Scenario.zeroB])
    as (Hg & Hh & _ & Hrun & Hrun').
  pose proof (falsy_ids_are_absent reset Scenario.zeroA
                (initialStats []) [Scenario.zeroA; Scenario.zeroB])
    as (Hg0 & Hh0 & _).
  destruct (Hg eq_refl) as [Hg1 _]. destruct (Hh eq_refl) as [Hh1 _].
  destruct (Hg0 eq_refl) as [_ Hg2]. destruct (Hh0 eq_refl) as [_ Hh2].
  split; [exact Hg1|]. split; [exact Hg2|].
  split; [exact Hh1|]. split; [exact Hh2|].
  split.
  - apply Hrun. repeat constructor.
  - apply Hrun'. repeat constructor.
Defined.

(** *** findPotentialDuplicates *)

Lemma truthyNumber_true g : JS.truthyNumber g = true <-> g ≠ 0.
Proof.
  unfold JS.truthyNumber. destruct (Z.eqb_spec g 0); cbn; split; intros; congruence.
Qed.

Lemma truthyString_true h : JS.truthyString h = true <-> h ≠ EmptyString.
Proof. destruct h; cbn; split; intros; congruence. Qed.

Lemma sameGlobalId_spec msg1 msg2 :
  sameGlobalId msg1 msg2 = true <->
  exists g, globalMessageId msg1 = Some g ∧ globalMessageId msg2 = Some g ∧ g ≠ 0.
Proof.
  unfold sameGlobalId.
  destruct (globalMessageId msg1) as [g1|], (globalMessageId msg2) as [g2|];
    try (split; [discriminate | intros (g & ? & ? & ?); discriminate]).
  rewrite !andb_true_iff, !truthyNumber_true, Z.eqb_eq. split.
  - intros [[H1 H2] ->]. exists g2. auto.
  - intros (g & [= ->] & [= ->] & Hg). auto.
Qed.

Lemma sameMessageIdHeader_spec msg1 msg2 :
  sameMessageIdHeader msg1 msg2 = true <->
  exists h, messageIdHeader msg1 = Some h ∧ messageIdHeader msg2 = Some h
            ∧ h ≠ EmptyString.
Proof.
  unfold sameMessageIdHeader.
  destruct (messageIdHeader msg1) as [h1|], (messageIdHeader msg2) as [h2|];
    try (split; [discriminate | intros (h & ? & ? & ?); discriminate]).
  rewrite !andb_true_iff, !truthyString_true, String.eqb_eq. split.
  - intros [[H1 H2] ->]. exists h2. auto.
  - intros (h & [= ->] & [= ->] & Hh). auto.
Qed.

(** The three relations of [areRelated]. *)
Lemma areRelated_spec msg1 msg2 :
  areRelated msg1 msg2 = true <->
  (exists g, globalMessageId msg1 = Some g ∧ globalMessageId msg2 = Some g ∧ g ≠ 0)
  ∨ (exists h, messageIdHeader msg1 = Some h ∧ messageIdHeader msg2 = Some h
               ∧ h ≠ EmptyString)
  ∨ isFuzzyMatch msg1 msg2 = true.
Proof.
  rewrite <- sameGlobalId_spec, <- sameMessageIdHeader_spec. unfold areRelated.
  destruct (sameGlobalId msg1 msg2), (sameMessageIdHeader msg1 msg2),
    (isFuzzyMatch msg1 msg2); intuition congruence.
Qed.

Lemma areRelated_sym msg1 msg2 : areRelated msg1 msg2 = areRelated msg2 msg1.
Proof.
  unfold areRelated, sameGlobalId, sameMessageIdHeader.
  rewrite (isFuzzyMatch_sym msg1 msg2).
  destruct (globalMessageId msg1) as [g1|], (globalMessageId msg2) as [g2|],
    (messageIdHeader msg1) as [h1|], (messageIdHeader msg2) as [h2|];
    rewrite ?(Z.eqb_sym g1 g2), ?(String.eqb_sym h1 h2),
      ?(andb_comm (JS.truthyNumber g1)), ?(andb_comm (JS.truthyString h1));
    reflexivity.
Qed.

(** What the inner loop adds to a group is related to the group's first
    message, and carries another id. *)
Lemma groupStep_fold message l group processed :
  let r := fold_left (groupStep message) l (group, processed) in
  exists extra,
    fst r = group ++ extra
    ∧ Forall (fun other => other ∈ l ∧ id other ≠ id message
                           ∧ areRelated message other = true) extra.
Proof.
  revert group processed. induction l as [|other l IH]; intros group processed.
  - exists []. cbn. rewrite app_nil_r. auto.
  - cbn [fold_left]. unfold groupStep at 2.
    destruct (bool_decide (id other ∈ processed) || String.eqb (id message) (id other))
      eqn:Hskip.
    + destruct (IH group processed) as (extra & Hr & Hall).
      exists extra. split; [exact Hr|].
      eapply Forall_impl; [exact Hall|]. cbn. intros x (? & ? & ?).
      repeat split; auto. right. assumption.
    + destruct (areRelated message other) eqn:Hrel.
      * destruct (IH (group ++ [other]) ({[ id other ]} ∪ processed))
          as (extra & Hr & Hall).
        exists (other :: extra). split.
        -- rewrite Hr, <- app_assoc. reflexivity.
        -- constructor.
           ++ apply orb_false_iff in Hskip as [_ Hne].
              apply String.eqb_neq in Hne. repeat split; auto. left.
           ++ eapply Forall_impl; [exact Hall|]. cbn. intros x (? & ? & ?).
              repeat split; auto. right. assumption.
      * destruct (IH group processed) as (extra & Hr & Hall).
        exists extra. split; [exact Hr|].
        eapply Forall_impl; [exact Hall|]. cbn. intros x (? & ? & ?).
        repeat split; auto. right. assumption.
Qed.

Lemma groupsStep_fold messages l groups processed :
  (forall x, x ∈ l -> x ∈ messages) ->
  Forall (relatedGroup messages) groups ->
  Forall (relatedGroup messages)
         (fst (fold_left (groupsStep messages) l (groups, processed))).
Proof.
  revert groups processed.
  induction l as [|message l IH]; intros groups processed Hl Hgroups.
  - exact Hgroups.
  - cbn [fold_left].
    assert (Hl' : forall x, x ∈ l -> x ∈ messages) by (intros x Hx; apply Hl; right; exact Hx).
    unfold groupsStep at 2.
    destruct (bool_decide (id message ∈ processed)); [apply IH; assumption|].
    destruct (groupStep_fold message messages [message] ({[ id message ]} ∪ processed))
      as (extra & Hr & Hall).
    cbn zeta in Hr.
    destruct (fold_left (groupStep message) messages
                ([message], {[ id message ]} ∪ processed)) as [group processed'].
    cbn [fst] in Hr. subst group.
    destruct (1 <? Z.of_nat (length ([message] ++ extra))) eqn:Hlen;
      apply IH; try assumption.
    apply Forall_app. split; [assumption|].
    constructor; [|constructor].
    split.
    + apply Z.ltb_lt in Hlen. lia.
    + exists message, extra. split; [reflexivity|].
      split; [apply Hl; left | exact Hall].
Qed.

(** Two messages with equal content hashes, of which [deduplicate] removes
    one by the content-hash strategy, are not put in a group: equality of
    content hashes is not one of the relations of [areRelated]. *)
Lemma content_hash_pair_not_grouped :
  let input := [Scenario.hiPlain; Scenario.hiSpaced] in
  generateContentHash Scenario.hiPlain = generateContentHash Scenario.hiSpaced
  ∧ Methods.contentHash (deduplicationMethods (Result.stats (deduplicate input))) = 1
  ∧ areRelated Scenario.hiPlain Scenario.hiSpaced = false
  ∧ Groups.duplicateGroups (findPotentialDuplicates input) = [].
Proof. cbn zeta. repeat split; vm_compute; reflexivity. Qed.

End DedupFacts.

(* ===================================================================== *)
(** ** Properties of the mail cache *)
(* ===================================================================== *)

Module CacheFacts.
Import Cache.

(** *** Reads and the TTLs *)

Lemma getCachedMessageList_spec now cacheKey db :
  getCachedMessageList now cacheKey db =
  match message_lists db !! cacheKey with
  | Some row =>
    if now - l_cached_at row <? MESSAGE_LIST_TTL
    then Some (l_message_ids row, l_total_count row) else None
  | None => None
  end.
Proof.
  unfold getCachedMessageList. cbv zeta. destruct (message_lists db !! cacheKey) as [row|]; [|reflexivity].
  destruct (Z.ltb_spec (now - MESSAGE_LIST_TTL) (l_cached_at row)),
    (Z.ltb_spec (now - l_cached_at row) MESSAGE_LIST_TTL); try reflexivity; exfalso; lia.
Qed.

Lemma getCachedSearchResults_spec now query searchIn db :
  getCachedSearchResults now query searchIn db =
  match search_cache db !! (query, searchIn) with
  | Some row =>
    if now - s_cached_at row <? SEARCH_TTL then Some (s_result_ids row) else None
  | None => None
  end.
Proof.
  unfold getCachedSearchResults. cbv zeta.
  destruct (search_cache db !! (query, searchIn)) as [row|]; [|reflexivity].
  destruct (Z.ltb_spec (now - SEARCH_TTL) (s_cached_at row)),
    (Z.ltb_spec (now - s_cached_at row) SEARCH_TTL); try reflexivity; exfalso; lia.
Qed.

Lemma getCachedMessage_spec now id includeContent db :
  getCachedMessage now id includeContent db =
  match messages db !! id with
  | Some row =>
    if now - m_cached_at row
       <? (if includeContent then MESSAGE_CONTENT_TTL else MESSAGE_LIST_TTL)
    then Some (messageOfRow includeContent row) else None
  | None => None
  end.
Proof.
  unfold getCachedMessage. cbv zeta.
  destruct (messages db !! id) as [row|]; [|reflexivity].
  set (ttl := if includeContent then MESSAGE_CONTENT_TTL else MESSAGE_LIST_TTL).
  destruct (Z.ltb_spec (now - ttl) (m_cached_at row)),
    (Z.ltb_spec (now - m_cached_at row) ttl); try reflexivity; exfalso; lia.
Qed.

Lemma getCachedFolders_spec now db :
  match getCachedFolders now db with
  | None =>
    forall key row, folders db !! key = Some row -> FOLDER_TTL <= now - f_cached_at row
  | Some result =>
    result ≠ []
    ∧ forall folder,
        folder ∈ result <->
        exists key row, folders db !! key = Some row
                        ∧ now - f_cached_at row < FOLDER_TTL
                        ∧ folder = folderOfRow row
  end.
Proof.
  unfold getCachedFolders. cbv zeta.
  set (fresh := fun row => now - FOLDER_TTL < f_cached_at row).
  assert (Hin : forall row, row ∈ filter fresh (snd <$> map_to_list (folders db)) <->
                  exists key, folders db !! key = Some row
                              ∧ now - f_cached_at row < FOLDER_TTL).
  { intros row. rewrite list_elem_of_filter, list_elem_of_fmap. unfold fresh. split.
    - intros (Hf & [key row'] & -> & Hkv). apply elem_of_map_to_list in Hkv.
      exists key. cbn [snd] in *. split; [assumption | lia].
    - intros (key & Hk & Hf). split; [lia|].
      exists (key, row). split; [reflexivity|]. apply elem_of_map_to_list. exact Hk. }
  destruct (filter fresh (snd <$> map_to_list (folders db))) as [|row0 rows] eqn:E.
  - intros key row Hk.
    destruct (Z.le_gt_cases FOLDER_TTL (now - f_cached_at row)) as [|Hlt]; [assumption|].
    exfalso. assert (Hrow : row ∈ @nil FolderRow) by (apply Hin; exists key; split; [assumption | lia]).
    inversion Hrow.
  - split; [discriminate|].
    intros folder. rewrite list_elem_of_fmap. split.
    + intros (row & -> & Hrow). apply Hin in Hrow as (key & Hk & Hf).
      exists key, row. auto.
    + intros (key & row & Hk & Hf & ->). exists row. split; [reflexivity|].
      apply Hin. exists key. auto.
Qed.







(** *** cleanup *)

Section Cleanup.

Context {K : Type} `{Countable K} {R : Type} (cached_at : R -> Z).

Lemma lookup_retained (oneDayAgo : Z) (table : gmap K R) (key : K) :
  filter (fun kv : K * R => ¬ cached_at (snd kv) < oneDayAgo) table !! key =
  match table !! key with
  | Some row => if cached_at row <? oneDayAgo then None else Some row
  | None => None
  end.
Proof.
  destruct (table !! key) as [row|] eqn:Hk.
  - destruct (Z.ltb_spec (cached_at row) oneDayAgo) as [Hold|Hnew].
    + apply map_lookup_filter_None. right. intros row' Hk'.
      rewrite Hk in Hk'. injection Hk' as <-. cbn. lia.
    + apply map_lookup_filter_Some. split; [assumption|]. cbn. lia.
  - apply map_lookup_filter_None. left. assumption.
Qed.

End Cleanup.

(** C8. After [cleanup] at time [now], in each of the four tables a row
    whose [cached_at] is older than [now] minus one day is absent, and every
    other row is there unchanged; the horizon is the same 24 hours for the
    four tables, whatever their TTLs. *)
Theorem cleanup_retention (now : Z) (db : Tables) :
  let oneDayAgo := now - 86400000 in
  (forall key,
     folders (cleanup now db) !! key =
     match folders db !! key with
     | Some row => if f_cached_at row <? oneDayAgo then None else Some row
     | None => None
     end)
  ∧ (forall key,
       messages (cleanup now db) !! key =
       match messages db !! key with
       | Some row => if m_cached_at row <? oneDayAgo then None else Some row
       | None => None
       end)
  ∧ (forall key,
       message_lists (cleanup now db) !! key =
       match message_lists db !! key with
       | Some row => if l_cached_at row <? oneDayAgo then None else Some row
       | None => None
       end)
  ∧ (forall key,
       search_cache (cleanup now db) !! key =
       match search_cache db !! key with
       | Some row => if s_cached_at row <? oneDayAgo then None else Some row
       | None => None
       end).
Proof.
  cbv zeta. unfold cleanup. cbn.
  repeat split; intros key.
  - apply (lookup_retained f_cached_at).
  - apply (lookup_retained m_cached_at).
  - apply (lookup_retained l_cached_at).
  - apply (lookup_retained s_cached_at).
Qed.

(** *** Batch writes *)

Section Batch.

Variable fault : nat -> bool.
Variable commitFault : bool.
Context {R : Type} (ins : R -> Tables -> Tables).

(** Inside a transaction the statements of the loop change the pending
    tables only. *)
Lemma insertAll_pending k rows c w db :
  committed c = db -> pending c = Some w ->
  let r := insertAll fault ins k rows c in
  Forall (fun c' => committed c' = db) (trace r)
  ∧ committed (final r) = db
  ∧ is_Some (pending (final r))
  ∧ (outcome r = Returned -> pending (final r) = Some (allWritten ins rows w)).
Proof.
  revert k c w. induction rows as [|row rows IH]; intros k c w Hc Hp; cbn [insertAll].
  - cbn. rewrite Hp. repeat split; eauto.
  - destruct (fault k).
    + cbn. rewrite Hp. repeat split; eauto. discriminate.
    + assert (Hrun : run (ins row) c = {| committed := db; pending := Some (ins row w) |}).
      { unfold run. rewrite Hp, Hc. reflexivity. }
      rewrite Hrun.
      destruct (IH (S k) {| committed := db; pending := Some (ins row w) |} (ins row w)
                   eq_refl eq_refl) as (Htr & Hfin & Hsome & Hret).
      cbn zeta in *. cbn [outcome final trace].
      repeat split; auto.
Qed.

(** What any reader sees while and after a batch is written: the old
    tables up to the last statement, and after it either the old tables (the
    call threw) or the tables with every row written (the call returned). *)
Lemma transaction_atomic rows db :
  let r := transaction commitFault (insertAll fault ins 0 rows) db in
  (exists mid, trace r = mid ++ [final r]
               ∧ Forall (fun c => committed c = db) mid)
  ∧ pending (final r) = None
  ∧ committed (final r) =
      match outcome r with
      | Returned => allWritten ins rows db
      | Thrown => db
      end.
Proof.
  unfold transaction.
  destruct (insertAll_pending 0 rows (begin (idle db)) db db eq_refl eq_refl)
    as (Htr & Hfin & [w Hsome] & Hret).
  cbn zeta in *.
  set (r := insertAll fault ins 0 rows (begin (idle db))) in *.
  destruct (outcome r) eqn:Ho.
  - destruct commitFault; cbn [outcome final trace].
    + split; [|split; [reflexivity | exact Hfin]].
      exists (begin (idle db) :: trace r). split; [reflexivity|].
      constructor; [reflexivity | exact Htr].
    + split; [|split].
      * exists (begin (idle db) :: trace r). split; [reflexivity|].
        constructor; [reflexivity | exact Htr].
      * unfold commit. rewrite Hsome. reflexivity.
      * unfold commit. rewrite (Hret eq_refl). reflexivity.
  - cbn [outcome final trace].
    split; [|split; [reflexivity | exact Hfin]].
    exists (begin (idle db) :: trace r). split; [reflexivity|].
    constructor; [reflexivity | exact Htr].
Qed.

End Batch.

(** The tables with a batch written: under each key, the last row of the
    batch with that key, or the row that was there; the other tables are
    untouched. *)
Lemma allWritten_messages rows db :
  (forall key,
     messages (allWritten insertMessage rows db) !! key =
     match find (fun row => bool_decide (m_id row = key)) (rev rows) with
     | Some row => Some row
     | None => messages db !! key
     end)
  ∧ folders (allWritten insertMessage rows db) = folders db
  ∧ message_lists (allWritten insertMessage rows db) = message_lists db
  ∧ search_cache (allWritten insertMessage rows db) = search_cache db.
Proof.
  induction rows as [|row rows IH] using rev_ind.
  - cbn. auto.
  - destruct IH as (Hm & Hf & Hl & Hs).
    unfold allWritten in *. rewrite fold_left_app. cbn [fold_left].
    rewrite rev_app_distr. cbn [rev app find insertMessage folders messages
                                message_lists search_cache].
    repeat split; try assumption.
    intros key. destruct (decide (m_id row = key)) as [->|Hne].
    + rewrite bool_decide_eq_true_2 by reflexivity. apply lookup_insert_eq.
    + rewrite bool_decide_eq_false_2 by assumption.
      rewrite lookup_insert_ne by assumption. apply Hm.
Qed.

Lemma allWritten_folders rows db :
  (forall key,
     folders (allWritten insertFolder rows db) !! key =
     match find (fun row => bool_decide ((f_name row, f_account_name row) = key))
                (rev rows) with
     | Some row => Some row
     | None => folders db !! key
     end)
  ∧ messages (allWritten insertFolder rows db) = messages db
  ∧ message_lists (allWritten insertFolder rows db) = message_lists db
  ∧ search_cache (allWritten insertFolder rows db) = search_cache db.
Proof.
  induction rows as [|row rows IH] using rev_ind.
  - cbn. auto.
  - destruct IH as (Hf & Hm & Hl & Hs).
    unfold allWritten in *. rewrite fold_left_app. cbn [fold_left].
    rewrite rev_app_distr. cbn [rev app find insertFolder folders messages
                                message_lists search_cache].
    repeat split; try assumption.
    intros key. destruct (decide ((f_name row, f_account_name row) = key)) as [<-|Hne].
    + rewrite bool_decide_eq_true_2 by reflexivity. apply lookup_insert_eq.
    + rewrite bool_decide_eq_false_2 by assumption.
      rewrite lookup_insert_ne by assumption. apply Hf.
Qed.

(** C7. Whatever statement of a batch throws, [cacheMessages] and
    [cacheFolders] are atomic: every state of the database that a reader can
    see before the last statement of the call shows the tables as they were,
    and the state after it shows either the tables with every row of the
    batch written, when the call returns, or the tables as they were, when it
    throws; no transaction is left open. With the batch written, each key of
    the batch holds the last row of the batch for that key. *)
Theorem batch_write_atomic (fault : nat -> bool) (commitFault : bool) (db : Tables) :
  (forall (clock : nat -> Z) (batch : list MailMessage.t),
     let r := cacheMessages fault commitFault clock batch db in
     let rows := stampedRows clock batch in
     (exists mid, trace r = mid ++ [final r]
                  ∧ Forall (fun c => committed c = db) mid)
     ∧ pending (final r) = None
     ∧ committed (final r) =
         match outcome r with
         | Returned => allWritten insertMessage rows db
         | Thrown => db
         end
     ∧ forall key,
         messages (allWritten insertMessage rows db) !! key =
         match find (fun row => bool_decide (m_id row = key)) (rev rows) with
         | Some row => Some row
         | None => messages db !! key
         end)
  ∧ (forall (now : Z) (batch : list MailFolder.t),
       let r := cacheFolders fault commitFault now batch db in
       let rows := folderRow now <$> batch in
       (exists mid, trace r = mid ++ [final r]
                    ∧ Forall (fun c => committed c = db) mid)
       ∧ pending (final r) = None
       ∧ committed (final r) =
           match outcome r with
           | Returned => allWritten insertFolder rows db
           | Thrown => db
           end
       ∧ forall key,
           folders (allWritten insertFolder rows db) !! key =
           match find (fun row => bool_decide ((f_name row, f_account_name row) = key))
                      (rev rows) with
           | Some row => Some row
           | None => folders db !! key
           end).
Proof.
  split.
  - intros clock batch r rows.
    destruct (transaction_atomic fault commitFault insertMessage rows db)
      as (Htr & Hp & Hc).
    destruct (allWritten_messages rows db) as (Hm & _).
    repeat split; assumption.
  - intros now batch r rows.
    destruct (transaction_atomic fault commitFault insertFolder rows db)
      as (Htr & Hp & Hc).
    destruct (allWritten_folders rows db) as (Hf & _).
    repeat split; assumption.
Qed.

(** A batch of two messages whose second INSERT throws: nothing is written;
    and the same batch without a fault: both messages are read back. *)
Example cacheMessages_second_insert_throws :
  let other :=
    {| MailMessage.id := "m2"; MailMessage.subject := "Re: Hi";
       MailMessage.sender := "b@y.com"; MailMessage.senderName := None;
       MailMessage.recipients := ["a@x.com"];
       MailMessage.dateSent := "2024-01-15T11:00:00.000Z";
       MailMessage.dateReceived := "2024-01-15T11:00:02.000Z";
       MailMessage.content := Some "Hello back"; MailMessage.snippet := None;
       MailMessage.mailbox := "INBOX"; MailMessage.accountName := "work";
       MailMessage.isRead := false; MailMessage.isFlagged := false;
       MailMessage.hasAttachments := false |} in
  let failing :=
    cacheMessages (fun k => Nat.eqb k 1) false (fun _ => 1000)
      [sampleMessage; other] emptyTables in
  let passing :=
    cacheMessages (fun _ => false) false (fun _ => 1000)
      [sampleMessage; other] emptyTables in
  outcome failing = Thrown
  ∧ getCachedMessage 1000 "m1" true (committed (final failing)) = None
  ∧ getCachedMessage 1000 "m2" true (committed (final failing)) = None
  ∧ outcome passing = Returned
  ∧ getCachedMessage 1000 "m1" true (committed (final passing)) = Some sampleMessage
  ∧ getCachedMessage 1000 "m2" true (committed (final passing)) = Some other.
Proof. cbn zeta. repeat split; vm_compute; reflexivity. Qed.

End CacheFacts.

(* ===================================================================== *)
(** ** Further properties of the deduplicator *)
(* ===================================================================== *)

Module DedupMore.
Import Dedup DedupSpec DedupFacts.

(** *** The output as a part of the sorted input *)

Lemma insertByDate_perm m l : insertByDate m l ≡ₚ m :: l.
Proof.
  induction l as [|x l IH]; cbn; [reflexivity|].
  destruct (date x <=? date m); [reflexivity|].
  rewrite IH. apply Permutation_swap.
Qed.

Lemma sortByDateDesc_perm l : sortByDateDesc l ≡ₚ l.
Proof.
  induction l as [|m l IH]; cbn; [reflexivity|].
  rewrite insertByDate_perm, IH. reflexivity.
Qed.

Lemma retained_sublist st l : retained st l `sublist_of` l.
Proof.
  revert st. induction l as [|m l IH]; intros st; cbn; [constructor|].
  destruct (firstMatch st m); [apply sublist_cons | apply sublist_skip]; apply IH.
Qed.

(** X1. The unique messages are newest first; they are the stably sorted
    input with some messages left out, in the same order, so every unique
    message is a message of the input. *)
Theorem deduplicate_output_order (messages : list UnifiedMessage) :
  let unique := Result.uniqueMessages (deduplicate messages) in
  descending unique
  ∧ unique `sublist_of` sortByDateDesc messages
  ∧ sortByDateDesc messages ≡ₚ messages
  ∧ Forall (fun m => m ∈ messages) unique.
Proof.
  cbn zeta. rewrite deduplicate_unique.
  split; [apply retained_descending, sortByDateDesc_descending|].
  split; [apply retained_sublist|].
  split; [apply sortByDateDesc_perm|].
  apply Forall_forall. intros m Hm.
  apply retained_subset in Hm. rewrite sortByDateDesc_perm in Hm. exact Hm.
Qed.

(** *** The counts by source *)

Lemma scanStep_bySource sc m :
  bySource (scanStats (scanStep sc m)) =
  if isMacMail m
  then {| macMail := macMail (bySource (scanStats sc)) + 1;
          imap := imap (bySource (scanStats sc)) |}
  else {| macMail := macMail (bySource (scanStats sc));
          imap := imap (bySource (scanStats sc)) + 1 |}.
Proof.
  rewrite scanStep_stats. unfold bumpSource, isMacMail. cbn [bySource].
  destruct (isDuplicate_counters (scanState sc) m (scanStats sc))
    as (_ & _ & _ & _ & _ & Hs).
  cbn zeta in Hs. rewrite Hs. destruct (source m); reflexivity.
Qed.

Lemma scan_bySource l sc :
  let sc' := fold_left scanStep l sc in
  macMail (bySource (scanStats sc')) =
    macMail (bySource (scanStats sc))
    + Z.of_nat (length (filter (fun m => isMacMail m = true) l))
  ∧ imap (bySource (scanStats sc')) =
    imap (bySource (scanStats sc))
    + Z.of_nat (length (filter (fun m => isMacMail m = false) l)).
Proof.
  revert sc. induction l as [|m l IH]; intros sc; cbn [fold_left].
  - cbn. lia.
  - destruct (IH (scanStep sc m)) as [H1 H2]. cbn zeta in *.
    rewrite H1, H2, scanStep_bySource, !filter_cons.
    destruct (isMacMail m) eqn:Hm; cbn [macMail imap].
    + rewrite decide_True by reflexivity. rewrite decide_False by discriminate.
      cbn [length]. lia.
    + rewrite decide_False by discriminate. rewrite decide_True by reflexivity.
      cbn [length]. lia.
Qed.

Lemma isMacMail_partition (l : list UnifiedMessage) :
  (length (filter (fun m => isMacMail m = true) l)
   + length (filter (fun m => isMacMail m = false) l) = length l)%nat.
Proof.
  induction l as [|m l IH]; [reflexivity|].
  rewrite !filter_cons. destruct (isMacMail m).
  - rewrite decide_True by reflexivity. rewrite decide_False by discriminate.
    cbn [length]. lia.
  - rewrite decide_False by discriminate. rewrite decide_True by reflexivity.
    cbn [length]. lia.
Qed.

(** X2. [bySource] counts the messages of the input by their source,
    the duplicates included: [macMail] is the number of input messages whose
    source is mac-mail, [imap] the number of all others, and the two add up
    to [totalMessages]. *)
Theorem deduplicate_bySource (messages : list UnifiedMessage) :
  let stats := Result.stats (deduplicate messages) in
  macMail (bySource stats) =
    Z.of_nat (length (filter (fun m => isMacMail m = true) messages))
  ∧ imap (bySource stats) =
    Z.of_nat (length (filter (fun m => isMacMail m = false) messages))
  ∧ macMail (bySource stats) + imap (bySource stats) = totalMessages stats.
Proof.
  cbn zeta.
  destruct (scan_bySource (sortByDateDesc messages)
    {| scanUnique := []; scanState := reset; scanStats := initialStats messages |})
    as [H1 H2].
  cbn zeta in H1, H2.
  rewrite (filter_sortByDateDesc_length (fun m => isMacMail m = true)) in H1.
  rewrite (filter_sortByDateDesc_length (fun m => isMacMail m = false)) in H2.
  destruct (deduplicate_counts messages) as (Htot & _).
  cbn zeta in Htot. rewrite Htot.
  unfold deduplicate. cbn [Result.stats bySource]. rewrite H1, H2. cbn.
  pose proof (isMacMail_partition messages). repeat split; lia.
Qed.

(** *** The newest message *)

Lemma firstMatch_reset m : firstMatch reset m = false.
Proof.
  rewrite <- (isDuplicate_fst reset m (initialStats [])), isDuplicate_reset.
  reflexivity.
Qed.

(** X3. The unique output is empty only for the empty input. Otherwise its
    first message is the first message of the sorted input, which is a
    message of the input that no other is newer than: the newest message is
    always kept. *)
Theorem deduplicate_keeps_newest (messages : list UnifiedMessage) :
  match Result.uniqueMessages (deduplicate messages) with
  | [] => messages = []
  | newest :: _ =>
    head (sortByDateDesc messages) = Some newest
    ∧ newest ∈ messages
    ∧ Forall (fun m => date m <= date newest) messages
  end.
Proof.
  rewrite deduplicate_unique.
  pose proof (sortByDateDesc_perm messages) as Hperm.
  pose proof (sortByDateDesc_descending messages) as Hdesc.
  destruct (sortByDateDesc messages) as [|m l] eqn:E.
  - cbn. symmetry in Hperm. apply Permutation_nil_r in Hperm. exact Hperm.
  - cbn [retained]. rewrite firstMatch_reset.
    split; [reflexivity|]. split.
    + rewrite <- Hperm. left.
    + rewrite <- Hperm. inversion Hdesc as [|? ? _ Hall]; subst.
      constructor; [lia | exact Hall].
Qed.

(** *** No two kept messages share an exact key *)

Lemma firstMatch_false st m :
  firstMatch st m = false ->
  globalIdSeen st m = false ∧ messageIdSeen st m = false
  ∧ contentHashSeen st m = false ∧ fuzzySeen st m = false.
Proof.
  unfold firstMatch. intros H.
  apply orb_false_iff in H as [H H4]. apply orb_false_iff in H as [H H3].
  apply orb_false_iff in H as [H1 H2]. auto.
Qed.

Lemma recordMessage_contentHashes st m x :
  x ∈ seenContentHashes (recordMessage st m) <->
  x = generateContentHash m ∨ x ∈ seenContentHashes st.
Proof. cbn. set_solver. Qed.

Lemma recordMessage_globalIds_iff st m g :
  g ∈ seenGlobalIds (recordMessage st m) <->
  (globalMessageId m = Some g ∧ g ≠ 0) ∨ g ∈ seenGlobalIds st.
Proof.
  cbn. destruct (globalMessageId m) as [g'|].
  - destruct (JS.truthyNumber g') eqn:Hg'.
    + apply truthyNumber_true in Hg'. rewrite elem_of_union, elem_of_singleton.
      split; [intros [->|?]; auto | intros [[[= ->] _]|?]; auto].
    + split; [auto | intros [[[= ->] Hg]|?]; [|assumption]].
      apply truthyNumber_true in Hg. congruence.
  - split; [auto | intros [[? _]|?]; [discriminate | assumption]].
Qed.

Lemma recordMessage_messageIds_iff st m h :
  h ∈ seenMessageIds (recordMessage st m) <->
  (messageIdHeader m = Some h ∧ h ≠ EmptyString) ∨ h ∈ seenMessageIds st.
Proof.
  cbn. destruct (messageIdHeader m) as [h'|].
  - destruct (JS.truthyString h') eqn:Hh'.
    + apply truthyString_true in Hh'. rewrite elem_of_union, elem_of_singleton.
      split; [intros [->|?]; auto | intros [[[= ->] _]|?]; auto].
    + split; [auto | intros [[[= ->] Hh]|?]; [|assumption]].
      apply truthyString_true in Hh. congruence.
  - split; [auto | intros [[? _]|?]; [discriminate | assumption]].
Qed.

(** A message that is kept was not in the indexes by any exact key. *)
Lemma retained_fresh st l b :
  b ∈ retained st l ->
  (generateContentHash b ∉ seenContentHashes st)
  ∧ (forall g, globalMessageId b = Some g -> g ≠ 0 -> g ∉ seenGlobalIds st)
  ∧ (forall h, messageIdHeader b = Some h -> h ≠ EmptyString -> h ∉ seenMessageIds st).
Proof.
  revert st. induction l as [|m l IH]; intros st; cbn.
  - intros H. inversion H.
  - destruct (firstMatch st m) eqn:Hm; [apply IH|].
    intros H. apply elem_of_cons in H as [->|H].
    + apply firstMatch_false in Hm as (Hg & Hh & Hc & _).
      split; [|split].
      * unfold contentHashSeen in Hc. apply bool_decide_eq_false_1 in Hc. exact Hc.
      * intros g Hgid Hnz Hin. rewrite (globalIdSeen_true st m g) in Hg by assumption.
        discriminate.
      * intros h Hhd Hne Hin. unfold messageIdSeen in Hg, Hh. rewrite Hhd in Hh.
        apply truthyString_true in Hne. rewrite Hne in Hh. cbn in Hh.
        apply bool_decide_eq_false_1 in Hh. contradiction.
    + destruct (IH _ H) as (Hc & Hg & Hh). split; [|split].
      * intros Hin. apply Hc, recordMessage_contentHashes. auto.
      * intros g Hgid Hnz Hin. apply (Hg g Hgid Hnz).
        apply recordMessage_globalIds_iff. auto.
      * intros h Hhd Hne Hin. apply (Hh h Hhd Hne).
        apply recordMessage_messageIds_iff. auto.
Qed.

Lemma retained_pairwise (R : UnifiedMessage -> UnifiedMessage -> Prop) :
  (forall st m b l, firstMatch st m = false ->
                    b ∈ retained (recordMessage st m) l -> R m b) ->
  forall st l (i j : nat) a b,
    (i < j)%nat -> retained st l !! i = Some a -> retained st l !! j = Some b ->
    R a b.
Proof.
  intros HR st l. revert st. induction l as [|m l IH]; intros st i j a b Hij; cbn.
  - intros H. inversion H.
  - destruct (firstMatch st m) eqn:Hm; [apply IH; assumption|].
    destruct i as [|i], j as [|j]; try lia; cbn.
    + intros [= <-] Hb. eapply HR; [exact Hm|]. eapply list_elem_of_lookup_2. exact Hb.
    + apply IH. lia.
Qed.

Lemma retained_distinct st l (i j : nat) a b :
  (i < j)%nat -> retained st l !! i = Some a -> retained st l !! j = Some b ->
  generateContentHash a ≠ generateContentHash b
  ∧ (forall g, globalMessageId a = Some g -> globalMessageId b = Some g -> g = 0)
  ∧ (forall h, messageIdHeader a = Some h -> messageIdHeader b = Some h ->
               h = EmptyString).
Proof.
  apply (retained_pairwise (fun a b =>
    generateContentHash a ≠ generateContentHash b
    ∧ (forall g, globalMessageId a = Some g -> globalMessageId b = Some g -> g = 0)
    ∧ (forall h, messageIdHeader a = Some h -> messageIdHeader b = Some h ->
                 h = EmptyString))).
  clear. intros st m b l _ Hb.
  destruct (retained_fresh _ _ _ Hb) as (Hc & Hg & Hh). split; [|split].
  - intros Heq. apply Hc, recordMessage_contentHashes. auto.
  - intros g Hm Hbg. destruct (Z.eq_dec g 0) as [|Hnz]; [assumption|].
    exfalso. apply (Hg g Hbg Hnz). apply recordMessage_globalIds_iff. auto.
  - intros h Hm Hbh. destruct (String.string_dec h EmptyString) as [|Hne]; [assumption|].
    exfalso. apply (Hh h Hbh Hne). apply recordMessage_messageIds_iff. auto.
Qed.

(** X4. Two messages at different places of the unique output have different
    content hashes, do not carry the same global id unless it is 0, and do
    not carry the same Message-ID header unless it is empty. *)
Theorem unique_messages_distinct (messages : list UnifiedMessage) (i j : nat)
    (a b : UnifiedMessage) :
  i ≠ j ->
  Result.uniqueMessages (deduplicate messages) !! i = Some a ->
  Result.uniqueMessages (deduplicate messages) !! j = Some b ->
  generateContentHash a ≠ generateContentHash b
  ∧ (forall g, globalMessageId a = Some g -> globalMessageId b = Some g -> g = 0)
  ∧ (forall h, messageIdHeader a = Some h -> messageIdHeader b = Some h ->
               h = EmptyString).
Proof.
  rewrite deduplicate_unique. intros Hij Ha Hb.
  destruct (Nat.lt_total i j) as [Hlt | [Heq | Hgt]]; [|contradiction|].
  - eapply retained_distinct; eassumption.
  - destruct (retained_distinct _ _ _ _ _ _ Hgt Hb Ha) as (Hc & Hg & Hh).
    split; [congruence|]. split; eauto.
Qed.

Lemma unique_messages_distinct_witness :
  generateContentHash Scenario.budget ≠ generateContentHash Scenario.reBudget.
Proof.
  apply (unique_messages_distinct [Scenario.reBudget; Scenario.budget] 0 1
           Scenario.budget Scenario.reBudget).
  - lia.
  - vm_compute. reflexivity.
  - vm_compute. reflexivity.
Defined.

(** *** Every dropped message has a kept counterpart *)

Lemma backedBy_reset : backedBy reset [].
Proof.
  unfold backedBy, reset. cbn.
  repeat split; try set_solver;
    intros k r H; rewrite lookup_empty in H; discriminate.
Qed.

Lemma recordMessage_fuzzyMatches st m :
  fuzzyMatches (recordMessage st m) = <[ generateFuzzyKey m := m ]> (fuzzyMatches st).
Proof. reflexivity. Qed.

Lemma backedBy_record st kept m :
  backedBy st kept -> backedBy (recordMessage st m) (m :: kept).
Proof.
  intros (Hg & Hh & Hc & Hf). split; [|split; [|split]].
  - intros g Hin. apply recordMessage_globalIds_iff in Hin as [[Hm Hnz]|Hin].
    + split; [assumption|]. exists m. split; [left | assumption].
    + destruct (Hg g Hin) as (Hnz & r & Hr & Hrg). split; [assumption|].
      exists r. split; [right|]; assumption.
  - intros h Hin. apply recordMessage_messageIds_iff in Hin as [[Hm Hne]|Hin].
    + split; [assumption|]. exists m. split; [left | assumption].
    + destruct (Hh h Hin) as (Hne & r & Hr & Hrh). split; [assumption|].
      exists r. split; [right|]; assumption.
  - intros x Hin. apply recordMessage_contentHashes in Hin as [->|Hin].
    + exists m. split; [left | reflexivity].
    + destruct (Hc x Hin) as (r & Hr & Hrx). exists r. split; [right|]; assumption.
  - intros k r Hk. rewrite recordMessage_fuzzyMatches in Hk.
    apply lookup_insert_Some in Hk as [[<- <-]|[Hne Hk]].
    + split; [left | reflexivity].
    + destruct (Hf k r Hk) as [Hr Hrk]. split; [right|]; assumption.
Qed.

Lemma firstMatch_accounted st kept m :
  backedBy st kept -> firstMatch st m = true ->
  exists r, r ∈ kept ∧ accountsFor r m.
Proof.
  intros (Hg & Hh & Hc & Hf) Hm. unfold firstMatch in Hm.
  destruct (globalIdSeen st m) eqn:E1.
  { unfold globalIdSeen in E1. destruct (globalMessageId m) as [g|] eqn:Eg; [|discriminate].
    apply andb_true_iff in E1 as [Hnz Hin]. apply bool_decide_eq_true_1 in Hin.
    destruct (Hg g Hin) as (Hnz' & r & Hr & Hrg).
    exists r. split; [assumption|]. left. exists g. auto. }
  destruct (messageIdSeen st m) eqn:E2.
  { unfold messageIdSeen in E2. destruct (messageIdHeader m) as [h|] eqn:Eh; [|discriminate].
    apply andb_true_iff in E2 as [Hne Hin]. apply bool_decide_eq_true_1 in Hin.
    destruct (Hh h Hin) as (Hne' & r & Hr & Hrh).
    exists r. split; [assumption|]. right. left. exists h. auto. }
  destruct (contentHashSeen st m) eqn:E3.
  { unfold contentHashSeen in E3. apply bool_decide_eq_true_1 in E3.
    destruct (Hc _ E3) as (r & Hr & Hrx).
    exists r. split; [assumption|]. right. right. left. symmetry. exact Hrx. }
  cbn in Hm. unfold fuzzySeen in Hm.
  destruct (fuzzyMatches st !! generateFuzzyKey m) as [r|] eqn:Ef; [|discriminate].
  destruct (Hf _ _ Ef) as [Hr Hrk].
  exists r. split; [assumption|]. right. right. right. split; [symmetry|]; assumption.
Qed.

Lemma retained_complete st kept l :
  backedBy st kept -> descending l ->
  (forall r m, r ∈ kept -> m ∈ l -> date m <= date r) ->
  forall m, m ∈ l ->
    m ∈ retained st l
    ∨ exists r, (r ∈ kept ∨ r ∈ retained st l) ∧ date m <= date r ∧ accountsFor r m.
Proof.
  intros Hst Hdesc. revert st kept Hst.
  induction Hdesc as [|m0 l Hdesc IH Hall]; intros st kept Hst Hdates m Hm.
  - inversion Hm.
  - cbn [retained]. destruct (firstMatch st m0) eqn:Hm0.
    + apply elem_of_cons in Hm as [->|Hm].
      * destruct (firstMatch_accounted _ _ _ Hst Hm0) as (r & Hr & Hacc).
        right. exists r. split; [auto|]. split; [|assumption].
        apply Hdates; [assumption | left].
      * apply (IH st kept Hst); [|assumption].
        intros r m' Hr Hm'. apply Hdates; [assumption | right; assumption].
    + apply elem_of_cons in Hm as [->|Hm]; [left; left|].
      assert (Hdates' : forall r m', r ∈ m0 :: kept -> m' ∈ l -> date m' <= date r).
      { intros r m' Hr Hm'. apply elem_of_cons in Hr as [->|Hr].
        - rewrite Forall_forall in Hall. apply Hall. assumption.
        - apply Hdates; [assumption | right; assumption]. }
      destruct (IH _ _ (backedBy_record _ _ m0 Hst) Hdates' m Hm)
        as [Hkept | (r & Hr & Hd & Hacc)].
      * left. right. assumption.
      * right. exists r. split; [|auto].
        destruct Hr as [Hr|Hr]; [|right; right; assumption].
        apply elem_of_cons in Hr as [->|Hr]; [right; left | left; assumption].
Qed.

(** X5. A message of the input that is not in the unique output has a
    counterpart that is: a unique message at least as recent, which shares
    its non-zero global id, or its non-empty Message-ID header, or its
    content hash, or shares its fuzzy key and passes the pairwise fuzzy check
    with it. No message is dropped without such a counterpart. *)
Theorem dropped_message_has_counterpart (messages : list UnifiedMessage)
    (m : UnifiedMessage) :
  m ∈ messages ->
  m ∈ Result.uniqueMessages (deduplicate messages)
  ∨ exists r, r ∈ Result.uniqueMessages (deduplicate messages)
              ∧ date m <= date r ∧ accountsFor r m.
Proof.
  intros Hm. rewrite deduplicate_unique.
  rewrite <- sortByDateDesc_perm in Hm.
  destruct (retained_complete reset [] (sortByDateDesc messages) backedBy_reset
              (sortByDateDesc_descending messages)
              (fun r m' Hr _ => match not_elem_of_nil r Hr with end) m Hm)
    as [Hkept | (r & [Hr|Hr] & Hd & Hacc)].
  - left. assumption.
  - inversion Hr.
  - right. exists r. auto.
Qed.

Lemma dropped_message_has_counterpart_witness :
  exists r, r ∈ Result.uniqueMessages (deduplicate [Scenario.hiEarly; Scenario.hiLate])
            ∧ date Scenario.hiEarly <= date r ∧ accountsFor r Scenario.hiEarly.
Proof.
  destruct (dropped_message_has_counterpart [Scenario.hiEarly; Scenario.hiLate]
              Scenario.hiEarly ltac:(left)) as [Hkept | Hr].
  - exfalso. vm_compute in Hkept.
    apply elem_of_cons in Hkept as [Hkept|Hkept]; [discriminate Hkept | inversion Hkept].
  - exact Hr.
Defined.

(** *** The content hash as a polynomial *)

Lemma toInt32_range x : -2147483648 <= JS.toInt32 x < 2147483648.
Proof.
  unfold JS.toInt32.
  pose proof (Z.mod_pos_bound (x + 2147483648) 4294967296 ltac:(lia)). lia.
Qed.

Lemma toInt32_congr x y :
  JS.toInt32 x = JS.toInt32 y <-> x mod 4294967296 = y mod 4294967296.
Proof.
  unfold JS.toInt32. split; intros H.
  - assert (H' : (x + 2147483648) mod 4294967296 = (y + 2147483648) mod 4294967296)
      by lia.
    rewrite <- (Z.add_simpl_r x 2147483648), <- (Z.add_simpl_r y 2147483648).
    rewrite Zminus_mod, H', <- Zminus_mod. reflexivity.
  - rewrite <- Zplus_mod_idemp_l, H, Zplus_mod_idemp_l. reflexivity.
Qed.

Lemma toInt32_mod x : JS.toInt32 x mod 4294967296 = x mod 4294967296.
Proof.
  unfold JS.toInt32. rewrite Zminus_mod, Zmod_mod, <- Zminus_mod.
  rewrite Z.add_simpl_r. reflexivity.
Qed.

Lemma hashStep_poly H c :
  hashStep (JS.toInt32 H) c = JS.toInt32 (H * 31 + JS.charCode c).
Proof.
  unfold hashStep. apply toInt32_congr.
  rewrite Z.shiftl_mul_pow2 by lia. change (2 ^ 5) with 32.
  set (h := JS.toInt32 H).
  rewrite Zplus_mod, Zminus_mod, toInt32_mod, <- Zminus_mod, <- Zplus_mod.
  replace (h * 32 - h + JS.charCode c) with (h * 31 + JS.charCode c) by lia.
  rewrite Zplus_mod, Zmult_mod. subst h. rewrite toInt32_mod.
  rewrite <- Zmult_mod, <- Zplus_mod. reflexivity.
Qed.

Lemma hash_fold_poly l H :
  fold_left hashStep l (JS.toInt32 H) =
  JS.toInt32 (fold_left (fun h c => h * 31 + JS.charCode c) l H).
Proof.
  revert H. induction l as [|c l IH]; intros H; cbn [fold_left]; [reflexivity|].
  rewrite hashStep_poly. apply IH.
Qed.

(** X6. The number that [generateContentHash] prints is the polynomial
    [c0 * 31^(n-1) + ... + c(n-1)] of the character codes of the content,
    wrapped to a signed 32-bit integer; two contents have the same hash
    exactly when their polynomials are congruent modulo 2^32. *)
Theorem contentHash_is_polynomial (content content' : string) :
  hashString content = JS.toInt32 (polyHash (JS.chars content))
  ∧ -2147483648 <= hashString content < 2147483648
  ∧ (hashString content = hashString content' <->
     polyHash (JS.chars content) mod 4294967296
     = polyHash (JS.chars content') mod 4294967296).
Proof.
  assert (Hpoly : forall c, hashString c = JS.toInt32 (polyHash (JS.chars c))).
  { intros c. unfold hashString, polyHash.
    change 0 with (JS.toInt32 0) at 1. apply hash_fold_poly. }
  split; [apply Hpoly|]. split.
  - rewrite Hpoly. apply toInt32_range.
  - rewrite !Hpoly. apply toInt32_congr.
Qed.

(** *** The range of the similarity *)

Lemma levenshtein_le_max a b :
  levenshtein a b <= Z.max (Z.of_nat (length a)) (Z.of_nat (length b)).
Proof.
  revert b. induction a as [|x a IHa]; intros b.
  - cbn. lia.
  - destruct b as [|y b].
    + rewrite levenshtein_nil_r. lia.
    + rewrite levenshtein_cons. pose proof (IHa b). pose proof (cost_range x y).
      cbn [length]. lia.
Qed.

Lemma levenshtein_zero a b : levenshtein a b = 0 -> a = b.
Proof.
  revert b. induction a as [|x a IHa]; intros b H.
  - cbn in H. destruct b; [reflexivity | cbn in H; lia].
  - destruct b as [|y b].
    + rewrite levenshtein_nil_r in H. cbn in H. lia.
    + rewrite levenshtein_cons in H.
      pose proof (levenshtein_nonneg (x :: a) b).
      pose proof (levenshtein_nonneg a (y :: b)).
      pose proof (levenshtein_nonneg a b).
      pose proof (cost_range x y).
      assert (Hab : levenshtein a b = 0) by lia.
      assert (Hc : cost x y = 0) by lia.
      unfold cost in Hc. destruct (Ascii.eqb_spec x y); [|discriminate].
      subst y. f_equal. apply IHa, Hab.
Qed.

Lemma Qdiv_inject (n m : Z) :
  0 < m -> (inject_Z n / inject_Z m == n # Z.to_pos m)%Q.
Proof.
  intros Hm. unfold Qdiv, Qinv, Qmult, inject_Z, Qeq.
  destruct m as [|p|p]; try lia. cbn. lia.
Qed.

Lemma str_inj l1 l2 : JS.str l1 = JS.str l2 -> l1 = l2.
Proof.
  unfold JS.str. intros H.
  rewrite <- (list_ascii_of_string_of_list_ascii l1),
          <- (list_ascii_of_string_of_list_ascii l2), H. reflexivity.
Qed.

(** X7. The similarity of two strings is between 0 and 1, and it is 1
    exactly when the two strings are equal up to letter case. *)
Theorem similarity_range (str1 str2 : string) :
  (0 <= calculateSimilarity str1 str2)%Q
  ∧ (calculateSimilarity str1 str2 <= 1)%Q
  ∧ ((calculateSimilarity str1 str2 == 1)%Q <->
     JS.toLowerCase str1 = JS.toLowerCase str2).
Proof.
  unfold calculateSimilarity, JS.toLowerCase. cbv zeta.
  generalize (JS.lowerChars (JS.chars str1)) as s1.
  generalize (JS.lowerChars (JS.chars str2)) as s2.
  intros s2 s1.
  destruct (decide (s1 = s2)) as [E|N].
  { subst. repeat split; try reflexivity; unfold Qle; cbn; lia. }
  assert (Hno : JS.str s1 = JS.str s2 -> False) by (intros H; apply N, str_inj, H).
  destruct ((length s1 =? 0)%nat || (length s2 =? 0)%nat) eqn:Hz.
  { split; [unfold Qle; cbn; lia|]. split; [unfold Qle; cbn; lia|].
    split; [intros H; unfold Qeq in H; cbn in H; lia | intros H; contradiction]. }
  apply orb_false_iff in Hz as [Hz1 Hz2].
  apply Nat.eqb_neq in Hz1, Hz2.
  rewrite levMatrix_levenshtein.
  set (M := Z.max (Z.of_nat (length s1)) (Z.of_nat (length s2))).
  assert (HM : 0 < M) by (subst M; lia).
  pose proof (levenshtein_le_max s1 s2) as Hle. fold M in Hle.
  pose proof (levenshtein_nonneg s1 s2) as Hge.
  rewrite Qdiv_inject by assumption.
  assert (Hpos : Z.pos (Z.to_pos M) = M) by (apply Z2Pos.id; lia).
  split; [unfold Qle; cbn; lia|].
  split; [unfold Qle; cbn; lia|].
  split.
  - intros H. unfold Qeq in H. cbn in H.
    exfalso. apply N, levenshtein_zero. lia.
  - intros H. contradiction.
Qed.

(** *** Messages that differ by letter case only *)

Lemma toLowerCase_chars s1 s2 :
  JS.toLowerCase s1 = JS.toLowerCase s2 ->
  JS.lowerChars (JS.chars s1) = JS.lowerChars (JS.chars s2).
Proof. unfold JS.toLowerCase. apply str_inj. Qed.

(** X8. Two messages with the same date whose subjects, senders and
    accounts are equal up to letter case have the same content hash and the
    same fuzzy key, and pass the pairwise fuzzy check: letter case never
    separates two messages. *)
Theorem case_insensitive_duplicates (m1 m2 : UnifiedMessage) :
  JS.toLowerCase (subject m1) = JS.toLowerCase (subject m2) ->
  JS.toLowerCase (from m1) = JS.toLowerCase (from m2) ->
  JS.toLowerCase (account m1) = JS.toLowerCase (account m2) ->
  date m1 = date m2 ->
  generateContentHash m1 = generateContentHash m2
  ∧ generateFuzzyKey m1 = generateFuzzyKey m2
  ∧ isFuzzyMatch m1 m2 = true.
Proof.
  intros Hs Hf Ha Hd. split; [|split].
  - unfold generateContentHash, contentParts. rewrite Hs, Hf, Ha, Hd. reflexivity.
  - unfold generateFuzzyKey, normalizeSubject, normalizeSender.
    rewrite (toLowerCase_chars _ _ Hs), (toLowerCase_chars _ _ Hf), Hd. reflexivity.
  - unfold isFuzzyMatch, normalizeSender, calculateSimilarity.
    rewrite (toLowerCase_chars _ _ Hs), (toLowerCase_chars _ _ Hf), Hd.
    rewrite String.eqb_refl, decide_True by reflexivity.
    rewrite Z.sub_diag. reflexivity.
Qed.

Lemma case_insensitive_duplicates_witness :
  generateContentHash (Scenario.msg "u" None None "HELLO" "Ann@X.com" Scenario.T)
  = generateContentHash (Scenario.msg "l" (Some 5) None "hello" "ann@x.COM" Scenario.T).
Proof.
  apply (case_insensitive_duplicates
           (Scenario.msg "u" None None "HELLO" "Ann@X.com" Scenario.T)
           (Scenario.msg "l" (Some 5) None "hello" "ann@x.COM" Scenario.T));
    reflexivity.
Defined.

(** *** The normalized sender *)

Lemma chars_str l : JS.chars (JS.str l) = l.
Proof. apply list_ascii_of_string_of_list_ascii. Qed.

Lemma lowerChar_idempotent c : JS.lowerChar (JS.lowerChar c) = JS.lowerChar c.
Proof. destruct c as [[] [] [] [] [] [] [] []]; reflexivity. Qed.

Lemma afterGt_Forall (P : ascii -> Prop) l rest :
  Forall P l -> afterGt l = Some rest -> Forall P rest.
Proof.
  intros Hl. induction Hl as [|c l Hc Hl IH]; cbn; [discriminate|].
  destruct (Ascii.eqb c ">"); [intros [= <-]; assumption | exact IH].
Qed.

Lemma removeAngle_Forall (P : ascii -> Prop) l :
  Forall P l -> Forall P (removeAngle l).
Proof.
  intros Hl. induction Hl as [|c l Hc Hl IH]; cbn [removeAngle]; [constructor|].
  destruct (Ascii.eqb c "<"); [|constructor; assumption].
  destruct l as [|x l']; [repeat constructor; assumption|].
  destruct (Ascii.eqb x ">"); [constructor; assumption|].
  destruct (afterGt l') as [rest|] eqn:E; [|constructor; assumption].
  inversion Hl; subst. eapply afterGt_Forall; eassumption.
Qed.

Lemma trimStartChars_no_space l :
  Forall (fun c => JS.isSpace c = false) l -> JS.trimStartChars l = l.
Proof. intros Hl. destruct Hl as [|c l Hc _]; cbn; [reflexivity|]. rewrite Hc. reflexivity. Qed.

Lemma trimChars_no_space l :
  Forall (fun c => JS.isSpace c = false) l -> JS.trimChars l = l.
Proof.
  intros Hl. unfold JS.trimChars.
  rewrite (trimStartChars_no_space l Hl).
  rewrite trimStartChars_no_space by (apply Forall_rev; exact Hl).
  apply rev_involutive.
Qed.

(** X9. The sender that [normalizeSender] returns has no white-space
    character and no double quote, and is in lower case (lower-casing it
    again changes nothing); its final [trim] has nothing to remove. *)
Theorem normalizeSender_clean (sender : string) :
  Forall (fun c => JS.isSpace c = false ∧ c ≠ "034"%char)
         (JS.chars (normalizeSender sender))
  ∧ JS.toLowerCase (normalizeSender sender) = normalizeSender sender
  ∧ JS.trim (normalizeSender sender) = normalizeSender sender.
Proof.
  unfold normalizeSender, JS.toLowerCase, JS.trim. rewrite !chars_str.
  set (l := removeQuotesSpaces (removeAngle (JS.lowerChars (JS.chars sender)))).
  assert (Hclean : Forall (fun c => JS.isSpace c = false ∧ c ≠ "034"%char) l).
  { subst l. unfold removeQuotesSpaces. apply Forall_forall. intros c Hc.
    apply list_elem_of_filter in Hc as [Hc _].
    apply orb_false_iff in Hc as [Hq Hs]. split; [assumption|].
    apply Ascii.eqb_neq. exact Hq. }
  assert (Hns : Forall (fun c => JS.isSpace c = false) l).
  { eapply Forall_impl; [exact Hclean|]. cbn. tauto. }
  assert (Hlow : Forall (fun c => JS.lowerChar c = c) l).
  { subst l. unfold removeQuotesSpaces. apply Forall_forall. intros c Hc.
    apply list_elem_of_filter in Hc as [_ Hc]. revert c Hc. apply Forall_forall.
    apply removeAngle_Forall. unfold JS.lowerChars.
    apply Forall_forall. intros c Hc. apply list_elem_of_In, in_map_iff in Hc
      as (c0 & <- & _). apply lowerChar_idempotent. }
  rewrite !(trimChars_no_space l Hns).
  split; [exact Hclean|]. split; [|reflexivity].
  f_equal. unfold JS.lowerChars. clear -Hlow.
  induction Hlow as [|c l Hc _ IH]; cbn; [reflexivity|]. rewrite Hc, IH. reflexivity.
Qed.

(** *** The groups of findPotentialDuplicates do not overlap *)

Lemma groupStep_ids message l pre group processed :
  NoDup (id <$> (pre ++ group)) ->
  (forall x, x ∈ pre ++ group -> id x ∈ processed) ->
  let r := fold_left (groupStep message) l (group, processed) in
  NoDup (id <$> (pre ++ fst r))
  ∧ (forall x, x ∈ pre ++ fst r -> id x ∈ snd r)
  ∧ processed ⊆ snd r.
Proof.
  revert group processed. induction l as [|other l IH]; intros group processed Hnd Hin.
  - cbn. auto.
  - cbn [fold_left].
    destruct (bool_decide (id other ∈ processed) || String.eqb (id message) (id other))
      eqn:Hskip.
    { replace (groupStep message (group, processed) other) with (group, processed)
        by (unfold groupStep; rewrite Hskip; reflexivity).
      apply IH; assumption. }
    destruct (areRelated message other) eqn:Hrel.
    2: { replace (groupStep message (group, processed) other) with (group, processed)
           by (unfold groupStep; rewrite Hskip, Hrel; reflexivity).
         apply IH; assumption. }
    replace (groupStep message (group, processed) other)
      with (group ++ [other], {[ id other ]} ∪ processed)
      by (unfold groupStep; rewrite Hskip, Hrel; reflexivity).
    apply orb_false_iff in Hskip as [Hnp _]. apply bool_decide_eq_false_1 in Hnp.
    destruct (IH (group ++ [other]) ({[ id other ]} ∪ processed)) as (H1 & H2 & H3).
    + rewrite app_assoc, fmap_app. cbn. apply NoDup_app. split; [assumption|].
      split; [|apply NoDup_singleton].
      intros i Hi Hi'. apply list_elem_of_singleton in Hi'. subst i.
      apply list_elem_of_fmap in Hi as (x & Hx & Hxin). apply Hnp. rewrite Hx. auto.
    + intros x Hx. rewrite app_assoc in Hx. apply elem_of_app in Hx as [Hx|Hx].
      * apply elem_of_union_r. auto.
      * apply list_elem_of_singleton in Hx. subst x.
        apply elem_of_union_l, elem_of_singleton. reflexivity.
    + cbn zeta. split; [assumption|]. split; [assumption|].
      etransitivity; [apply union_subseteq_r | exact H3].
Qed.

Lemma groupsStep_ids messages l groups processed :
  NoDup (id <$> concat groups) ->
  (forall x, x ∈ concat groups -> id x ∈ processed) ->
  let r := fold_left (groupsStep messages) l (groups, processed) in
  NoDup (id <$> concat (fst r)).
Proof.
  revert groups processed. induction l as [|message l IH]; intros groups processed Hnd Hin.
  - exact Hnd.
  - cbn [fold_left].
    destruct (bool_decide (id message ∈ processed)) eqn:Hp.
    { replace (groupsStep messages (groups, processed) message) with (groups, processed)
        by (unfold groupsStep; rewrite Hp; reflexivity).
      apply IH; assumption. }
    pose proof Hp as Hp'. apply bool_decide_eq_false_1 in Hp'.
    destruct (groupStep_ids message messages (concat groups) [message]
                ({[ id message ]} ∪ processed)) as (H1 & H2 & H3).
    + rewrite fmap_app. cbn. apply NoDup_app. split; [assumption|].
      split; [|apply NoDup_singleton].
      intros i Hi Hi'. apply list_elem_of_singleton in Hi'. subst i.
      apply list_elem_of_fmap in Hi as (x & Hx & Hxin). apply Hp'. rewrite Hx. auto.
    + intros x Hx. apply elem_of_app in Hx as [Hx|Hx].
      * apply elem_of_union_r. auto.
      * apply list_elem_of_singleton in Hx. subst x.
        apply elem_of_union_l, elem_of_singleton. reflexivity.
    + unfold groupsStep. rewrite Hp. cbn zeta in *.
      destruct (fold_left (groupStep message) messages
                  ([message], {[ id message ]} ∪ processed)) as [group processed'].
      cbn [fst snd] in *.
      destruct (1 <? Z.of_nat (length group)).
      * apply IH; rewrite concat_app; cbn; rewrite app_nil_r; assumption.
      * apply IH; [assumption|]. intros x Hx. apply H2. apply elem_of_app. auto.
Qed.

(** X10. No message id occurs twice in the groups that
    [findPotentialDuplicates] returns, neither within a group nor in two
    groups: the groups do not overlap. *)
Theorem duplicateGroups_disjoint (messages : list UnifiedMessage) :
  NoDup (id <$> concat (Groups.duplicateGroups (findPotentialDuplicates messages))).
Proof.
  unfold findPotentialDuplicates. cbn [Groups.duplicateGroups].
  apply (groupsStep_ids messages messages [] ∅).
  - constructor.
  - intros x Hx. inversion Hx.
Qed.

(** *** Related messages do not go unnoticed *)

Lemma same_id_same_message (messages : list UnifiedMessage) x y :
  NoDup (id <$> messages) -> x ∈ messages -> y ∈ messages -> id x = id y -> x = y.
Proof.
  induction messages as [|m l IH]; intros Hnd Hx Hy Hid; [inversion Hx|].
  rewrite fmap_cons in Hnd. apply NoDup_cons in Hnd as [Hm Hnd].
  apply elem_of_cons in Hx as [->|Hx]; apply elem_of_cons in Hy as [->|Hy].
  - reflexivity.
  - exfalso. apply Hm. rewrite Hid. apply list_elem_of_fmap. eauto.
  - exfalso. apply Hm. rewrite <- Hid. apply list_elem_of_fmap. eauto.
  - auto.
Qed.

(** The inner loop: what it adds, which ids it marks, and that it marks
    every message related to the first one. *)
Lemma groupStep_processed message l group processed :
  let r := fold_left (groupStep message) l (group, processed) in
  exists extra,
    fst r = group ++ extra
    ∧ Forall (fun other => other ∈ l) extra
    ∧ (forall i, i ∈ snd r <-> i ∈ processed ∨ exists o, o ∈ extra ∧ id o = i)
    ∧ (forall other, other ∈ l -> id other ≠ id message ->
         areRelated message other = true -> id other ∈ snd r).
Proof.
  revert group processed. induction l as [|other l IH]; intros group processed.
  - exists []. cbn. rewrite app_nil_r.
    split; [reflexivity|]. split; [constructor|]. split.
    + intros i. split; [auto | intros [?|(o & Ho & _)]; [assumption | inversion Ho]].
    + intros other Ho. inversion Ho.
  - cbn [fold_left].
    assert (Hmono : forall g p,
              let r := fold_left (groupStep message) l (g, p) in
              forall i, i ∈ p -> i ∈ snd r).
    { intros g p. destruct (IH g p) as (extra & _ & _ & Hp & _).
      cbn zeta. intros i Hi. apply Hp. auto. }
    destruct (bool_decide (id other ∈ processed) || String.eqb (id message) (id other))
      eqn:Hskip.
    { replace (groupStep message (group, processed) other) with (group, processed)
        by (unfold groupStep; rewrite Hskip; reflexivity).
      destruct (IH group processed) as (extra & Hg & Hall & Hp & Hrel).
      exists extra. cbn zeta in *. split; [assumption|]. split.
      { eapply Forall_impl; [exact Hall|]. intros x Hx. right. exact Hx. }
      split; [assumption|].
      intros o Ho Hne Hr. apply elem_of_cons in Ho as [->|Ho]; [|auto].
      apply orb_true_iff in Hskip as [Hin|Heq].
      - apply bool_decide_eq_true_1 in Hin. apply Hp. auto.
      - apply String.eqb_eq in Heq. congruence. }
    destruct (areRelated message other) eqn:Hrelo.
    2: { replace (groupStep message (group, processed) other) with (group, processed)
           by (unfold groupStep; rewrite Hskip, Hrelo; reflexivity).
         destruct (IH group processed) as (extra & Hg & Hall & Hp & Hrel).
         exists extra. cbn zeta in *. split; [assumption|]. split.
         { eapply Forall_impl; [exact Hall|]. intros x Hx. right. exact Hx. }
         split; [assumption|].
         intros o Ho Hne Hr. apply elem_of_cons in Ho as [->|Ho]; [congruence | auto]. }
    replace (groupStep message (group, processed) other)
      with (group ++ [other], {[ id other ]} ∪ processed)
      by (unfold groupStep; rewrite Hskip, Hrelo; reflexivity).
    destruct (IH (group ++ [other]) ({[ id other ]} ∪ processed))
      as (extra & Hg & Hall & Hp & Hrel).
    exists (other :: extra). cbn zeta in *. split.
    { rewrite Hg, <- app_assoc. reflexivity. }
    split.
    { constructor; [left|]. eapply Forall_impl; [exact Hall|]. intros x Hx. right. exact Hx. }
    split.
    { intros i. rewrite Hp, elem_of_union, elem_of_singleton. split.
      - intros [[->|Hi]|(o & Ho & Hoi)].
        + right. exists other. split; [left | reflexivity].
        + auto.
        + right. exists o. split; [right|]; assumption.
      - intros [Hi|(o & Ho & Hoi)]; [auto|].
        apply elem_of_cons in Ho as [->|Ho]; [auto|]. right. eauto. }
    intros o Ho Hne Hr. apply elem_of_cons in Ho as [->|Ho]; [|auto].
    apply Hp. left. apply elem_of_union_l, elem_of_singleton. reflexivity.
Qed.

Lemma groupsStep_complete messages :
  NoDup (id <$> messages) ->
  forall todo done groups processed,
    messages = done ++ todo ->
    groupingInv messages done groups processed ->
    let r := fold_left (groupsStep messages) todo (groups, processed) in
    groupingInv messages messages (fst r) (snd r).
Proof.
  intros Hnd. induction todo as [|m todo IH]; intros done groups processed Hsplit Hinv.
  - rewrite app_nil_r in Hsplit. subst done. exact Hinv.
  - cbn [fold_left].
    assert (Hsplit' : messages = (done ++ [m]) ++ todo)
      by (rewrite <- app_assoc; exact Hsplit).
    assert (Hm : m ∈ messages) by (rewrite Hsplit; apply elem_of_app; right; left).
    assert (Hdone : forall x, x ∈ done -> x ∈ messages)
      by (intros x Hx; rewrite Hsplit; apply elem_of_app; left; exact Hx).
    assert (Hfresh : forall x, x ∈ done -> id x ≠ id m).
    { intros x Hx Heq. rewrite Hsplit, fmap_app, fmap_cons in Hnd.
      apply NoDup_app in Hnd as (_ & Hdis & _). apply (Hdis (id x)).
      - apply list_elem_of_fmap. eauto.
      - rewrite Heq. left. }
    destruct Hinv as (I1 & I2 & I3 & I4).
    destruct (bool_decide (id m ∈ processed)) eqn:Hp.
    { replace (groupsStep messages (groups, processed) m) with (groups, processed)
        by (unfold groupsStep; rewrite Hp; reflexivity).
      apply (IH (done ++ [m])); [exact Hsplit'|].
      apply bool_decide_eq_true_1 in Hp.
      assert (Hmg : m ∈ concat groups).
      { destruct (I1 _ Hp) as [(x & Hx & Hid)|(x & Hx & Hid)].
        - exfalso. apply (Hfresh x Hx Hid).
        - rewrite <- (same_id_same_message messages x m Hnd (I2 x Hx) Hm Hid). exact Hx. }
      split; [|split; [|split]].
      - intros i Hi. destruct (I1 i Hi) as [(x & Hx & Hid)|Hg]; [|auto].
        left. exists x. split; [apply elem_of_app; auto | assumption].
      - exact I2.
      - intros s y Hs Hy Hne Hr. apply elem_of_app in Hs as [Hs|Hs]; [eauto|].
        apply list_elem_of_singleton in Hs. subst s. auto.
      - intros x Hx. apply elem_of_app in Hx as [Hx|Hx]; [auto|].
        apply list_elem_of_singleton in Hx. subst x. exact Hp. }
    apply bool_decide_eq_false_1 in Hp.
    destruct (groupStep_processed m messages [m] ({[ id m ]} ∪ processed))
      as (extra & Hg & Hall & Hproc & Hrel).
    cbn zeta in *.
    destruct (fold_left (groupStep m) messages ([m], {[ id m ]} ∪ processed))
      as [group processed'] eqn:Einner.
    cbn [fst snd] in *. subst group.
    rewrite Forall_forall in Hall.
    destruct extra as [|e extra].
    + (* nothing was added: the group is not kept *)
      replace (groupsStep messages (groups, processed) m) with (groups, processed')
        by (unfold groupsStep; rewrite (bool_decide_eq_false_2 _ Hp), Einner;
            reflexivity).
      apply (IH (done ++ [m])); [exact Hsplit'|].
      assert (Hproc' : forall i, i ∈ processed' <-> i = id m ∨ i ∈ processed).
      { intros i. rewrite Hproc, elem_of_union, elem_of_singleton. split.
        - intros [H|(o & Ho & _)]; [exact H | inversion Ho].
        - auto. }
      split; [|split; [|split]].
      * intros i Hi. apply Hproc' in Hi as [->|Hi].
        -- left. exists m. split; [apply elem_of_app; right; left | reflexivity].
        -- destruct (I1 i Hi) as [(x & Hx & Hid)|Hgr]; [|auto].
           left. exists x. split; [apply elem_of_app; auto | assumption].
      * exact I2.
      * intros s y Hs Hy Hne Hr. apply elem_of_app in Hs as [Hs|Hs]; [eauto|].
        apply list_elem_of_singleton in Hs. subst s.
        pose proof (Hrel y Hy Hne Hr) as Hyp.
        apply Hproc' in Hyp as [Hyp|Hyp]; [congruence|].
        destruct (I1 _ Hyp) as [(x & Hx & Hid)|(x & Hx & Hid)].
        -- assert (x = y) by (apply (same_id_same_message messages); auto).
           subst x.
           destruct (I3 y m Hx Hm) as [Hyg|Hmg];
             [congruence | rewrite areRelated_sym; exact Hr | auto | auto].
        -- assert (x = y) by (apply (same_id_same_message messages); auto).
           subst x. auto.
      * intros x Hx. apply Hproc'. apply elem_of_app in Hx as [Hx|Hx]; [auto|].
        apply list_elem_of_singleton in Hx. subst x. auto.
    + (* the group is kept *)
      assert (Hlen : (1 <? Z.of_nat (length ([m] ++ e :: extra))) = true)
        by (apply Z.ltb_lt; cbn [app length]; lia).
      replace (groupsStep messages (groups, processed) m)
        with (groups ++ [[m] ++ e :: extra], processed')
        by (unfold groupsStep; rewrite (bool_decide_eq_false_2 _ Hp), Einner, Hlen;
            reflexivity).
      apply (IH (done ++ [m])); [exact Hsplit'|].
      assert (Hcat : forall x, x ∈ concat (groups ++ [[m] ++ e :: extra]) <->
                               x ∈ concat groups ∨ x = m ∨ x ∈ e :: extra).
      { intros x. rewrite concat_app. cbn [concat]. rewrite app_nil_r.
        rewrite elem_of_app. cbn [app]. rewrite elem_of_cons. tauto. }
      split; [|split; [|split]].
      * intros i Hi. apply Hproc in Hi as [Hi|(o & Ho & Hid)].
        -- apply elem_of_union in Hi as [Hi|Hi].
           ++ apply elem_of_singleton in Hi. subst i.
              right. exists m. split; [apply Hcat; auto | reflexivity].
           ++ destruct (I1 i Hi) as [(x & Hx & Hid)|(x & Hx & Hid)].
              ** left. exists x. split; [apply elem_of_app; auto | assumption].
              ** right. exists x. split; [apply Hcat; auto | assumption].
        -- right. exists o. split; [apply Hcat; auto | assumption].
      * intros x Hx. apply Hcat in Hx as [Hx|[->|Hx]]; auto.
      * intros s y Hs Hy Hne Hr. apply elem_of_app in Hs as [Hs|Hs].
        -- destruct (I3 s y Hs Hy Hne Hr); [left | right]; apply Hcat; auto.
        -- apply list_elem_of_singleton in Hs. subst s. left. apply Hcat. auto.
      * intros x Hx. apply Hproc. left. apply elem_of_app in Hx as [Hx|Hx].
        -- apply elem_of_union_r. auto.
        -- apply list_elem_of_singleton in Hx. subst x.
           apply elem_of_union_l, elem_of_singleton. reflexivity.
Qed.

(** X11. When the messages of the input have different ids, two messages
    of the input that [areRelated] relates do not both stay outside the
    groups: at least one of them is in a group that
    [findPotentialDuplicates] returns. *)
Theorem related_messages_grouped (messages : list UnifiedMessage)
    (a b : UnifiedMessage) :
  NoDup (id <$> messages) ->
  a ∈ messages -> b ∈ messages -> id a ≠ id b -> areRelated a b = true ->
  let groups := Groups.duplicateGroups (findPotentialDuplicates messages) in
  a ∈ concat groups ∨ b ∈ concat groups.
Proof.
  intros Hnd Ha Hb Hne Hr. cbn zeta.
  unfold findPotentialDuplicates. cbn [Groups.duplicateGroups].
  assert (Hinit : groupingInv messages [] [] ∅).
  { split; [|split; [|split]].
    - intros i Hi. apply not_elem_of_empty in Hi. contradiction.
    - intros x Hx. inversion Hx.
    - intros s y Hs. inversion Hs.
    - intros x Hx. inversion Hx. }
  destruct (groupsStep_complete messages Hnd messages [] [] ∅ eq_refl Hinit)
    as (_ & _ & I3 & _).
  apply (I3 a b); auto.
Qed.

Lemma related_messages_grouped_witness :
  let groups := Groups.duplicateGroups
                  (findPotentialDuplicates [Scenario.hiEarly; Scenario.hiLate]) in
  Scenario.hiEarly ∈ concat groups ∨ Scenario.hiLate ∈ concat groups.
Proof.
  apply (related_messages_grouped [Scenario.hiEarly; Scenario.hiLate]
           Scenario.hiEarly Scenario.hiLate).
  - vm_compute. repeat constructor; intros H;
      repeat (apply elem_of_cons in H as [H|H]; [discriminate H|]); inversion H.
  - left.
  - right. left.
  - discriminate.
  - vm_compute. reflexivity.
Defined.

End DedupMore.

(* ===================================================================== *)
(** ** The groups of findPotentialDuplicates *)
(* ===================================================================== *)

Module GroupingFacts.
Import Dedup DedupSpec DedupFacts DedupMore.

Lemma filter_iff_in {A : Type} (P Q : A -> Prop) `{!∀ x, Decision (P x)}
    `{!∀ x, Decision (Q x)} (l : list A) :
  (forall x, x ∈ l -> (P x <-> Q x)) -> filter P l = filter Q l.
Proof.
  induction l as [|x l IH]; intros Hiff; [reflexivity|].
  rewrite !filter_cons.
  rewrite IH by (intros y Hy; apply Hiff; right; exact Hy).
  pose proof (Hiff x ltac:(left)) as Hx.
  destruct (decide (P x)), (decide (Q x)); tauto || reflexivity.
Qed.

(** On messages with different ids, the inner loop adds the messages whose
    id was not processed before it and that are related to the first one. *)
Lemma groupStep_filter message l group processed :
  NoDup (id <$> l) ->
  fst (fold_left (groupStep message) l (group, processed))
  = group ++ filter (fun other => (id other ∉ processed) ∧ id other ≠ id message
                                  ∧ areRelated message other = true) l.
Proof.
  revert group processed. induction l as [|other l IH]; intros group processed Hnd.
  - cbn. rewrite app_nil_r. reflexivity.
  - rewrite fmap_cons in Hnd. apply NoDup_cons in Hnd as [Hother Hnd].
    cbn [fold_left].
    destruct (bool_decide (id other ∈ processed) || String.eqb (id message) (id other))
      eqn:Hskip.
    { replace (groupStep message (group, processed) other) with (group, processed)
        by (unfold groupStep; rewrite Hskip; reflexivity).
      rewrite (IH _ _ Hnd), filter_cons_False; [reflexivity|].
      intros (Hp & Hne & _). apply orb_true_iff in Hskip as [Hin|Heq].
      - apply bool_decide_eq_true_1 in Hin. contradiction.
      - apply String.eqb_eq in Heq. congruence. }
    destruct (areRelated message other) eqn:Hrel.
    2: { replace (groupStep message (group, processed) other) with (group, processed)
           by (unfold groupStep; rewrite Hskip, Hrel; reflexivity).
         rewrite (IH _ _ Hnd), filter_cons_False; [reflexivity|].
         intros (_ & _ & Hr). congruence. }
    replace (groupStep message (group, processed) other)
      with (group ++ [other], {[ id other ]} ∪ processed)
      by (unfold groupStep; rewrite Hskip, Hrel; reflexivity).
    apply orb_false_iff in Hskip as [Hin Heq].
    apply bool_decide_eq_false_1 in Hin. apply String.eqb_neq in Heq.
    rewrite (IH _ _ Hnd), filter_cons_True by (repeat split; auto).
    rewrite <- app_assoc. cbn [app]. do 2 f_equal.
    apply filter_iff_in. intros o Ho.
    assert (Hne : id o ≠ id other).
    { intros Heq'. apply Hother. rewrite <- Heq'. apply list_elem_of_fmap. eauto. }
    rewrite not_elem_of_union, not_elem_of_singleton. tauto.
Qed.

(** One turn of the outer loop, on messages with different ids: what the
    loop knows afterwards, and the group it adds. *)
Lemma groupsStep_one messages done m todo groups processed :
  NoDup (id <$> messages) ->
  messages = done ++ m :: todo ->
  groupingInv messages done groups processed ->
  (forall x, x ∈ concat groups -> id x ∈ processed) ->
  let r := groupsStep messages (groups, processed) m in
  groupingInv messages (done ++ [m]) (fst r) (snd r)
  ∧ (forall x, x ∈ concat (fst r) -> id x ∈ snd r)
  ∧ fst r =
    if decide (m ∈ concat groups) then groups
    else match filter (fun other => (other ∉ concat groups) ∧ other ≠ m
                                    ∧ areRelated m other = true) messages with
         | [] => groups
         | others => groups ++ [m :: others]
         end.
Proof.
  intros Hnd Hsplit Hinv I5. cbv zeta.
  assert (Hm : m ∈ messages) by (rewrite Hsplit; apply elem_of_app; right; left).
  assert (Hdone : forall x, x ∈ done -> x ∈ messages)
    by (intros x Hx; rewrite Hsplit; apply elem_of_app; left; exact Hx).
  assert (Hfresh : forall x, x ∈ done -> id x ≠ id m).
  { intros x Hx Heq. rewrite Hsplit, fmap_app, fmap_cons in Hnd.
    apply NoDup_app in Hnd as (_ & Hdis & _). apply (Hdis (id x)).
    - apply list_elem_of_fmap. eauto.
    - rewrite Heq. left. }
  destruct Hinv as (I1 & I2 & I3 & I4).
  destruct (bool_decide (id m ∈ processed)) eqn:Hp.
  { replace (groupsStep messages (groups, processed) m) with (groups, processed)
      by (unfold groupsStep; rewrite Hp; reflexivity).
    cbn [fst snd]. apply bool_decide_eq_true_1 in Hp.
    assert (Hmg : m ∈ concat groups).
    { destruct (I1 _ Hp) as [(x & Hx & Hid)|(x & Hx & Hid)].
      - exfalso. apply (Hfresh x Hx Hid).
      - rewrite <- (same_id_same_message messages x m Hnd (I2 x Hx) Hm Hid). exact Hx. }
    split; [|split; [exact I5 | rewrite decide_True by exact Hmg; reflexivity]].
    split; [|split; [|split]].
    - intros i Hi. destruct (I1 i Hi) as [(x & Hx & Hid)|Hg]; [|auto].
      left. exists x. split; [apply elem_of_app; auto | assumption].
    - exact I2.
    - intros s y Hs Hy Hne Hr. apply elem_of_app in Hs as [Hs|Hs]; [eauto|].
      apply list_elem_of_singleton in Hs. subst s. auto.
    - intros x Hx. apply elem_of_app in Hx as [Hx|Hx]; [auto|].
      apply list_elem_of_singleton in Hx. subst x. exact Hp. }
  apply bool_decide_eq_false_1 in Hp.
  assert (Hmg : m ∉ concat groups) by (intros H; apply Hp, I5, H).
  rewrite decide_False by exact Hmg.
  destruct (groupStep_processed m messages [m] ({[ id m ]} ∪ processed))
    as (extra & Hg & Hall & Hproc & Hrel).
  pose proof (groupStep_filter m messages [m] ({[ id m ]} ∪ processed) Hnd) as Hfilter.
  cbn zeta in *.
  destruct (fold_left (groupStep m) messages ([m], {[ id m ]} ∪ processed))
    as [group processed'] eqn:Einner.
  cbn [fst snd] in *. subst group.
  apply app_inv_head in Hfilter.
  (* the ids the loop tests and the groups name the same messages *)
  assert (Hsame : extra = filter (fun other => (other ∉ concat groups) ∧ other ≠ m
                                               ∧ areRelated m other = true) messages).
  { rewrite Hfilter. apply filter_iff_in. intros y Hy.
    rewrite not_elem_of_union, not_elem_of_singleton. split.
    - intros ((_ & Hyp) & Hne & Hr). repeat split; [|congruence|exact Hr].
      intros Hyg. apply Hyp, I5, Hyg.
    - intros (Hyg & Hne & Hr).
      assert (Hid : id y ≠ id m).
      { intros Heq. apply Hne. apply (same_id_same_message messages); auto. }
      repeat split; [exact Hid| |exact Hid|exact Hr].
      intros Hyp. destruct (I1 _ Hyp) as [(x & Hx & Hxy)|(x & Hx & Hxy)].
      + assert (x = y) by (apply (same_id_same_message messages); auto). subst x.
        destruct (I3 y m Hx Hm) as [?|?];
          [congruence | rewrite areRelated_sym; exact Hr | auto | auto].
      + assert (x = y) by (apply (same_id_same_message messages); auto). subst x.
        auto. }
  rewrite <- Hsame. clear Hfilter Hsame.
  rewrite Forall_forall in Hall.
  destruct extra as [|e extra].
  - replace (groupsStep messages (groups, processed) m) with (groups, processed')
      by (unfold groupsStep; rewrite (bool_decide_eq_false_2 _ Hp), Einner;
          reflexivity).
    cbn [fst snd].
    assert (Hproc' : forall i, i ∈ processed' <-> i = id m ∨ i ∈ processed).
    { intros i. rewrite Hproc, elem_of_union, elem_of_singleton. split.
      - intros [H|(o & Ho & _)]; [exact H | inversion Ho].
      - auto. }
    split; [|split; [|reflexivity]].
    2: { intros x Hx. apply Hproc'. auto. }
    split; [|split; [|split]].
    + intros i Hi. apply Hproc' in Hi as [->|Hi].
      * left. exists m. split; [apply elem_of_app; right; left | reflexivity].
      * destruct (I1 i Hi) as [(x & Hx & Hid)|Hgr]; [|auto].
        left. exists x. split; [apply elem_of_app; auto | assumption].
    + exact I2.
    + intros s y Hs Hy Hne Hr. apply elem_of_app in Hs as [Hs|Hs]; [eauto|].
      apply list_elem_of_singleton in Hs. subst s.
      pose proof (Hrel y Hy Hne Hr) as Hyp.
      apply Hproc' in Hyp as [Hyp|Hyp]; [congruence|].
      destruct (I1 _ Hyp) as [(x & Hx & Hid)|(x & Hx & Hid)].
      * assert (x = y) by (apply (same_id_same_message messages); auto).
        subst x.
        destruct (I3 y m Hx Hm) as [Hyg|Hmg'];
          [congruence | rewrite areRelated_sym; exact Hr | auto | auto].
      * assert (x = y) by (apply (same_id_same_message messages); auto).
        subst x. auto.
    + intros x Hx. apply Hproc'. apply elem_of_app in Hx as [Hx|Hx]; [auto|].
      apply list_elem_of_singleton in Hx. subst x. auto.
  - assert (Hlen : (1 <? Z.of_nat (length ([m] ++ e :: extra))) = true)
      by (apply Z.ltb_lt; cbn [app length]; lia).
    replace (groupsStep messages (groups, processed) m)
      with (groups ++ [[m] ++ e :: extra], processed')
      by (unfold groupsStep; rewrite (bool_decide_eq_false_2 _ Hp), Einner, Hlen;
          reflexivity).
    cbn [fst snd].
    assert (Hcat : forall x, x ∈ concat (groups ++ [[m] ++ e :: extra]) <->
                             x ∈ concat groups ∨ x = m ∨ x ∈ e :: extra).
    { intros x. rewrite concat_app. cbn [concat]. rewrite app_nil_r.
      rewrite elem_of_app. cbn [app]. rewrite elem_of_cons. tauto. }
    split; [|split; [|reflexivity]].
    2: { intros x Hx. apply Hproc. apply Hcat in Hx as [Hx|[->|Hx]].
         - left. apply elem_of_union_r. auto.
         - left. apply elem_of_union_l, elem_of_singleton. reflexivity.
         - right. eauto. }
    split; [|split; [|split]].
    + intros i Hi. apply Hproc in Hi as [Hi|(o & Ho & Hid)].
      * apply elem_of_union in Hi as [Hi|Hi].
        -- apply elem_of_singleton in Hi. subst i.
           right. exists m. split; [apply Hcat; auto | reflexivity].
        -- destruct (I1 i Hi) as [(x & Hx & Hid)|(x & Hx & Hid)].
           ++ left. exists x. split; [apply elem_of_app; auto | assumption].
           ++ right. exists x. split; [apply Hcat; auto | assumption].
      * right. exists o. split; [apply Hcat; auto | assumption].
    + intros x Hx. apply Hcat in Hx as [Hx|[->|Hx]]; auto.
    + intros s y Hs Hy Hne Hr. apply elem_of_app in Hs as [Hs|Hs].
      * destruct (I3 s y Hs Hy Hne Hr); [left | right]; apply Hcat; auto.
      * apply list_elem_of_singleton in Hs. subst s. left. apply Hcat. auto.
    + intros x Hx. apply Hproc. left. apply elem_of_app in Hx as [Hx|Hx].
      * apply elem_of_union_r. auto.
      * apply list_elem_of_singleton in Hx. subst x.
        apply elem_of_union_l, elem_of_singleton. reflexivity.
Qed.

(** The two loops build the groups that the words describe. *)
Lemma groupsStep_groupsFrom messages :
  NoDup (id <$> messages) ->
  forall todo done groups processed,
    messages = done ++ todo ->
    groupingInv messages done groups processed ->
    (forall x, x ∈ concat groups -> id x ∈ processed) ->
    fst (fold_left (groupsStep messages) todo (groups, processed))
    = groupsFrom messages todo groups.
Proof.
  intros Hnd. induction todo as [|m todo IH]; intros done groups processed Hsplit Hinv I5.
  - reflexivity.
  - cbn [fold_left groupsFrom].
    destruct (groupsStep_one messages done m todo groups processed Hnd Hsplit Hinv I5)
      as (Hinv' & I5' & Hstep).
    destruct (groupsStep messages (groups, processed) m) as [groups' processed'].
    cbn [fst snd] in *.
    rewrite (IH (done ++ [m]) groups' processed');
      [|rewrite <- app_assoc; exact Hsplit|exact Hinv'|exact I5'].
    rewrite Hstep. destruct (decide (m ∈ concat groups)); [reflexivity|].
    destruct (filter _ messages); reflexivity.
Qed.

(** Each group that the words describe: its first message is in no earlier
    group, and the others are the messages in no earlier group related to
    it. *)
Lemma groupsFrom_groups messages todo groups :
  (forall x, x ∈ todo -> x ∈ messages) ->
  exists new,
    groupsFrom messages todo groups = groups ++ new
    ∧ forall pre group post, new = pre ++ group :: post ->
        exists seed,
          seed ∈ messages
          ∧ (seed ∉ concat (groups ++ pre))
          ∧ group = seed :: filter (fun other => (other ∉ concat (groups ++ pre))
                                                 ∧ other ≠ seed
                                                 ∧ areRelated seed other = true)
                                   messages.
Proof.
  revert groups. induction todo as [|seed rest IH]; intros groups Htodo.
  - exists []. cbn. rewrite app_nil_r. split; [reflexivity|].
    intros [|? ?] ? ?; discriminate.
  - assert (Hrest : forall x, x ∈ rest -> x ∈ messages)
      by (intros x Hx; apply Htodo; right; exact Hx).
    cbn [groupsFrom].
    destruct (decide (seed ∈ concat groups)) as [Hin|Hout]; [apply IH, Hrest|].
    destruct (filter _ messages) as [|e others] eqn:Hothers; [apply IH, Hrest|].
    destruct (IH (groups ++ [seed :: e :: others]) Hrest) as (new & Heq & Hnew).
    exists ((seed :: e :: others) :: new). split.
    + rewrite Heq, <- app_assoc. reflexivity.
    + intros [|first pre] group post Hsplit.
      * cbn [app] in Hsplit. injection Hsplit as <- <-.
        exists seed. rewrite app_nil_r, Hothers.
        split; [apply Htodo; left|]. split; [exact Hout | reflexivity].
      * cbn [app] in Hsplit. injection Hsplit as <- Hsplit.
        destruct (Hnew pre group post Hsplit) as (s & Hs & Hfresh & Hgroup).
        exists s. rewrite <- app_assoc in Hfresh, Hgroup. cbn [app] in Hfresh, Hgroup.
        auto.
Qed.

Lemma groupingInv_start messages : groupingInv messages [] [] ∅.
Proof.
  split; [|split; [|split]].
  - intros i Hi. apply not_elem_of_empty in Hi. contradiction.
  - intros x Hx. inversion Hx.
  - intros s y Hs. inversion Hs.
  - intros x Hx. inversion Hx.
Qed.

(** C6. [findPotentialDuplicates] removes nothing from its input and
    returns the statistics of [deduplicate]. Every group it returns has at
    least two messages: a first message of the input followed by other
    messages of the input, each with another id and related to the first by
    [areRelated]. When the messages of the input have pairwise different ids,
    the groups are exactly those of [groupsByRelation]: going through the
    input in order, each message that is in no earlier group opens a group
    made of itself followed by all the messages of the input, in input order,
    that are in no earlier group and are related to it, and the group is
    returned when it has at least two messages. [areRelated] holds exactly
    when the two messages carry the same non-zero global id, or the same
    non-empty Message-ID header, or pass the pairwise fuzzy check (equality
    of content hashes is not tested); it does not depend on the order of the
    two messages. *)
Theorem findPotentialDuplicates_groups :
  (forall messages : list UnifiedMessage,
     let r := findPotentialDuplicates messages in
     Forall (relatedGroup messages) (Groups.duplicateGroups r)
     ∧ Forall (fun group => (2 <= length group)%nat) (Groups.duplicateGroups r)
     ∧ Groups.stats r = Result.stats (deduplicate messages))
  ∧ (forall messages : list UnifiedMessage,
       NoDup (id <$> messages) ->
       let groups := Groups.duplicateGroups (findPotentialDuplicates messages) in
       groups = groupsByRelation messages
       ∧ forall pre group post,
           groups = pre ++ group :: post ->
           exists seed,
             seed ∈ messages
             ∧ (seed ∉ concat pre)
             ∧ group = seed :: filter (fun other => (other ∉ concat pre)
                                                    ∧ other ≠ seed
                                                    ∧ areRelated seed other = true)
                                      messages)
  ∧ (forall msg1 msg2 : UnifiedMessage,
       areRelated msg1 msg2 = true <->
       (exists g, globalMessageId msg1 = Some g ∧ globalMessageId msg2 = Some g ∧ g ≠ 0)
       ∨ (exists h, messageIdHeader msg1 = Some h ∧ messageIdHeader msg2 = Some h
                    ∧ h ≠ EmptyString)
       ∨ isFuzzyMatch msg1 msg2 = true)
  ∧ (forall msg1 msg2 : UnifiedMessage, areRelated msg1 msg2 = areRelated msg2 msg1).
Proof.
  split; [|split; [|split; [exact areRelated_spec | exact areRelated_sym]]].
  - intros messages r.
    assert (Hg : Forall (relatedGroup messages) (Groups.duplicateGroups r)).
    { subst r. unfold findPotentialDuplicates. cbn [Groups.duplicateGroups].
      apply groupsStep_fold; [auto | constructor]. }
    split; [exact Hg|]. split; [|reflexivity].
    eapply Forall_impl; [exact Hg|]. intros group [Hlen _]. exact Hlen.
  - intros messages Hnd groups.
    assert (Heq : groups = groupsByRelation messages).
    { subst groups. unfold findPotentialDuplicates, groupsByRelation.
      cbn [Groups.duplicateGroups].
      apply (groupsStep_groupsFrom messages Hnd messages [] [] ∅ eq_refl
               (groupingInv_start messages)).
      intros x Hx. inversion Hx. }
    split; [exact Heq|].
    intros pre group post Hsplit. rewrite Heq in Hsplit.
    destruct (groupsFrom_groups messages messages [] (fun x Hx => Hx))
      as (new & Hnew & Hshape).
    unfold groupsByRelation in Hsplit. rewrite Hnew in Hsplit. cbn [app] in Hsplit.
    exact (Hshape pre group post Hsplit).
Qed.

Lemma findPotentialDuplicates_groups_witness :
  Groups.duplicateGroups
    (findPotentialDuplicates [Scenario.hiEarly; Scenario.hiLate; Scenario.reBudget])
  = groupsByRelation [Scenario.hiEarly; Scenario.hiLate; Scenario.reBudget]
  ∧ groupsByRelation [Scenario.hiEarly; Scenario.hiLate; Scenario.reBudget]
    = [[Scenario.hiEarly; Scenario.hiLate]].
Proof.
  split; [|vm_compute; reflexivity].
  apply (proj1 (proj2 findPotentialDuplicates_groups)
           [Scenario.hiEarly; Scenario.hiLate; Scenario.reBudget]).
  vm_compute. repeat constructor; intros H;
    repeat (apply elem_of_cons in H as [H|H]; [discriminate H|]); inversion H.
Defined.

(** When two messages of the input have the same id, the second of them is
    never visited: here [gamma], which has the id of [alpha] and is related
    to it, is in no group, although it is what follows [alpha] among the
    messages related to it. *)
Example shared_id_not_grouped :
  Groups.duplicateGroups (findPotentialDuplicates [alpha; gamma; beta])
  = [[alpha; beta]]
  ∧ areRelated alpha gamma = true
  ∧ groupsByRelation [alpha; gamma; beta] = [[alpha; gamma; beta]].
Proof. repeat split; vm_compute; reflexivity. Qed.

End GroupingFacts.

(* ===================================================================== *)
(** ** Properties of the security manager *)
(* ===================================================================== *)

Module SecurityFacts.
Import Security.

(** *** sanitizeFolderName *)

Lemma removeDotDot_head c l :
  c ≠ "."%char -> removeDotDot (c :: l) = c :: removeDotDot l.
Proof.
  intros Hc. destruct l as [|c' rest]; [reflexivity|].
  cbn [removeDotDot]. apply Ascii.eqb_neq in Hc. rewrite Hc. reflexivity.
Qed.

Lemma removeDotDot_clean_pair l :
  hasDotDot (removeDotDot l) = false
  ∧ forall c, hasDotDot (removeDotDot (c :: l)) = false.
Proof.
  induction l as [|c' l [IH1 IH2]].
  - split; [reflexivity | intros c; reflexivity].
  - split; [apply IH2|]. intros c.
    change (removeDotDot (c :: c' :: l))
      with (if Ascii.eqb c "."%char && Ascii.eqb c' "."%char
            then removeDotDot l else c :: removeDotDot (c' :: l)).
    destruct (Ascii.eqb c "."%char && Ascii.eqb c' "."%char) eqn:Hdd; [exact IH1|].
    specialize (IH2 c').
    destruct (removeDotDot (c' :: l)) as [|x r] eqn:Er; [reflexivity|].
    change (hasDotDot (c :: x :: r))
      with ((Ascii.eqb c "."%char && Ascii.eqb x "."%char) || hasDotDot (x :: r)).
    rewrite IH2, orb_false_r.
    destruct (Ascii.eqb c "."%char) eqn:Hc; [|reflexivity].
    cbn [andb] in Hdd |- *. apply Ascii.eqb_neq in Hdd.
    rewrite (removeDotDot_head c' l Hdd) in Er. injection Er as <- _.
    apply Ascii.eqb_neq. exact Hdd.
Qed.

Lemma removeDotDot_clean l : hasDotDot (removeDotDot l) = false.
Proof. apply removeDotDot_clean_pair. Qed.

Lemma removeDotDot_fixed l : hasDotDot l = false -> removeDotDot l = l.
Proof.
  induction l as [|c l IH]; [reflexivity|].
  destruct l as [|c' rest]; [reflexivity|].
  intros H.
  change (hasDotDot (c :: c' :: rest))
    with ((Ascii.eqb c "."%char && Ascii.eqb c' "."%char) || hasDotDot (c' :: rest)) in H.
  apply orb_false_iff in H as [Hdd Hrest].
  change (removeDotDot (c :: c' :: rest))
    with (if Ascii.eqb c "."%char && Ascii.eqb c' "."%char
          then removeDotDot rest else c :: removeDotDot (c' :: rest)).
  rewrite Hdd, (IH Hrest). reflexivity.
Qed.

Lemma replaceSlash_dot c :
  Ascii.eqb (replaceSlash c) "."%char = Ascii.eqb c "."%char.
Proof.
  unfold replaceSlash.
  destruct (Ascii.eqb_spec c "/"%char) as [->|]; [reflexivity|].
  destruct (Ascii.eqb_spec c "092"%char) as [->|]; reflexivity.
Qed.

Lemma hasDotDot_map l : hasDotDot (map replaceSlash l) = hasDotDot l.
Proof.
  induction l as [|c l IH]; [reflexivity|].
  destruct l as [|c' rest]; [reflexivity|].
  change (hasDotDot (map replaceSlash (c :: c' :: rest)))
    with ((Ascii.eqb (replaceSlash c) "."%char && Ascii.eqb (replaceSlash c') "."%char)
          || hasDotDot (map replaceSlash (c' :: rest))).
  rewrite IH, !replaceSlash_dot. reflexivity.
Qed.

Lemma hasDotDot_infix pre post :
  hasDotDot (pre ++ "."%char :: "."%char :: post) = true.
Proof.
  induction pre as [|c pre IH]; [reflexivity|].
  cbn [app]. destruct (pre ++ "."%char :: "."%char :: post) as [|c' r] eqn:E.
  - destruct pre; discriminate E.
  - change (hasDotDot (c :: c' :: r))
      with ((Ascii.eqb c "."%char && Ascii.eqb c' "."%char) || hasDotDot (c' :: r)).
    rewrite IH. apply orb_true_r.
Qed.

Lemma replaceSlash_no_slash c :
  replaceSlash c ≠ "/"%char ∧ replaceSlash c ≠ "092"%char.
Proof.
  unfold replaceSlash.
  destruct (Ascii.eqb_spec c "/"%char) as [->|H1]; [split; discriminate|].
  destruct (Ascii.eqb_spec c "092"%char) as [->|H2]; [split; discriminate|].
  cbn. auto.
Qed.

Lemma replaceSlash_fixed l :
  Forall (fun c => c ≠ "/"%char ∧ c ≠ "092"%char) l -> map replaceSlash l = l.
Proof.
  intros Hl. induction Hl as [|c l [H1 H2] _ IH]; [reflexivity|].
  cbn [map]. rewrite IH. unfold replaceSlash.
  apply Ascii.eqb_neq in H1, H2. rewrite H1, H2. reflexivity.
Qed.

(** X12. The name that [sanitizeFolderName] returns contains no slash and
    no backslash, and nowhere two dots in a row; sanitizing it again changes
    nothing. *)
Theorem sanitizeFolderName_safe (folderName : string) :
  let out := JS.chars (sanitizeFolderName folderName) in
  Forall (fun c => c ≠ "/"%char ∧ c ≠ "092"%char) out
  ∧ (¬ exists pre post, out = pre ++ "."%char :: "."%char :: post)
  ∧ sanitizeFolderName (sanitizeFolderName folderName) = sanitizeFolderName folderName.
Proof.
  cbn zeta. unfold sanitizeFolderName.
  rewrite !DedupMore.chars_str.
  set (l := removeDotDot (JS.chars folderName)).
  assert (Hslash : Forall (fun c => c ≠ "/"%char ∧ c ≠ "092"%char) (map replaceSlash l)).
  { apply Forall_forall. intros c Hc. apply list_elem_of_In, in_map_iff in Hc
      as (c0 & <- & _). apply replaceSlash_no_slash. }
  assert (Hdots : hasDotDot (map replaceSlash l) = false).
  { rewrite hasDotDot_map. apply removeDotDot_clean. }
  split; [exact Hslash|]. split.
  - intros (pre & post & E). rewrite E, hasDotDot_infix in Hdots. discriminate.
  - rewrite (removeDotDot_fixed _ Hdots), (replaceSlash_fixed _ Hslash). reflexivity.
Qed.

(** *** validateEmailAddress *)

Lemma spanAddressChars_split l :
  l = fst (spanAddressChars l) ++ snd (spanAddressChars l)
  ∧ Forall (fun c => addressChar c = true) (fst (spanAddressChars l))
  ∧ match snd (spanAddressChars l) with
    | [] => True
    | c :: _ => addressChar c = false
    end.
Proof.
  induction l as [|c l (IH1 & IH2 & IH3)]; cbn [spanAddressChars].
  - cbn. auto.
  - destruct (addressChar c) eqn:Hc.
    + destruct (spanAddressChars l) as [word rest]. cbn [fst snd] in *.
      split; [cbn; congruence|]. split; [constructor; assumption | assumption].
    + cbn. auto.
Qed.

Lemma spanAddressChars_stop word c rest :
  Forall (fun c => addressChar c = true) word -> addressChar c = false ->
  spanAddressChars (word ++ c :: rest) = (word, c :: rest).
Proof.
  intros Hw Hc. induction Hw as [|x word Hx _ IH]; cbn [app spanAddressChars].
  - rewrite Hc. reflexivity.
  - rewrite Hx, IH. reflexivity.
Qed.

Lemma interior_dot d :
  existsb (fun c => Ascii.eqb c "."%char) (removelast (tail d)) = true <->
  exists d1 d2, d = d1 ++ "."%char :: d2 ∧ d1 ≠ [] ∧ d2 ≠ [].
Proof.
  split.
  - intros H. destruct d as [|x t]; [discriminate H|]. cbn [tail] in H.
    destruct t as [|y t'] eqn:Et; [discriminate H|]. rewrite <- Et in *.
    assert (Hne : t ≠ []) by (rewrite Et; discriminate).
    apply existsb_exists in H as (c & Hin & Hc). apply Ascii.eqb_eq in Hc. subst c.
    apply in_split in Hin as (a & b & Hab).
    exists (x :: a), (b ++ [List.last t "."%char]). split; [|split].
    + rewrite (app_removelast_last "."%char Hne) at 1. rewrite Hab.
      cbn [app]. rewrite <- app_assoc. reflexivity.
    + discriminate.
    + destruct b; discriminate.
  - intros (d1 & d2 & -> & H1 & H2).
    destruct d1 as [|x a]; [contradiction|]. cbn [app tail].
    rewrite removelast_app by discriminate.
    destruct d2 as [|y d2']; [contradiction|].
    rewrite existsb_app. cbn. apply orb_true_r.
Qed.

Lemma addressChar_dot : addressChar "."%char = true.
Proof. reflexivity. Qed.

Lemma addressChar_at : addressChar "@"%char = false.
Proof. reflexivity. Qed.

Lemma validateEmailAddress_parts (email : string) :
  validateEmailAddress email = true <->
  exists local d1 d2,
    JS.chars email = local ++ "@"%char :: d1 ++ "."%char :: d2
    ∧ local ≠ [] ∧ d1 ≠ [] ∧ d2 ≠ []
    ∧ Forall (fun c => addressChar c = true) local
    ∧ Forall (fun c => addressChar c = true) d1
    ∧ Forall (fun c => addressChar c = true) d2.
Proof.
  unfold validateEmailAddress. split.
  - destruct (spanAddressChars_split (JS.chars email)) as (Hsplit & Hlocal & _).
    destruct (spanAddressChars (JS.chars email)) as [local rest]. cbn [fst snd] in *.
    destruct local as [|c local]; [discriminate|].
    destruct rest as [|at_ domain]; [discriminate|].
    intros H. apply andb_true_iff in H as [Hat Hdom].
    apply Ascii.eqb_eq in Hat. subst at_.
    unfold domainMatches in Hdom. apply andb_true_iff in Hdom as [Hall Hdot].
    apply interior_dot in Hdot as (d1 & d2 & -> & H1 & H2).
    rewrite forallb_forall in Hall.
    exists (c :: local), d1, d2. split; [exact Hsplit|].
    split; [discriminate|]. split; [assumption|]. split; [assumption|].
    split; [assumption|].
    split; apply Forall_forall; intros x Hx; apply Hall, in_or_app;
      [left | right; right]; apply list_elem_of_In; exact Hx.
  - intros (local & d1 & d2 & E & Hl & H1 & H2 & Fl & F1 & F2).
    rewrite E, (spanAddressChars_stop local _ _ Fl addressChar_at).
    destruct local as [|c local]; [contradiction|].
    rewrite Ascii.eqb_refl. cbn [andb]. unfold domainMatches.
    apply andb_true_iff. split.
    + apply forallb_forall. intros x Hx. apply in_app_or in Hx as [Hx|Hx].
      * rewrite Forall_forall in F1. apply F1, list_elem_of_In, Hx.
      * destruct Hx as [<-|Hx]; [apply addressChar_dot|].
        rewrite Forall_forall in F2. apply F2, list_elem_of_In, Hx.
    + apply interior_dot. exists d1, d2. auto.
Qed.

Lemma addressChar_true c :
  addressChar c = true -> JS.isSpace c = false ∧ c ≠ "@"%char.
Proof.
  unfold addressChar. intros H. apply andb_true_iff in H as [Hs Ha].
  apply negb_true_iff in Hs, Ha. split; [assumption | apply Ascii.eqb_neq, Ha].
Qed.

Lemma no_at_filter l :
  Forall (fun c => addressChar c = true) l ->
  filter (fun c => c = "@"%char) l = [].
Proof.
  intros Hl. induction Hl as [|c l Hc _ IH]; [reflexivity|].
  rewrite filter_cons, IH. apply addressChar_true in Hc as [_ Hc].
  rewrite decide_False by assumption. reflexivity.
Qed.

(** X13. [validateEmailAddress] accepts exactly the strings made of a
    non-empty local part, one [@], and a domain with a dot that has at least
    one character on each side, where no part contains white space or [@]
    (the domain may contain more dots). So an accepted address has exactly one
    [@] and no white space. *)
Theorem validateEmailAddress_accepts (email : string) :
  (validateEmailAddress email = true <->
   exists local d1 d2,
     JS.chars email = local ++ "@"%char :: d1 ++ "."%char :: d2
     ∧ local ≠ [] ∧ d1 ≠ [] ∧ d2 ≠ []
     ∧ Forall (fun c => addressChar c = true) local
     ∧ Forall (fun c => addressChar c = true) d1
     ∧ Forall (fun c => addressChar c = true) d2)
  ∧ (validateEmailAddress email = true ->
     length (filter (fun c => c = "@"%char) (JS.chars email)) = 1%nat
     ∧ Forall (fun c => JS.isSpace c = false) (JS.chars email)).
Proof.
  split; [apply validateEmailAddress_parts|].
  intros H. apply validateEmailAddress_parts in H
    as (local & d1 & d2 & E & _ & _ & _ & Fl & F1 & F2).
  rewrite E. split.
  - rewrite filter_app, filter_cons, decide_True by reflexivity.
    rewrite filter_app, filter_cons, decide_False by discriminate.
    rewrite !no_at_filter by assumption. reflexivity.
  - apply Forall_app. split.
    { eapply Forall_impl; [exact Fl|]. intros c Hc. apply addressChar_true, Hc. }
    constructor; [reflexivity|]. apply Forall_app. split.
    { eapply Forall_impl; [exact F1|]. intros c Hc. apply addressChar_true, Hc. }
    constructor; [reflexivity|].
    eapply Forall_impl; [exact F2|]. intros c Hc. apply addressChar_true, Hc.
Qed.

Lemma validateEmailAddress_accepts_witness :
  length (filter (fun c => c = "@"%char) (JS.chars "ann@example.com")) = 1%nat
  ∧ Forall (fun c => JS.isSpace c = false) (JS.chars "ann@example.com").
Proof.
  apply (proj2 (validateEmailAddress_accepts "ann@example.com")).
  reflexivity.
Defined.

(** *** checkRateLimit *)

Lemma checkRateLimit_other operation maxRequests windowMs now rc operation' :
  operation' ≠ operation ->
  snd (checkRateLimit operation maxRequests windowMs now rc) !! operation'
  = rc !! operation'.
Proof.
  intros Hne. unfold checkRateLimit.
  destruct (rc !! operation) as [cur|]; cbn [snd].
  - destruct (resetTime cur <? now); cbn [snd].
    + apply lookup_insert_ne. congruence.
    + destruct (maxRequests <=? count cur); cbn [snd]; [reflexivity|].
      apply lookup_insert_ne. congruence.
  - apply lookup_insert_ne. congruence.
Qed.

Lemma checkAll_other operation maxRequests windowMs times rc operation' :
  operation' ≠ operation ->
  snd (checkAll operation maxRequests windowMs times rc) !! operation'
  = rc !! operation'.
Proof.
  intros Hne. revert rc. induction times as [|now later IH]; intros rc; [reflexivity|].
  cbn [checkAll].
  pose proof (checkRateLimit_other operation maxRequests windowMs now rc _ Hne) as H1.
  destruct (checkRateLimit operation maxRequests windowMs now rc) as [v rc1].
  specialize (IH rc1).
  destruct (checkAll operation maxRequests windowMs later rc1) as [vs rc2].
  cbn [snd] in *. congruence.
Qed.

(** Calls inside a window that is open, with [k] calls counted so far. *)
Lemma checkAll_in_window operation maxRequests windowMs times rc k R :
  rc !! operation = Some {| count := k; resetTime := R |} ->
  Forall (fun now => now <= R) times ->
  Z.of_nat (length (filter (fun v => isAllowed v = true)
                      (fst (checkAll operation maxRequests windowMs times rc))))
  = Z.min (Z.of_nat (length times)) (Z.max 0 (maxRequests - k)).
Proof.
  intros Hrc Htimes. revert rc k Hrc.
  induction Htimes as [|now later Hnow _ IH]; intros rc k Hrc.
  - cbn. lia.
  - cbn [checkAll]. unfold checkRateLimit. rewrite Hrc. cbn [count resetTime].
    destruct (Z.ltb_spec R now); [lia|].
    destruct (Z.leb_spec maxRequests k).
    + specialize (IH rc k Hrc).
      destruct (checkAll operation maxRequests windowMs later rc) as [vs rc'].
      cbn [fst] in *. rewrite filter_cons, decide_False by discriminate.
      cbn [length]. lia.
    + specialize (IH (<[ operation := {| count := k + 1; resetTime := R |} ]> rc)
                     (k + 1) (lookup_insert_eq _ _ _)).
      destruct (checkAll operation maxRequests windowMs later _) as [vs rc'].
      cbn [fst] in *. rewrite filter_cons, decide_True by reflexivity.
      cbn [length]. lia.
Qed.

(** X14. A window opens with a call made when the operation has no counter
    or its counter has expired; that call is allowed, whatever the limit. Of
    the calls made until the window closes (at the opening time plus
    [windowMs]), the first [maxRequests] are allowed (one when [maxRequests]
    is below 1) and all later ones are refused; the counters of other
    operations are not touched. *)
Theorem rate_limit_window (operation : string) (maxRequests windowMs opening : Z)
    (later : list Z) (requestCounts : gmap string Counter) :
  (requestCounts !! operation = None
   ∨ exists current, requestCounts !! operation = Some current
                     ∧ resetTime current < opening) ->
  Forall (fun now => now <= opening + windowMs) later ->
  let r := checkAll operation maxRequests windowMs (opening :: later) requestCounts in
  head (fst r) = Some Allowed
  ∧ Z.of_nat (length (filter (fun v => isAllowed v = true) (fst r)))
    = Z.min (1 + Z.of_nat (length later)) (Z.max 1 maxRequests)
  ∧ forall operation', operation' ≠ operation ->
      snd r !! operation' = requestCounts !! operation'.
Proof.
  intros Hopen Hlater. cbn zeta.
  split; [|split].
  3: { intros operation' Hne. apply checkAll_other, Hne. }
  all: cbn [checkAll];
    assert (Hfirst : checkRateLimit operation maxRequests windowMs opening requestCounts
                     = (Allowed, <[ operation := {| count := 1;
                                                    resetTime := opening + windowMs |} ]>
                                   requestCounts));
    [ unfold checkRateLimit;
      destruct Hopen as [-> | (current & -> & Hexp)]; [reflexivity|];
      destruct (Z.ltb_spec (resetTime current) opening); [reflexivity | lia]
    | rewrite Hfirst ].
  - destruct (checkAll operation maxRequests windowMs later _) as [vs rc']. reflexivity.
  - pose proof (checkAll_in_window operation maxRequests windowMs later
                  (<[ operation := {| count := 1; resetTime := opening + windowMs |} ]>
                     requestCounts) 1 (opening + windowMs)
                  (lookup_insert_eq _ _ _) Hlater) as Hrest.
    destruct (checkAll operation maxRequests windowMs later _) as [vs rc'].
    cbn [fst] in *. rewrite filter_cons, decide_True by reflexivity.
    cbn [length]. lia.
Qed.

Lemma rate_limit_window_witness :
  let r := checkAll "list_messages" 2 60000 [1000; 1500; 2000; 61000] ∅ in
  head (fst r) = Some Allowed
  ∧ Z.of_nat (length (filter (fun v => isAllowed v = true) (fst r))) = 2.
Proof.
  destruct (rate_limit_window "list_messages" 2 60000 1000 [1500; 2000; 61000] ∅)
    as (H1 & H2 & _).
  - left. apply lookup_empty.
  - repeat constructor; lia.
  - split; [exact H1 | exact H2].
Defined.

(** X15. A call that is refused leaves the map of counters as it was. It
    is refused only inside an open window whose count has reached the limit,
    and the wait it reports is the time left in the window, rounded up to
    whole seconds. *)
Theorem rate_limit_refusal (operation : string) (maxRequests windowMs now waitTime : Z)
    (requestCounts requestCounts' : gmap string Counter) :
  checkRateLimit operation maxRequests windowMs now requestCounts
  = (RateLimitExceeded waitTime, requestCounts') ->
  requestCounts' = requestCounts
  ∧ exists current,
      requestCounts !! operation = Some current
      ∧ now <= resetTime current
      ∧ maxRequests <= count current
      ∧ resetTime current - now <= 1000 * waitTime < resetTime current - now + 1000.
Proof.
  unfold checkRateLimit.
  destruct (requestCounts !! operation) as [current|]; [|discriminate].
  destruct (Z.ltb_spec (resetTime current) now); [discriminate|].
  destruct (Z.leb_spec maxRequests (count current)); [|discriminate].
  intros [= <- <-]. split; [reflexivity|].
  exists current. split; [reflexivity|]. split; [assumption|]. split; [assumption|].
  unfold ceilSeconds.
  pose proof (Z.div_mod (- (resetTime current - now)) 1000 ltac:(lia)).
  pose proof (Z.mod_pos_bound (- (resetTime current - now)) 1000 ltac:(lia)).
  lia.
Qed.

Lemma rate_limit_refusal_witness :
  exists current,
    (<[ "search" := {| count := 100; resetTime := 61000 |} ]> ∅ : gmap string Counter)
      !! "search"%string = Some current
    ∧ 2500 <= resetTime current.
Proof.
  destruct (rate_limit_refusal "search" 100 60000 2500 59
              (<[ "search" := {| count := 100; resetTime := 61000 |} ]> ∅)
              (<[ "search" := {| count := 100; resetTime := 61000 |} ]> ∅))
    as (_ & current & H1 & H2 & _).
  - vm_compute. reflexivity.
  - exists current. split; [exact H1 | exact H2].
Defined.

End SecurityFacts.

(* ===================================================================== *)
(** ** Further properties of the mail cache *)
(* ===================================================================== *)

Module CacheMore.
Import Cache CacheFacts.

(** *** Writes: the last one wins, and other keys are left alone *)

(** X16. A write replaces what an earlier write stored under the same key:
    writing twice under one key leaves the tables as the second write alone
    would, for messages, message lists and search results. In particular
    writing the same value twice at the same time is the same as writing it
    once. *)
Theorem cache_last_write_wins :
  (forall t1 t2 (m1 m2 : MailMessage.t) db,
     MailMessage.id m1 = MailMessage.id m2 ->
     cacheMessage t2 m2 (cacheMessage t1 m1 db) = cacheMessage t2 m2 db)
  ∧ (forall t1 t2 cacheKey ids1 ids2 n1 n2 db,
       cacheMessageList t2 cacheKey ids2 n2 (cacheMessageList t1 cacheKey ids1 n1 db)
       = cacheMessageList t2 cacheKey ids2 n2 db)
  ∧ (forall t1 t2 query searchIn ids1 ids2 db,
       cacheSearchResults t2 query searchIn ids2
         (cacheSearchResults t1 query searchIn ids1 db)
       = cacheSearchResults t2 query searchIn ids2 db).
Proof.
  split; [|split].
  - intros t1 t2 m1 m2 db Hid.
    unfold cacheMessage, insertMessage. cbn. rewrite Hid, insert_insert_eq. reflexivity.
  - intros. unfold cacheMessageList, insertMessageList. cbn.
    rewrite insert_insert_eq. reflexivity.
  - intros. unfold cacheSearchResults, insertSearchCache. cbn.
    rewrite insert_insert_eq. reflexivity.
Qed.

Lemma cache_last_write_wins_witness :
  cacheMessage 2000 sampleMessage (cacheMessage 1000 sampleMessage emptyTables)
  = cacheMessage 2000 sampleMessage emptyTables.
Proof.
  apply (proj1 cache_last_write_wins 1000 2000 sampleMessage sampleMessage emptyTables).
  reflexivity.
Defined.

Lemma getCachedFolders_ext now db db' :
  folders db' = folders db -> getCachedFolders now db' = getCachedFolders now db.
Proof. intros H. unfold getCachedFolders. rewrite H. reflexivity. Qed.

(** X17. A single write changes what is read under its own key only: after
    [cacheMessage], [cacheMessageList] or [cacheSearchResults], every read of
    another key of the same table, and every read of the other tables, gives
    what it gave before. *)
Theorem cache_write_frame (now t : Z) (db : Tables) :
  (forall (m : MailMessage.t) id includeContent,
     id ≠ MailMessage.id m ->
     getCachedMessage now id includeContent (cacheMessage t m db)
     = getCachedMessage now id includeContent db)
  ∧ (forall (m : MailMessage.t) cacheKey query searchIn,
       getCachedMessageList now cacheKey (cacheMessage t m db)
       = getCachedMessageList now cacheKey db
       ∧ getCachedSearchResults now query searchIn (cacheMessage t m db)
         = getCachedSearchResults now query searchIn db
       ∧ getCachedFolders now (cacheMessage t m db) = getCachedFolders now db)
  ∧ (forall key ids n cacheKey,
       cacheKey ≠ key ->
       getCachedMessageList now cacheKey (cacheMessageList t key ids n db)
       = getCachedMessageList now cacheKey db)
  ∧ (forall key ids n id includeContent query searchIn,
       getCachedMessage now id includeContent (cacheMessageList t key ids n db)
       = getCachedMessage now id includeContent db
       ∧ getCachedSearchResults now query searchIn (cacheMessageList t key ids n db)
         = getCachedSearchResults now query searchIn db
       ∧ getCachedFolders now (cacheMessageList t key ids n db) = getCachedFolders now db)
  ∧ (forall q s ids query searchIn,
       (query, searchIn) ≠ (q, s) ->
       getCachedSearchResults now query searchIn (cacheSearchResults t q s ids db)
       = getCachedSearchResults now query searchIn db)
  ∧ (forall q s ids id includeContent cacheKey,
       getCachedMessage now id includeContent (cacheSearchResults t q s ids db)
       = getCachedMessage now id includeContent db
       ∧ getCachedMessageList now cacheKey (cacheSearchResults t q s ids db)
         = getCachedMessageList now cacheKey db
       ∧ getCachedFolders now (cacheSearchResults t q s ids db) = getCachedFolders now db).
Proof.
  split; [|split; [|split; [|split; [|split]]]].
  - intros m id inc Hne. rewrite !getCachedMessage_spec. cbn.
    rewrite lookup_insert_ne by congruence. reflexivity.
  - intros. repeat split.
  - intros key ids n cacheKey Hne. rewrite !getCachedMessageList_spec. cbn.
    rewrite lookup_insert_ne by congruence. reflexivity.
  - intros. repeat split.
  - intros q s ids query searchIn Hne. rewrite !getCachedSearchResults_spec. cbn.
    rewrite lookup_insert_ne by congruence. reflexivity.
  - intros. repeat split.
Qed.

Lemma cache_write_frame_witness :
  getCachedMessage 1000 "m2" true (cacheMessage 1000 sampleMessage emptyTables) = None.
Proof.
  rewrite (proj1 (cache_write_frame 1000 1000 emptyTables) sampleMessage "m2" true)
    by discriminate.
  reflexivity.
Defined.

(** *** cleanup and the reads *)

Lemma TTLs_within_retention :
  FOLDER_TTL <= 86400000 ∧ MESSAGE_LIST_TTL <= 86400000
  ∧ MESSAGE_CONTENT_TTL <= 86400000 ∧ SEARCH_TTL <= 86400000.
Proof. unfold FOLDER_TTL, MESSAGE_LIST_TTL, MESSAGE_CONTENT_TTL, SEARCH_TTL. lia. Qed.

Lemma cleanup_lookups now db :
  (forall key, folders (cleanup now db) !! key =
     match folders db !! key with
     | Some row => if f_cached_at row <? now - 86400000 then None else Some row
     | None => None
     end)
  ∧ (forall key, messages (cleanup now db) !! key =
       match messages db !! key with
       | Some row => if m_cached_at row <? now - 86400000 then None else Some row
       | None => None
       end)
  ∧ (forall key, message_lists (cleanup now db) !! key =
       match message_lists db !! key with
       | Some row => if l_cached_at row <? now - 86400000 then None else Some row
       | None => None
       end)
  ∧ (forall key, search_cache (cleanup now db) !! key =
       match search_cache db !! key with
       | Some row => if s_cached_at row <? now - 86400000 then None else Some row
       | None => None
       end).
Proof.
  unfold cleanup. cbn. repeat split; intros key.
  - apply (lookup_retained f_cached_at).
  - apply (lookup_retained m_cached_at).
  - apply (lookup_retained l_cached_at).
  - apply (lookup_retained s_cached_at).
Qed.

(** X18. [cleanup] never turns a hit into a miss: a read made at the time
    of the cleanup or later gives the same answer on the cleaned tables as on
    the tables before, for messages, message lists and search results, and
    the folder read finds the same folders. What [cleanup] deletes was
    already too old for every read. *)
Theorem cleanup_invisible_to_reads (now now' : Z) (db : Tables) :
  now <= now' ->
  (forall id includeContent,
     getCachedMessage now' id includeContent (cleanup now db)
     = getCachedMessage now' id includeContent db)
  ∧ (forall cacheKey,
       getCachedMessageList now' cacheKey (cleanup now db)
       = getCachedMessageList now' cacheKey db)
  ∧ (forall query searchIn,
       getCachedSearchResults now' query searchIn (cleanup now db)
       = getCachedSearchResults now' query searchIn db)
  ∧ (getCachedFolders now' (cleanup now db) = None <-> getCachedFolders now' db = None)
  ∧ (forall folder,
       folder ∈ default [] (getCachedFolders now' (cleanup now db))
       <-> folder ∈ default [] (getCachedFolders now' db)).
Proof.
  intros Hle. destruct (cleanup_lookups now db) as (Hf & Hm & Hl & Hs).
  destruct TTLs_within_retention as (Tf & Tl & Tc & Ts).
  split; [|split; [|split]].
  - intros id inc. rewrite !getCachedMessage_spec, Hm.
    destruct (messages db !! id) as [row|]; [|reflexivity].
    destruct (Z.ltb_spec (m_cached_at row) (now - 86400000)); [|reflexivity].
    destruct inc;
      match goal with |- _ = if ?a <? ?b then _ else _ =>
        destruct (Z.ltb_spec a b); [exfalso; lia | reflexivity] end.
  - intros key. rewrite !getCachedMessageList_spec, Hl.
    destruct (message_lists db !! key) as [row|]; [|reflexivity].
    destruct (Z.ltb_spec (l_cached_at row) (now - 86400000)); [|reflexivity].
    destruct (Z.ltb_spec (now' - l_cached_at row) MESSAGE_LIST_TTL);
      [exfalso; lia | reflexivity].
  - intros q s. rewrite !getCachedSearchResults_spec, Hs.
    destruct (search_cache db !! (q, s)) as [row|]; [|reflexivity].
    destruct (Z.ltb_spec (s_cached_at row) (now - 86400000)); [|reflexivity].
    destruct (Z.ltb_spec (now' - s_cached_at row) SEARCH_TTL);
      [exfalso; lia | reflexivity].
  - assert (Hfresh : forall key row,
              now' - f_cached_at row < FOLDER_TTL ->
              (folders (cleanup now db) !! key = Some row
               <-> folders db !! key = Some row)).
    { intros key row Hfr. rewrite Hf.
      destruct (folders db !! key) as [row'|]; [|tauto].
      destruct (Z.ltb_spec (f_cached_at row') (now - 86400000)).
      - split; [discriminate | intros [= ->]; exfalso; lia].
      - tauto. }
    pose proof (getCachedFolders_spec now' (cleanup now db)) as Hc.
    pose proof (getCachedFolders_spec now' db) as Hd.
    destruct (getCachedFolders now' (cleanup now db)) as [rc|],
             (getCachedFolders now' db) as [rd|]; cbn [default].
    + destruct Hc as [_ Hc], Hd as [_ Hd]. split; [split; discriminate|].
      intros folder. rewrite Hc, Hd.
      split; intros (key & row & Hk & Hfr & ->); exists key, row;
        (split; [apply (Hfresh key row Hfr); exact Hk | auto]).
    + exfalso. destruct Hc as [Hne Hc]. destruct rc as [|f rc]; [contradiction|].
      destruct (proj1 (Hc f) ltac:(left)) as (key & row & Hk & Hfr & _).
      apply (Hfresh key row Hfr) in Hk. specialize (Hd key row Hk). lia.
    + exfalso. destruct Hd as [Hne Hd]. destruct rd as [|f rd]; [contradiction|].
      destruct (proj1 (Hd f) ltac:(left)) as (key & row & Hk & Hfr & _).
      apply (Hfresh key row Hfr) in Hk. specialize (Hc key row Hk). lia.
    + split; [tauto|]. intros folder. tauto.
Qed.

Lemma cleanup_invisible_to_reads_witness :
  getCachedMessage 5000 "m1" true
    (cleanup 2000 (cacheMessage 1000 sampleMessage emptyTables))
  = getCachedMessage 5000 "m1" true (cacheMessage 1000 sampleMessage emptyTables).
Proof.
  apply (cleanup_invisible_to_reads 2000 5000
           (cacheMessage 1000 sampleMessage emptyTables)).
  lia.
Defined.

(** X19. Cleaning twice is cleaning once: [cleanup] at a time followed by
    [cleanup] at another time leaves the tables as one [cleanup] at the later
    of the two times; in particular [cleanup] repeated at the same time
    changes nothing more. *)
Theorem cleanup_twice (t1 t2 : Z) (db : Tables) :
  cleanup t2 (cleanup t1 db) = cleanup (Z.max t1 t2) db
  ∧ cleanup t1 (cleanup t1 db) = cleanup t1 db.
Proof.
  assert (H : forall a b, cleanup b (cleanup a db) = cleanup (Z.max a b) db).
  { intros a b. unfold cleanup. cbn.
    f_equal; apply map_filter_strong_ext; intros key row;
      rewrite map_lookup_filter_Some; cbn; intuition lia. }
  split; [apply H|]. rewrite H, Z.max_id. reflexivity.
Qed.

(** *** Reading after a batch *)

Lemma find_rev_last {R K : Type} `{EqDecision K} (key : R -> K) (rows : list R)
    (k : nat) (row : R) :
  NoDup (key <$> rows) ->
  rows !! k = Some row ->
  find (fun r => bool_decide (key r = key row)) (rev rows) = Some row.
Proof.
  induction rows as [|x rows IH] using rev_ind; intros Hnd Hk.
  - discriminate.
  - rewrite rev_app_distr. cbn [rev app find].
    rewrite fmap_app in Hnd. apply NoDup_app in Hnd as (Hnd & Hdisj & _).
    destruct (decide (k < length rows)%nat) as [Hlt|Hge].
    + rewrite lookup_app_l in Hk by exact Hlt.
      rewrite bool_decide_eq_false_2.
      * apply IH; assumption.
      * intros Heq. apply (Hdisj (key row)).
        -- apply list_elem_of_fmap. exists row. split; [reflexivity|].
           eapply list_elem_of_lookup_2; exact Hk.
        -- rewrite <- Heq. cbn. apply list_elem_of_here.
    + rewrite lookup_app_r in Hk by lia.
      destruct (k - length rows)%nat; [|discriminate].
      injection Hk as ->. rewrite bool_decide_eq_true_2 by reflexivity. reflexivity.
Qed.

Lemma find_rev_absent {R K : Type} `{EqDecision K} (key : R -> K) (rows : list R)
    (x : K) :
  x ∉ key <$> rows ->
  find (fun r => bool_decide (key r = x)) (rev rows) = None.
Proof.
  intros Hnot. destruct (find _ (rev rows)) as [row|] eqn:Hfind; [|reflexivity].
  apply find_some in Hfind as [Hin Hkey]. apply bool_decide_eq_true_1 in Hkey.
  exfalso. apply Hnot. apply list_elem_of_fmap. exists row. split; [auto|].
  apply list_elem_of_In. apply in_rev. exact Hin.
Qed.

Lemma stampedRows_lookup clock (batch : list MailMessage.t) k m :
  batch !! k = Some m -> stampedRows clock batch !! k = Some (messageRow (clock k) m).
Proof.
  intros Hk. unfold stampedRows.
  rewrite list_lookup_fmap, list_lookup_imap, Hk. reflexivity.
Qed.

Lemma stampedRows_ids clock (batch : list MailMessage.t) :
  m_id <$> stampedRows clock batch = MailMessage.id <$> batch.
Proof.
  unfold stampedRows. apply list_eq. intros i.
  rewrite !list_lookup_fmap, list_lookup_imap.
  destruct (batch !! i); reflexivity.
Qed.

(** X20. Once [cacheMessages] has returned for a batch of messages with
    distinct ids, each message of the batch is read back from its own row:
    [getCachedMessage] on its id gives the message as [cacheMessage] stored it
    as long as the age counted from that message's own timestamp is below the
    TTL, and a miss from then on; the ids that are not in the batch read as
    before the call. After a call that threw, every id reads as before. *)
Theorem cacheMessages_then_read (fault : nat -> bool) (commitFault : bool)
    (clock : nat -> Z) (batch : list MailMessage.t) (db : Tables) :
  NoDup (MailMessage.id <$> batch) ->
  let r := cacheMessages fault commitFault clock batch db in
  match outcome r with
  | Returned =>
    (forall k m now includeContent,
       batch !! k = Some m ->
       getCachedMessage now (MailMessage.id m) includeContent (committed (final r)) =
       if now - clock k <? (if includeContent then MESSAGE_CONTENT_TTL
                            else MESSAGE_LIST_TTL)
       then Some (messageOfRow includeContent (messageRow (clock k) m))
       else None)
    ∧ (forall id now includeContent,
         id ∉ MailMessage.id <$> batch ->
         getCachedMessage now id includeContent (committed (final r))
         = getCachedMessage now id includeContent db)
  | Thrown =>
    forall id now includeContent,
      getCachedMessage now id includeContent (committed (final r))
      = getCachedMessage now id includeContent db
  end.
Proof.
  intros Hnd r. subst r. unfold cacheMessages.
  destruct (transaction_atomic fault commitFault insertMessage
              (stampedRows clock batch) db) as (_ & _ & Hfin).
  cbv zeta in Hfin.
  destruct (outcome _) eqn:Ho.
  - destruct (allWritten_messages (stampedRows clock batch) db) as (Hm & _).
    split.
    + intros k m now inc Hk. rewrite getCachedMessage_spec, Hfin, Hm.
      pose proof (find_rev_last m_id (stampedRows clock batch) k
                    (messageRow (clock k) m)) as Hfind.
      rewrite stampedRows_ids in Hfind.
      specialize (Hfind Hnd (stampedRows_lookup clock batch k m Hk)).
      cbn [m_id messageRow] in Hfind. rewrite Hfind. reflexivity.
    + intros id now inc Hid. rewrite !getCachedMessage_spec, Hfin, Hm.
      rewrite (find_rev_absent m_id); [reflexivity|].
      rewrite stampedRows_ids. exact Hid.
  - intros id now inc. rewrite Hfin. reflexivity.
Qed.

Lemma cacheMessages_then_read_witness :
  getCachedMessage 5000 "m1" true
    (committed (final (cacheMessages (fun _ => false) false (fun _ => 1000)
                         [sampleMessage] emptyTables)))
  = Some (messageOfRow true (messageRow 1000 sampleMessage)).
Proof.
  pose proof (cacheMessages_then_read (fun _ => false) false (fun _ => 1000)
                [sampleMessage] emptyTables) as H.
  cbv zeta in H.
  assert (Hnd : NoDup (MailMessage.id <$> [sampleMessage])).
  { apply NoDup_singleton. }
  specialize (H Hnd).
  change (outcome (cacheMessages (fun _ => false) false (fun _ => 1000)
                     [sampleMessage] emptyTables)) with Returned in H.
  destruct H as [H _].
  exact (H 0%nat sampleMessage 5000 true eq_refl).
Defined.

(** X21. Once [cacheFolders] has returned, a folder read made less than
    an hour after the batch's timestamp is a hit, when the batch is not
    empty, that holds, for every folder of the batch, the folder of the batch
    that was written last under the same name and account; a folder read
    after a call that threw finds what it found before. *)
Theorem cacheFolders_then_read (fault : nat -> bool) (commitFault : bool)
    (t now : Z) (batch : list MailFolder.t) (db : Tables) :
  now - t < FOLDER_TTL ->
  batch ≠ [] ->
  let r := cacheFolders fault commitFault t batch db in
  match outcome r with
  | Returned =>
    exists result,
      getCachedFolders now (committed (final r)) = Some result
      ∧ forall folder, folder ∈ batch ->
          exists folder', folder' ∈ batch ∧ folder' ∈ result
            ∧ MailFolder.name folder' = MailFolder.name folder
            ∧ MailFolder.accountName folder' = MailFolder.accountName folder
  | Thrown => getCachedFolders now (committed (final r)) = getCachedFolders now db
  end.
Proof.
  intros Hage Hne r. subst r. unfold cacheFolders.
  destruct (transaction_atomic fault commitFault insertFolder
              (folderRow t <$> batch) db) as (_ & _ & Hfin).
  cbv zeta in Hfin.
  destruct (outcome _) eqn:Ho; [|rewrite Hfin; reflexivity].
  rewrite Hfin.
  destruct (allWritten_folders (folderRow t <$> batch) db) as (Hf & _).
  set (db' := allWritten insertFolder (folderRow t <$> batch) db) in *.
  assert (Hwritten : forall folder, folder ∈ batch ->
            exists folder', folder' ∈ batch
              ∧ folders db' !! (MailFolder.name folder, MailFolder.accountName folder)
                = Some (folderRow t folder')
              ∧ MailFolder.name folder' = MailFolder.name folder
              ∧ MailFolder.accountName folder' = MailFolder.accountName folder).
  { intros folder Hin. rewrite Hf.
    destruct (find _ (rev (folderRow t <$> batch))) as [row|] eqn:Hfind.
    - apply find_some in Hfind as [Hrow Hkey].
      apply bool_decide_eq_true_1 in Hkey.
      apply in_rev, list_elem_of_In, list_elem_of_fmap in Hrow as (folder' & -> & Hin').
      exists folder'. cbn in Hkey. injection Hkey as Hn Ha. auto.
    - exfalso.
      assert (Hrow : In (folderRow t folder) (rev (folderRow t <$> batch))).
      { apply -> in_rev. apply list_elem_of_In.
        apply list_elem_of_fmap. exists folder. auto. }
      pose proof (find_none _ _ Hfind _ Hrow) as Hfalse. cbn in Hfalse.
      rewrite bool_decide_eq_true_2 in Hfalse by reflexivity. discriminate. }
  pose proof (getCachedFolders_spec now db') as Hspec.
  destruct (getCachedFolders now db') as [result|].
  - exists result. split; [reflexivity|]. destruct Hspec as [_ Hspec].
    intros folder Hin. destruct (Hwritten folder Hin) as (folder' & Hin' & Hrow & Hn & Ha).
    exists folder'. split; [exact Hin'|]. split; [|split; assumption].
    apply Hspec. eexists _, _. split; [exact Hrow|]. split; [cbn; lia|].
    destruct folder'. reflexivity.
  - exfalso. destruct batch as [|folder batch]; [contradiction|].
    destruct (Hwritten folder ltac:(left)) as (folder' & _ & Hrow & _).
    specialize (Hspec _ _ Hrow). cbn in Hspec. lia.
Qed.

Lemma cacheFolders_then_read_witness :
  exists result,
    getCachedFolders 5000
      (committed (final (cacheFolders (fun _ => false) false 1000 [sampleFolder]
                           emptyTables))) = Some result
    ∧ sampleFolder ∈ result.
Proof.
  pose proof (cacheFolders_then_read (fun _ => false) false 1000 5000 [sampleFolder]
                emptyTables) as H.
  assert (Hage : 5000 - 1000 < FOLDER_TTL) by (unfold FOLDER_TTL; lia).
  assert (Hne : [sampleFolder] ≠ []) by discriminate.
  specialize (H Hage Hne). cbv zeta in H.
  change (outcome (cacheFolders (fun _ => false) false 1000 [sampleFolder] emptyTables))
    with Returned in H.
  destruct H as (result & Hread & Hall).
  exists result. split; [exact Hread|].
  destruct (Hall sampleFolder ltac:(left)) as (folder' & Hin & Hres & _).
  apply list_elem_of_singleton in Hin. subst folder'. exact Hres.
Defined.

End CacheMore.

(* ===================================================================== *)
(** ** Properties of the hybrid client *)
(* ===================================================================== *)

Module HybridFacts.
Import Dedup DedupSpec DedupFacts DedupMore Hybrid HybridSpec.

(** *** getMessages *)

Lemma slice0_take {A : Type} (limit : Z) (l : list A) :
  exists n, slice0 limit l = take n l.
Proof. unfold slice0. destruct (limit <? 0); eauto. Qed.

Lemma slice0_length {A : Type} (limit : Z) (l : list A) :
  0 <= limit -> Z.of_nat (length (slice0 limit l)) <= limit.
Proof.
  intros Hpos. unfold slice0. destruct (Z.ltb_spec limit 0); [lia|].
  rewrite length_take. lia.
Qed.

Lemma descending_take n l : descending l -> descending (take n l).
Proof.
  unfold descending. intros Hl. revert n.
  induction Hl as [|m l Hl IH Hm]; intros [|n]; cbn; try constructor.
  - apply IH.
  - apply Forall_take, Hm.
Qed.

Lemma retained_full_head st m l :
  retained st (m :: l) = m :: l ->
  firstMatch st m = false ∧ retained (recordMessage st m) l = l.
Proof.
  cbn. destruct (firstMatch st m).
  - intros Heq. pose proof (sublist_length _ _ (retained_sublist st l)) as Hlen.
    rewrite Heq in Hlen. cbn in Hlen. lia.
  - intros [= Heq]. auto.
Qed.

(** Leaving out the oldest messages of a list from which nothing is dropped
    gives a list from which nothing is dropped. *)
Lemma retained_take st l n : retained st l = l -> retained st (take n l) = take n l.
Proof.
  revert st n. induction l as [|m l IH]; intros st [|n] Hfull; try reflexivity.
  apply retained_full_head in Hfull as [Hm Hl].
  cbn. rewrite Hm. f_equal. apply IH, Hl.
Qed.

Lemma firstMatch_isDuplicate st m stats :
  firstMatch st m = false -> isDuplicate st m stats = (false, stats).
Proof.
  unfold firstMatch, isDuplicate.
  destruct (globalIdSeen st m), (messageIdSeen st m), (contentHashSeen st m),
    (fuzzySeen st m); cbn; (discriminate || reflexivity).
Qed.

(** A scan that drops nothing counts nothing. *)
Lemma scan_full_methods l sc :
  retained (scanState sc) l = l ->
  deduplicationMethods (scanStats (fold_left scanStep l sc))
  = deduplicationMethods (scanStats sc).
Proof.
  revert sc. induction l as [|m l IH]; intros sc Hfull; cbn [fold_left];
    [reflexivity|].
  apply retained_full_head in Hfull as [Hm Hl].
  rewrite IH.
  - rewrite scanStep_stats, (firstMatch_isDuplicate _ _ _ Hm). reflexivity.
  - rewrite scanStep_state, Hm. exact Hl.
Qed.

Lemma skipped_addMessageContent emlx options u macMessage :
  skipped options (addMessageContent emlx u macMessage) = skipped options u.
Proof. unfold addMessageContent. destruct (emlx _ _); reflexivity. Qed.

Lemma existsb_elem_of {A : Type} (f : A -> bool) (l : list A) :
  existsb f l = true -> exists x, x ∈ l ∧ f x = true.
Proof.
  intros H. apply existsb_exists in H as (x & Hin & Hx).
  exists x. split; [apply list_elem_of_In; exact Hin | exact Hx].
Qed.

Lemma skipped_passedFilters options u :
  skipped options u = false ->
  (unreadOnlyOf options = true -> isRead u = false)
  ∧ (flaggedOnlyOf options = true -> isFlagged u = true)
  ∧ (accountsOf options ≠ [] ->
     exists acc, acc ∈ accountsOf options ∧ includes (account u) acc = true).
Proof.
  unfold skipped.
  destruct (unreadOnlyOf options), (isRead u); cbn; try discriminate;
    destruct (flaggedOnlyOf options), (isFlagged u); cbn; try discriminate;
    intros Hacc; (split; [intros; congruence || reflexivity|]);
    (split; [intros; congruence || reflexivity|]);
    intros Hne; destruct (accountsOf options) as [|a rest] eqn:Ha;
    try contradiction;
    change (0 <? Z.of_nat (length (a :: rest))) with true in Hacc;
    cbn [andb] in Hacc; apply negb_false_iff in Hacc;
    apply existsb_elem_of in Hacc; exact Hacc.
Qed.

Lemma allMessages_passedFilters getRecentMessages emlx options :
  Forall (passedFilters options) (allMessages getRecentMessages emlx options).
Proof.
  unfold allMessages. destruct (getRecentMessages _ _) as [macMessages|];
    [|constructor].
  induction macMessages as [|mm rest IH]; cbn [flat_map]; [constructor|].
  apply Forall_app. split; [|exact IH].
  unfold macStep. cbv zeta.
  destruct (skipped options (fromMacMail mm)) eqn:Hskip; [constructor|].
  destruct (includeContentOf options) eqn:Hinc.
  - constructor; [|constructor].
    rewrite <- (skipped_addMessageContent emlx _ _ mm) in Hskip.
    apply skipped_passedFilters in Hskip as (Hu & Hf & Ha).
    split; [unfold addMessageContent; destruct (emlx _ _); reflexivity|].
    repeat (split; [assumption|]). intros Hno. congruence.
  - constructor; [|constructor].
    apply skipped_passedFilters in Hskip as (Hu & Hf & Ha).
    split; [reflexivity|]. repeat (split; [assumption|]).
    intros _. repeat split.
Qed.

Lemma uniqueMessages_descending messages :
  descending (Result.uniqueMessages (deduplicate messages)).
Proof. rewrite deduplicate_unique. apply retained_descending, sortByDateDesc_descending. Qed.

Lemma getMessages_take getRecentMessages emlx options :
  exists n,
    getMessages getRecentMessages emlx options =
    take n (retained reset
              (sortByDateDesc (allMessages getRecentMessages emlx options))).
Proof.
  unfold getMessages. cbv zeta.
  rewrite (sortByDateDesc_fixed _ (uniqueMessages_descending _)).
  rewrite deduplicate_unique. apply slice0_take.
Qed.

Lemma getMessages_passedFilters getRecentMessages emlx options :
  Forall (passedFilters options) (getMessages getRecentMessages emlx options).
Proof.
  destruct (getMessages_take getRecentMessages emlx options) as [n ->].
  apply Forall_take, retained_Forall, sortByDateDesc_Forall, allMessages_passedFilters.
Qed.

(** X22. [getMessages] returns the unique messages of the deduplication
    cut to [limit]: its own sort changes nothing, because [deduplicate]
    returns them newest first already. The result is newest first, has at
    most [limit] messages when [limit] is not negative, and is empty when the
    Mac Mail query throws. Every message of it comes from Mac Mail, passed
    the filters of the options (unread only, flagged only, one of the account
    names contained in its account), and carries no content, [to] or [cc]
    unless [includeContent] was asked for. *)
Theorem getMessages_result
    (getRecentMessages : Z -> Z -> option (list MacMailMessage.t))
    (emlx : string -> Z -> option EmlxMessage.t) (options : HybridQueryOptions.t) :
  let result := getMessages getRecentMessages emlx options in
  result = slice0 (limitOf options)
             (Result.uniqueMessages
                (deduplicate (allMessages getRecentMessages emlx options)))
  ∧ descending result
  ∧ (0 <= limitOf options -> Z.of_nat (length result) <= limitOf options)
  ∧ (getRecentMessages (daysBackOf options) (limitOf options) = None -> result = [])
  ∧ Forall (passedFilters options) result.
Proof.
  intros result. subst result.
  split; [|split; [|split; [|split]]].
  - unfold getMessages. cbv zeta.
    rewrite (sortByDateDesc_fixed _ (uniqueMessages_descending _)). reflexivity.
  - destruct (getMessages_take getRecentMessages emlx options) as [n ->].
    apply descending_take, retained_descending, sortByDateDesc_descending.
  - intros Hpos. unfold getMessages. cbv zeta. apply slice0_length, Hpos.
  - intros Hthrow. unfold getMessages, allMessages. rewrite Hthrow. cbv zeta.
    change (sortByDateDesc (Result.uniqueMessages (deduplicate []))) with (@nil UnifiedMessage).
    unfold slice0. destruct (_ <? _); apply take_nil.
  - apply getMessages_passedFilters.
Qed.

(** *** getStatistics *)

Lemma getMessages_full getRecentMessages emlx options :
  let messages := getMessages getRecentMessages emlx options in
  descending messages ∧ retained reset messages = messages.
Proof.
  cbv zeta. destruct (getMessages_take getRecentMessages emlx options) as [n ->].
  split.
  - apply descending_take, retained_descending, sortByDateDesc_descending.
  - apply retained_take, retained_idempotent.
Qed.

Lemma filter_length_all {A : Type} (f : A -> bool) (l : list A) :
  Forall (fun x => f x = true) l -> length (List.filter f l) = length l.
Proof.
  induction 1 as [|x l Hx Hl IH]; cbn; [reflexivity|]. rewrite Hx. cbn. congruence.
Qed.

Lemma filter_length_none {A : Type} (f : A -> bool) (l : list A) :
  Forall (fun x => f x = false) l -> length (List.filter f l) = 0%nat.
Proof.
  induction 1 as [|x l Hx Hl IH]; cbn; [reflexivity|]. rewrite Hx. exact IH.
Qed.

(** X23. The deduplication statistics that [getStatistics] reports never
    show a duplicate: they are computed on the result of [getMessages], which
    is deduplicated already, so [duplicatesRemoved] and the four counters of
    [deduplicationMethods] are zero and [uniqueMessages] is the number of
    messages, whatever the mailbox holds. All the messages counted come from
    Mac Mail. *)
Theorem getStatistics_no_duplicates
    (getRecentMessages : Z -> Z -> option (list MacMailMessage.t))
    (emlx : string -> Z -> option EmlxMessage.t) (options : HybridQueryOptions.t) :
  let stats := getStatistics getRecentMessages emlx options in
  let dedup := HybridEmailStats.deduplicationStats stats in
  duplicatesRemoved dedup = 0
  ∧ deduplicationMethods dedup =
      {| Methods.globalMessageId := 0; Methods.messageIdHeader := 0;
         Methods.contentHash := 0; Methods.fuzzyMatch := 0 |}
  ∧ uniqueMessages dedup = HybridEmailStats.totalMessages stats
  ∧ totalMessages dedup = HybridEmailStats.totalMessages stats
  ∧ macMail (HybridEmailStats.bySource stats) = HybridEmailStats.totalMessages stats
  ∧ imap (HybridEmailStats.bySource stats) = 0.
Proof.
  intros stats dedup. subst dedup stats. unfold getStatistics. cbv zeta.
  cbn [HybridEmailStats.deduplicationStats HybridEmailStats.totalMessages
       HybridEmailStats.bySource macMail imap].
  set (options' := withIncludeContent options false).
  destruct (getMessages_full getRecentMessages emlx options') as [Hdesc Hfull].
  cbv zeta in Hdesc, Hfull.
  pose proof (getMessages_passedFilters getRecentMessages emlx options') as Hall.
  set (messages := getMessages getRecentMessages emlx options') in *.
  destruct (deduplicate_counts messages) as (Htot & Huniq & Hsum & _).
  cbv zeta in Htot, Huniq, Hsum.
  assert (Hu : Result.uniqueMessages (deduplicate messages) = messages).
  { rewrite deduplicate_unique, (sortByDateDesc_fixed _ Hdesc). exact Hfull. }
  rewrite Hu in Huniq.
  split; [lia|]. split; [|split; [lia|split; [lia|]]].
  - unfold deduplicate. cbn [Result.stats deduplicationMethods].
    rewrite (sortByDateDesc_fixed _ Hdesc).
    rewrite scan_full_methods; [reflexivity | exact Hfull].
  - split.
    + rewrite filter_length_all; [reflexivity|].
      eapply Forall_impl; [exact Hall|]. intros m (Hs & _). rewrite Hs. reflexivity.
    + rewrite filter_length_none; [reflexivity|].
      eapply Forall_impl; [exact Hall|]. intros m (Hs & _). rewrite Hs. reflexivity.
Qed.

(** *** searchMessages *)

Lemma includesChars_nil text : includesChars text [] = true.
Proof. destruct text; reflexivity. Qed.

Lemma isSpace_lowerChar c : JS.isSpace c = true -> JS.lowerChar c = c.
Proof.
  destruct c as [[] [] [] [] [] [] [] []]; vm_compute; (discriminate || reflexivity).
Qed.

Lemma chars_append s1 s2 : JS.chars (String.append s1 s2) = JS.chars s1 ++ JS.chars s2.
Proof.
  unfold JS.chars. induction s1 as [|c s1 IH]; simpl; [reflexivity|].
  f_equal. exact IH.
Qed.

Lemma chars_toLowerCase s : JS.chars (JS.toLowerCase s) = JS.lowerChars (JS.chars s).
Proof. unfold JS.toLowerCase. apply chars_str. Qed.

(** A blank text splits into empty parts only. *)
Lemma splitSpaces_blank cur l :
  Forall (fun c => JS.isSpace c = true) l ->
  default [] cur = [] ->
  Forall (fun term => term = []) (splitSpaces cur l).
Proof.
  intros Hl. revert cur. induction Hl as [|c l Hc Hl IH]; intros cur Hcur; cbn.
  - constructor; [exact Hcur | constructor].
  - rewrite Hc. destruct cur as [part|].
    + constructor; [exact Hcur | apply IH; reflexivity].
    + apply IH. reflexivity.
Qed.

(** For a test that the empty part passes, it is the same to start inside a
    run of white space and to start on an empty part. *)
Lemma forallb_splitSpaces_run (P : list ascii -> bool) l :
  P [] = true ->
  forallb P (splitSpaces None l) = forallb P (splitSpaces (Some []) l).
Proof.
  intros HP. destruct l as [|c rest]; cbn; [reflexivity|].
  destruct (JS.isSpace c); cbn; [rewrite HP|]; reflexivity.
Qed.

Lemma forallb_splitSpaces_app (P : list ascii -> bool) cur l1 sp l2 :
  P [] = true ->
  JS.isSpace sp = true ->
  forallb P (splitSpaces cur (l1 ++ sp :: l2))
  = forallb P (splitSpaces cur l1) && forallb P (splitSpaces (Some []) l2).
Proof.
  intros HP Hsp. revert cur. induction l1 as [|c l1 IH]; intros cur; cbn.
  - rewrite Hsp. destruct cur as [part|]; cbn.
    + rewrite andb_true_r, (forallb_splitSpaces_run P l2 HP). reflexivity.
    + rewrite HP. cbn. apply forallb_splitSpaces_run, HP.
  - destruct (JS.isSpace c); [destruct cur as [part|]|]; cbn; rewrite IH;
      try rewrite andb_assoc; reflexivity.
Qed.

Lemma filter_all {A : Type} (f : A -> bool) (l : list A) :
  (forall x, f x = true) -> List.filter f l = l.
Proof.
  intros Hf. induction l as [|x l IH]; cbn; [reflexivity|]. rewrite Hf, IH. reflexivity.
Qed.

Lemma filter_filter {A : Type} (f g : A -> bool) (l : list A) :
  List.filter g (List.filter f l) = List.filter (fun x => f x && g x) l.
Proof.
  induction l as [|x l IH]; cbn; [reflexivity|].
  destruct (f x); cbn; [destruct (g x)|]; rewrite IH; reflexivity.
Qed.

(** X24. A query that is empty or made of white space only filters
    nothing out: [searchMessages] then returns every message that
    [getMessages] returns with [includeContent] set, because the only search
    terms are empty strings, which every text includes. *)
Theorem searchMessages_blank_query
    (getRecentMessages : Z -> Z -> option (list MacMailMessage.t))
    (emlx : string -> Z -> option EmlxMessage.t)
    (query : string) (options : HybridQueryOptions.t) :
  Forall (fun c => JS.isSpace c = true) (JS.chars query) ->
  searchMessages getRecentMessages emlx query options
  = getMessages getRecentMessages emlx (withIncludeContent options true).
Proof.
  intros Hblank. unfold searchMessages. cbv zeta. apply filter_all. intros m.
  unfold matchesTerms, searchTerms. rewrite chars_toLowerCase.
  apply forallb_forall. intros term Hin.
  assert (Hterms : Forall (fun term => term = [])
                     (splitSpaces (Some []) (JS.lowerChars (JS.chars query)))).
  { apply splitSpaces_blank; [|reflexivity].
    unfold JS.lowerChars. apply Forall_map.
    eapply Forall_impl; [exact Hblank|]. cbn.
    intros c Hc. rewrite (isSpace_lowerChar c Hc). exact Hc. }
  rewrite Forall_forall in Hterms.
  rewrite (Hterms term (proj2 (list_elem_of_In _ _) Hin)).
  apply includesChars_nil.
Qed.

(** The mailbox and the options of the examples: two messages, no filter. *)
Lemma searchMessages_blank_query_witness :
  searchMessages
    (fun _ _ => Some [sampleMac 1 "Budget review"; sampleMac 2 "Lunch"])
    (fun _ _ => None) "  " noOptions
  = getMessages
      (fun _ _ => Some [sampleMac 1 "Budget review"; sampleMac 2 "Lunch"])
      (fun _ _ => None) (withIncludeContent noOptions true).
Proof.
  apply (searchMessages_blank_query
           (fun _ _ => Some [sampleMac 1 "Budget review"; sampleMac 2 "Lunch"])
           (fun _ _ => None) "  " noOptions).
  repeat constructor.
Defined.

(** X25. For queries made of characters below U+0100 (the strings of this
    embedding, on which [toLowerCase] maps each character on its own): two
    queries joined by a white-space character select the messages that both
    select. Searching for the joined query is searching for the second query
    among the results of the first, so a longer query never finds more.
    Outside this range the lower case of a character can depend on its
    neighbours (a final sigma), and the terms of the joined query need not
    be those of the two queries. *)
Theorem searchMessages_joined_queries
    (getRecentMessages : Z -> Z -> option (list MacMailMessage.t))
    (emlx : string -> Z -> option EmlxMessage.t)
    (query1 query2 : string) (sp : ascii) (options : HybridQueryOptions.t) :
  JS.isSpace sp = true ->
  searchMessages getRecentMessages emlx
    (String.append query1 (String sp query2)) options
  = List.filter (matchesTerms (searchTerms query2))
      (searchMessages getRecentMessages emlx query1 options).
Proof.
  intros Hsp. unfold searchMessages. cbv zeta. rewrite filter_filter.
  apply List.filter_ext. intros m. unfold matchesTerms, searchTerms.
  rewrite !chars_toLowerCase, chars_append. unfold JS.lowerChars.
  rewrite map_app. cbn [JS.chars list_ascii_of_string map].
  rewrite (isSpace_lowerChar sp Hsp).
  apply forallb_splitSpaces_app; [apply includesChars_nil | exact Hsp].
Qed.

Lemma searchMessages_joined_queries_witness :
  searchMessages
    (fun _ _ => Some [sampleMac 1 "Budget review"; sampleMac 2 "Lunch"])
    (fun _ _ => None) "budget REVIEW" noOptions
  = List.filter (matchesTerms (searchTerms "REVIEW"))
      (searchMessages
         (fun _ _ => Some [sampleMac 1 "Budget review"; sampleMac 2 "Lunch"])
         (fun _ _ => None) "budget" noOptions).
Proof.
  apply (searchMessages_joined_queries
           (fun _ _ => Some [sampleMac 1 "Budget review"; sampleMac 2 "Lunch"])
           (fun _ _ => None) "budget" "REVIEW" " " noOptions).
  reflexivity.
Defined.

(** *** extractMailboxNameFromUrl *)

Lemma splitSlash_cons cur l : exists part parts, splitSlash cur l = part :: parts.
Proof.
  destruct l as [|c rest]; cbn; [eauto|]. destruct (Ascii.eqb c "/"); [eauto|].
  revert cur c. induction rest as [|c' rest IH]; intros cur c; cbn; [eauto|].
  destruct (Ascii.eqb c' "/"); [eauto|]. apply IH.
Qed.

(** The last part of [split('/')] is what follows the last slash, or the
    whole text when there is none. *)
Lemma splitSlash_last cur l :
  let seg := List.last (splitSlash cur l) [] in
  (("/"%char ∉ l) ∧ seg = cur ++ l)
  ∨ (exists pre, l = pre ++ "/"%char :: seg ∧ ("/"%char ∉ seg)).
Proof.
  cbv zeta. revert cur. induction l as [|c rest IH]; intros cur.
  - left. cbn. rewrite app_nil_r. split; [apply not_elem_of_nil | reflexivity].
  - cbn [splitSlash]. destruct (Ascii.eqb_spec c "/") as [->|Hc].
    + right. destruct (splitSlash_cons [] rest) as (part & parts & Hparts).
      specialize (IH []). rewrite Hparts in IH |- *.
      change (List.last (cur :: part :: parts) []) with (List.last (part :: parts) []).
      destruct IH as [[Hno ->]|(pre & Heq & Hno)].
      * exists []. split; [reflexivity | exact Hno].
      * exists ("/"%char :: pre). split; [|exact Hno].
        cbn. f_equal. exact Heq.
    + specialize (IH (cur ++ [c])). destruct IH as [[Hno ->]|(pre & Heq & Hno)].
      * left. split; [|rewrite <- app_assoc; reflexivity].
        apply not_elem_of_cons. split; [congruence | exact Hno].
      * right. exists (c :: pre). split; [|exact Hno]. cbn. f_equal. exact Heq.
Qed.

(** X26. The mailbox name taken from a URL is what follows the last
    slash of the URL, or the whole URL when it has no slash; when that is
    empty (an empty URL, or one that ends with a slash) the name is
    [Unknown]. So the name is never empty and never contains a slash. *)
Theorem extractMailboxNameFromUrl_last_segment (url : string) :
  let name := extractMailboxNameFromUrl url in
  name ≠ EmptyString
  ∧ ("/"%char ∉ JS.chars name)
  ∧ exists pre seg,
      JS.chars url = pre ++ seg
      ∧ ("/"%char ∉ seg)
      ∧ (pre = [] ∨ exists p, pre = p ++ ["/"%char])
      ∧ name = match seg with [] => "Unknown"%string | _ => JS.str seg end.
Proof.
  cbv zeta. unfold extractMailboxNameFromUrl. cbv zeta.
  pose proof (splitSlash_last [] (JS.chars url)) as Hlast. cbv zeta in Hlast.
  set (seg := List.last (splitSlash [] (JS.chars url)) []) in *.
  assert (Hseg : ("/"%char ∉ seg) ∧ exists pre, JS.chars url = pre ++ seg
                   ∧ (pre = [] ∨ exists p, pre = p ++ ["/"%char])).
  { destruct Hlast as [[Hno Heq]|(pre & Heq & Hno)].
    - rewrite Heq. split; [exact Hno|]. exists []. split; [reflexivity | left; reflexivity].
    - split; [exact Hno|]. exists (pre ++ ["/"%char]).
      split; [rewrite <- app_assoc; exact Heq | right; eauto]. }
  destruct Hseg as (Hno & pre & Hurl & Hpre).
  destruct seg as [|c seg'] eqn:Eseg.
  - cbn. split; [discriminate|]. split.
    + vm_compute. intros H. repeat (apply elem_of_cons in H as [H|H]; [discriminate|]).
      apply elem_of_nil in H. exact H.
    + exists pre, []. repeat split; assumption || reflexivity.
  - cbn [JS.str string_of_list_ascii JS.truthyString].
    split; [discriminate|]. split.
    + change (String c (string_of_list_ascii seg')) with (JS.str (c :: seg')).
      rewrite chars_str. exact Hno.
    + exists pre, (c :: seg'). repeat split; assumption || reflexivity.
Qed.

End HybridFacts.
